(** * lifion-kinesis: the shard coordination core

    A shallow embedding of the State Store (lib/state-store.js), of the shard
    lineage listing (lib/stream.js, [getStreamShards]) and of the per-shard
    polling worker (lib/polling-consumer.js), with the properties the
    specification states about them. *)

From Equations Require Import Equations.
From Stdlib Require Import ZArith Lia Ascii.
From stdpp Require Import gmap strings list fin_maps pretty sorting.

Set Warnings "-register-all".
Local Open Scope Z_scope.
Local Open Scope string_scope.
Local Open Scope list_scope.

(** ** Documents

    The coordination document is a tree of attribute values.  Timestamps are
    written by the code as ISO-8601 strings ([new Date(ms).toISOString()]) and
    read back with [new Date(iso).getTime()]; [VTime ms] stands for the ISO
    string of the instant [ms]. *)

Inductive value : Type :=
| VNull
| VBool (b : bool)
| VStr (s : string)
| VTime (ms : Z)
| VNum (n : Z)
| VMap (m : gmap string value).

(** JavaScript truthiness of an attribute value. *)
Definition truthy (v : value) : bool :=
  match v with
  | VNull => false
  | VBool b => b
  | VStr s => negb (String.eqb s "")
  | VTime _ => true
  | VNum n => negb (Z.eqb n 0)
  | VMap _ => true
  end.

(** Equality of scalar attribute values, as the [=] comparator of a condition
    expression decides it; the State Store only compares version tokens. *)
Definition value_eqb (a b : value) : bool :=
  match a, b with
  | VNull, VNull => true
  | VBool x, VBool y => Bool.eqb x y
  | VStr x, VStr y => String.eqb x y
  | VTime x, VTime y => Z.eqb x y
  | VNum x, VNum y => Z.eqb x y
  | _, _ => false
  end.

(** A resolved document path is the list of the attribute names from the root. *)
Fixpoint get_path (p : list string) (v : value) : option value :=
  match p with
  | [] => Some v
  | k :: p' =>
      match v with
      | VMap m => m !! k ≫= get_path p'
      | _ => None
      end
  end.

(** [SET path = x]: every map on the way to the last name must exist; the last
    name is created or overwritten. *)
Fixpoint set_path (p : list string) (x : value) (v : value) : option value :=
  match p with
  | [] => Some x
  | k :: p' =>
      match v with
      | VMap m =>
          match p' with
          | [] => Some (VMap (<[k:=x]> m))
          | _ :: _ =>
              c ← m !! k; c' ← set_path p' x c; Some (VMap (<[k:=c']> m))
          end
      | _ => None
      end
  end.

(** [REMOVE path]: the maps on the way must exist; removing a missing last
    name changes nothing. *)
Fixpoint remove_path (p : list string) (v : value) : option value :=
  match p with
  | [] => None
  | k :: p' =>
      match v with
      | VMap m =>
          match p' with
          | [] => Some (VMap (delete k m))
          | _ :: _ =>
              c ← m !! k; c' ← remove_path p' c; Some (VMap (<[k:=c']> m))
          end
      | _ => None
      end
  end.

(** ** Errors *)

Inductive error : Type :=
| AwsError (code : string)     (* an error object carrying [err.code] *)
| TypeError (message : string) (* a JavaScript TypeError, without [code] *)
| RangeError (message : string) (* a JavaScript RangeError, without [code] *).

Definition err_code (e : error) : option string :=
  match e with
  | AwsError c => Some c
  | TypeError _ | RangeError _ => None
  end.

Definition ConditionalCheckFailedException : string := "ConditionalCheckFailedException".
Definition ValidationException : string := "ValidationException".

Definition is_conditional_check_failed (e : error) : bool :=
  match err_code e with
  | Some c => String.eqb c ConditionalCheckFailedException
  | None => false
  end.

(** ** Requests to the key-value client

    The expressions are kept as the code writes them: paths of [#name]
    placeholders and [:value] placeholders, with the two substitution tables
    next to them. *)

Inductive action : Type :=
| SET (path : list string) (val : string)
| REMOVE (path : list string).

Inductive condition : Type :=
| attribute_not_exists (path : list string)
| path_equals (path : list string) (val : string).

Record UpdateParams : Type := {
  UpdateExpression : list action;
  ConditionExpression : option condition;
  ExpressionAttributeNames : gmap string string;
  ExpressionAttributeValues : gmap string value
}.

Inductive request : Type :=
| ReqGet
| ReqUpdate (params : UpdateParams).

Definition is_update (r : request) : bool :=
  match r with
  | ReqGet => false
  | ReqUpdate _ => true
  end.

(** ** The world an operation runs in

    [item] is the coordination document stored under the key
    (consumerGroup, streamName), if there is one.  [clock] is what [Date.now()]
    returns.  [generate()] hands out [uuid_of 0], [uuid_of 1], ... in turn.
    [fault_of n] is the error, if any, with which the service answers its n-th
    request without looking at it (throttling, network).  [requests] records
    the requests sent so far, oldest first. *)

Record World : Type := {
  item : option value;
  clock : Z;
  uuid_of : nat → string;
  generated : nat;
  fault_of : nat → option error;
  requests : list request
}.

Definition set_item (it : option value) (w : World) : World :=
  {| item := it; clock := clock w; uuid_of := uuid_of w; generated := generated w;
     fault_of := fault_of w; requests := requests w |}.

Definition log_request (r : request) (w : World) : World :=
  {| item := item w; clock := clock w; uuid_of := uuid_of w; generated := generated w;
     fault_of := fault_of w; requests := requests w ++ [r] |}.

Definition bump_generated (w : World) : World :=
  {| item := item w; clock := clock w; uuid_of := uuid_of w; generated := S (generated w);
     fault_of := fault_of w; requests := requests w |}.

(** Asynchronous code that may throw: a state and error monad over [World]. *)
Definition M (A : Type) : Type := World → (error + A) * World.

Definition ret {A} (a : A) : M A := λ w, (inr a, w).
Definition throw {A} (e : error) : M A := λ w, (inl e, w).
Definition bind {A B} (m : M A) (k : A → M B) : M B :=
  λ w, match m w with
       | (inr a, w') => k a w'
       | (inl e, w') => (inl e, w')
       end.
Definition try_catch {A} (m : M A) (handler : error → M A) : M A :=
  λ w, match m w with
       | (inr a, w') => (inr a, w')
       | (inl e, w') => handler e w'
       end.

Notation "'let*' x ':=' m 'in' k" := (bind m (λ x, k))
  (at level 10, x binder, m at level 100, k at level 200, only parsing).

Definition Date_now : M Z := λ w, (inr (clock w), w).
Definition generate : M string := λ w, (inr (uuid_of w (generated w)), bump_generated w).

(** ** The key-value client

    Modelled from the spec: lib/dynamodb-client.js is not among the sources.
    [update] carries an optional predicate whose failure is the distinct error
    [ConditionalCheckFailedException]; the item is read and written in one
    atomic step.  A placeholder without an entry in its table, and a path whose
    enclosing map does not exist, are refused with [ValidationException]
    before anything is written.  A missing item counts as the empty map. *)

Definition resolve_path (names : gmap string string) (p : list string) : option (list string) :=
  mapM (λ n, names !! n) p.

Definition eval_condition (names : gmap string string) (vals : gmap string value)
    (c : condition) (doc : value) : option bool :=
  match c with
  | attribute_not_exists p =>
      rp ← resolve_path names p;
      Some (match get_path rp doc with Some _ => false | None => true end)
  | path_equals p v =>
      rp ← resolve_path names p;
      x ← vals !! v;
      Some (match get_path rp doc with Some y => value_eqb y x | None => false end)
  end.

Definition apply_action (names : gmap string string) (vals : gmap string value)
    (a : action) (doc : value) : option value :=
  match a with
  | SET p v => rp ← resolve_path names p; x ← vals !! v; set_path rp x doc
  | REMOVE p => rp ← resolve_path names p; remove_path rp doc
  end.

Fixpoint apply_actions (names : gmap string string) (vals : gmap string value)
    (acts : list action) (doc : value) : option value :=
  match acts with
  | [] => Some doc
  | a :: rest => apply_action names vals a doc ≫= apply_actions names vals rest
  end.

Definition item_or_empty (it : option value) : value :=
  match it with
  | Some d => d
  | None => VMap ∅
  end.

Definition client_update (params : UpdateParams) : M unit := λ w,
  let w1 := log_request (ReqUpdate params) w in
  match fault_of w (length (requests w)) with
  | Some e => (inl e, w1)
  | None =>
      let names := ExpressionAttributeNames params in
      let vals := ExpressionAttributeValues params in
      let doc := item_or_empty (item w) in
      let holds :=
        match ConditionExpression params with
        | None => Some true
        | Some c => eval_condition names vals c doc
        end in
      match holds with
      | None => (inl (AwsError ValidationException), w1)
      | Some false => (inl (AwsError ConditionalCheckFailedException), w1)
      | Some true =>
          match apply_actions names vals (UpdateExpression params) doc with
          | None => (inl (AwsError ValidationException), w1)
          | Some doc' => (inr tt, set_item (Some doc') w1)
          end
      end
  end.

(** [client.get] with [ConsistentRead]: the current item, or [undefined]. *)
Definition client_get : M (option value) := λ w,
  let w1 := log_request ReqGet w in
  match fault_of w (length (requests w)) with
  | Some e => (inl e, w1)
  | None => (inr (item w), w1)
  end.

(** ** The State Store (lib/state-store.js) *)

(** The private data of an instance that the operations below read. *)
Record StateStore : Type := {
  consumerId : string;
  isStandalone : bool
}.

Definition shardsPath (self : StateStore) : list string :=
  if isStandalone self then ["#a0"; "#a1"; "#a2"] else ["#a"].

Definition shardsPathNames (self : StateStore) : gmap string string :=
  if isStandalone self
  then <["#a2" := "shards"]> (<["#a1" := consumerId self]> {["#a0" := "consumers"]})
  else {["#a" := "shards"]}.

(** Where the shard records of an instance really are. *)
Definition shards_root (self : StateStore) : list string :=
  if isStandalone self then ["consumers"; consumerId self; "shards"] else ["shards"].

Definition slot (self : StateStore) (shardId : string) : list string :=
  shards_root self ++ [shardId].

Definition rethrow_unless_conditional {A} (fallback : M A) (err : error) : M A :=
  if is_conditional_check_failed err then fallback else throw err.

(** [new Date(ms).toISOString()]: a time value more than 8.64e15 ms away
    from the epoch is no date, and [toISOString] throws. *)
Definition MAX_TIME : Z := 8640000000000000.

Definition valid_time (ms : Z) : bool := Z.leb (- MAX_TIME) ms && Z.leb ms MAX_TIME.

Definition toISOString (ms : Z) : M value :=
  if valid_time ms then ret (VTime ms) else throw (RangeError "Invalid time value").

Definition lockShardLease (self : StateStore) (shardId : string)
    (leaseTermTimeout : Z) (version : value) : M bool :=
  try_catch
    (let* now := Date_now in
     let* x := toISOString (now + leaseTermTimeout) in
     let* y := generate in
     let* _ := client_update {|
       UpdateExpression :=
         [ SET (shardsPath self ++ ["#b"; "#c"]) ":w";
           SET (shardsPath self ++ ["#b"; "#d"]) ":x";
           SET (shardsPath self ++ ["#b"; "#e"]) ":y" ];
       ConditionExpression := Some (path_equals (shardsPath self ++ ["#b"; "#e"]) ":z");
       ExpressionAttributeNames :=
         <["#e" := "version"]> (<["#d" := "leaseExpiration"]> (<["#c" := "leaseOwner"]>
           (<["#b" := shardId]> (shardsPathNames self))));
       ExpressionAttributeValues :=
         <[":z" := version]> (<[":y" := VStr y]> (<[":x" := x]>
           {[":w" := VStr (consumerId self)]}))
     |} in
     ret true)
    (rethrow_unless_conditional (ret false)).

Definition releaseShardLease (self : StateStore) (shardId : string)
    (version : value) : M (option string) :=
  let* releasedVersion := generate in
  try_catch
    (let* _ := client_update {|
       UpdateExpression :=
         [ SET (shardsPath self ++ ["#b"; "#c"]) ":w";
           SET (shardsPath self ++ ["#b"; "#d"]) ":x";
           SET (shardsPath self ++ ["#b"; "#e"]) ":y" ];
       ConditionExpression := Some (path_equals (shardsPath self ++ ["#b"; "#e"]) ":z");
       ExpressionAttributeNames :=
         <["#e" := "version"]> (<["#d" := "leaseExpiration"]> (<["#c" := "leaseOwner"]>
           (<["#b" := shardId]> (shardsPathNames self))));
       ExpressionAttributeValues :=
         <[":z" := version]> (<[":y" := VStr releasedVersion]> (<[":x" := VNull]>
           {[":w" := VNull]}))
     |} in
     ret (Some releasedVersion))
    (rethrow_unless_conditional (ret None)).


(** [await Promise.all(ms)]: every call is started, in order; the first error
    among them, if any, is then thrown. *)
Fixpoint promise_all {A} (ms : list (M A)) : M (list A) :=
  match ms with
  | [] => ret []
  | m :: rest => λ w,
      match m w with
      | (inr a, w1) =>
          match promise_all rest w1 with
          | (inr l, w2) => (inr (a :: l), w2)
          | (inl e, w2) => (inl e, w2)
          end
      | (inl e, w1) => (inl e, (promise_all rest w1).2)
      end
  end.

(** [array.reduce(f, init)] with a callback that awaits or generates. *)
Fixpoint reduceM {A B} (f : B → A → M B) (l : list A) (init : B) : M B :=
  match l with
  | [] => ret init
  | a :: rest => let* b := f init a in reduceM f rest b
  end.

(** [array.map((x, index) => ...)] paired with the index. *)
Definition indexed {A} (l : list A) : list (nat * A) := imap (λ i x, (i, x)) l.

(** The template literals [`#${index}`] and [`:${index}`]. *)
Definition name_ref (index : nat) : string := "#" +:+ pretty index.
Definition value_ref (index : nat) : string := ":" +:+ pretty index.

Definition getStreamState : M (option value) := client_get.

(** Property access [obj[key]] on a value read from the document: [None] is
    [undefined]; reading a property of [undefined] or [null] throws. *)
Definition prop (obj : option value) (key : string) : M (option value) :=
  match obj with
  | None => throw (TypeError "Cannot read properties of undefined")
  | Some VNull => throw (TypeError "Cannot read properties of null")
  | Some (VMap m) => ret (m !! key)
  | Some _ => ret None
  end.

(** [Object.keys(obj)]. *)
Definition Object_keys (obj : option value) : M (list string) :=
  match obj with
  | None | Some VNull => throw (TypeError "Cannot convert undefined or null to object")
  | Some (VMap m) => ret (map fst (map_to_list m))
  | Some _ => ret []
  end.

(** [new Date(heartbeat).getTime()]; [None] is [NaN]. *)
Definition getTime (heartbeat : option value) : option Z :=
  match heartbeat with
  | Some (VTime ms) => Some ms
  | Some (VNum n) => Some n
  | Some VNull => Some 0
  | _ => None
  end.

Definition truthy_opt (v : option value) : bool :=
  match v with
  | Some x => truthy x
  | None => false
  end.

Definition clearOldConsumers (self : StateStore) (heartbeatFailureTimeout : Z) : M unit :=
  let* Item := getStreamState in
  let* consumers := prop Item "consumers" in
  let* version := prop Item "version" in
  let* consumerIds := Object_keys consumers in
  let* oldConsumers :=
    reduceM (λ acc id,
      let* consumer := prop consumers id in
      let* heartbeat := prop consumer "heartbeat" in
      let* now := Date_now in
      ret (match getTime heartbeat with
           | Some t => if Z.ltb heartbeatFailureTimeout (now - t) then acc ++ [id] else acc
           | None => acc
           end)) consumerIds [] in
  if Nat.eqb (length oldConsumers) 0 then ret tt
  else
    try_catch
      (let* x := generate in
       client_update {|
         UpdateExpression :=
           imap (λ index _, REMOVE ["#a"; name_ref index]) oldConsumers ++ [SET ["#b"] ":x"];
         ConditionExpression := Some (path_equals ["#b"] ":y");
         ExpressionAttributeNames :=
           foldl (λ obj '(index, id), <[name_ref index := id]> obj) ∅ (indexed oldConsumers)
           ∪ <["#b" := "version"]> {["#a" := "consumers"]};
         ExpressionAttributeValues :=
           match version with
           | Some y => <[":y" := y]> {[":x" := VStr x]}
           | None => {[":x" := VStr x]}
           end
       |})
      (rethrow_unless_conditional (ret tt)).

(** The constants of the process that [registerConsumer] records. *)
Record Process : Type := {
  appName : string;
  host : string;
  pid : Z;
  startedOn : Z  (* [Date.now() - uptime() * 1000] *)
}.

Definition registerConsumer (proc : Process) (self : StateStore) : M unit :=
  let* heartbeat := Date_now in
  try_catch
    (client_update {|
       UpdateExpression := [SET ["#a"; "#b"] ":x"];
       ConditionExpression := Some (attribute_not_exists ["#a"; "#b"]);
       ExpressionAttributeNames := <["#b" := consumerId self]> {["#a" := "consumers"]};
       ExpressionAttributeValues :=
         {[":x" := VMap
            ((if isStandalone self then <["shards" := VMap ∅]> else id)
               (<["startedOn" := VTime (startedOn proc)]> (<["pid" := VNum (pid proc)]>
                (<["isStandalone" := VBool (isStandalone self)]> (<["host" := VStr (host proc)]>
                 (<["heartbeat" := VTime heartbeat]> {["appName" := VStr (appName proc)]}))))))]}
     |})
    (λ err,
       if is_conditional_check_failed err then
         try_catch
           (client_update {|
              UpdateExpression := [SET ["#a"; "#b"; "#c"] ":x"];
              ConditionExpression := None;
              ExpressionAttributeNames :=
                <["#c" := "heartbeat"]> (<["#b" := consumerId self]> {["#a" := "consumers"]});
              ExpressionAttributeValues := {[":x" := VTime heartbeat]}
            |})
           (λ _, ret tt)
       else throw err).

(** An entry of the shard lineage map that [getStreamShards] returns. *)
Record ShardData : Type := {
  parent : option string;
  startingSequenceNumber : string
}.

Definition of_parent (p : option string) : value :=
  match p with
  | Some s => VStr s
  | None => VNull
  end.

Definition ensureShardStateExists (self : StateStore) (shardId : string)
    (shardData : ShardData) : M unit :=
  try_catch
    (let* version := generate in
     client_update {|
       UpdateExpression := [SET (shardsPath self ++ ["#b"]) ":x"];
       ConditionExpression := Some (attribute_not_exists (shardsPath self ++ ["#b"]));
       ExpressionAttributeNames := <["#b" := shardId]> (shardsPathNames self);
       ExpressionAttributeValues :=
         {[":x" := VMap
            (<["version" := VStr version]> (<["leaseOwner" := VNull]>
             (<["leaseExpiration" := VNull]> (<["depleted" := VBool false]>
              (<["checkpoint" := VNull]> {["parent" := of_parent (parent shardData)]})))))]}
     |})
    (rethrow_unless_conditional (ret tt)).

Definition storeShardCheckpoint (self : StateStore) (shardId : string)
    (checkpoint : value) : M unit :=
  let* y := generate in
  client_update {|
    UpdateExpression :=
      [ SET (shardsPath self ++ ["#b"; "#c"]) ":x";
        SET (shardsPath self ++ ["#b"; "#d"]) ":y" ];
    ConditionExpression := None;
    ExpressionAttributeNames :=
      <["#d" := "version"]> (<["#c" := "checkpoint"]> (<["#b" := shardId]> (shardsPathNames self)));
    ExpressionAttributeValues := <[":y" := VStr y]> {[":x" := checkpoint]}
  |}.

(** The [{ shardId, startingSequenceNumber }] objects of [markShardAsDepleted]. *)
Record ChildShard : Type := {
  child_shardId : string;
  child_startingSequenceNumber : string
}.

Definition childrenOf (shardsData : gmap string ShardData) (parentShardId : string)
    : list ChildShard :=
  map (λ kv, {| child_shardId := kv.1;
                child_startingSequenceNumber := startingSequenceNumber kv.2 |})
      (filter (λ kv, parent kv.2 = Some parentShardId) (map_to_list shardsData)).

Definition markShardAsDepleted (self : StateStore) (shardsData : gmap string ShardData)
    (parentShardId : string) : M unit :=
  let* Item := getStreamState in
  let* shards := prop Item "shards" in
  let* parentShard := prop shards parentShardId in
  let* checkpoint := prop parentShard "checkpoint" in
  let childrenShards :=
    if truthy_opt checkpoint then childrenOf shardsData parentShardId else [] in
  let* _ := promise_all
    (map (λ childrenShard,
            match shardsData !! child_shardId childrenShard with
            | Some shardData => ensureShardStateExists self (child_shardId childrenShard) shardData
            | None => throw (TypeError "Cannot destructure property 'parent' of undefined")
            end)
         childrenShards) in
  let* y := generate in
  let* values :=
    reduceM (λ obj '(index, childShard),
      let* v := generate in
      ret (<[value_ref (index * 2 + 1) := VStr v]>
            (<[value_ref (index * 2) := VStr (child_startingSequenceNumber childShard)]> obj)))
      (indexed childrenShards) ∅ in
  client_update {|
    UpdateExpression :=
      [ SET (shardsPath self ++ ["#b"; "#c"]) ":x";
        SET (shardsPath self ++ ["#b"; "#d"]) ":y" ]
      ++ concat (imap (λ index _,
           [ SET (shardsPath self ++ [name_ref index; "#e"]) (value_ref (index * 2));
             SET (shardsPath self ++ [name_ref index; "#d"]) (value_ref (index * 2 + 1)) ])
           childrenShards);
    ConditionExpression := None;
    ExpressionAttributeNames :=
      foldl (λ obj '(index, childShard), <[name_ref index := child_shardId childShard]> obj)
        ∅ (indexed childrenShards)
      ∪ (if Nat.ltb 0 (length childrenShards) then <["#e" := "checkpoint"]> else id)
          (<["#d" := "version"]> (<["#c" := "depleted"]> (<["#b" := parentShardId]>
            (shardsPathNames self))));
    ExpressionAttributeValues := values ∪ <[":y" := VStr y]> {[":x" := VBool true]}
  |}.

(** [array.filter(p)] with a predicate that reads properties, which may
    throw. *)
Fixpoint filterM {A} (p : A → M bool) (l : list A) : M (list A) :=
  match l with
  | [] => ret []
  | a :: rest =>
      let* keep := p a in
      let* kept := filterM p rest in
      ret (if keep then a :: kept else kept)
  end.

(** [v === s] for a value read from the document and a string. *)
Definition is_string (s : string) (v : option value) : bool :=
  match v with
  | Some (VStr x) => String.eqb x s
  | _ => false
  end.

(** [v !== undefined]. *)
Definition is_defined {A} (v : option A) : bool :=
  match v with
  | Some _ => true
  | None => false
  end.

(** The names of the members that every plain object inherits from
    [Object.prototype]; each of them is a function, or the prototype itself,
    and so is truthy. *)
Definition Object_prototype : list string :=
  ["constructor"; "__defineGetter__"; "__defineSetter__"; "hasOwnProperty";
   "__lookupGetter__"; "__lookupSetter__"; "isPrototypeOf"; "propertyIsEnumerable";
   "toString"; "valueOf"; "__proto__"; "toLocaleString"].

Definition inherited (name : string) : bool := bool_decide (name ∈ Object_prototype).

(** What [object[key]] gives when it is defined: an attribute of the object
    itself, or else the member of that name that the object inherits. *)
Inductive member : Type :=
| own (v : value)
| inherited_member (name : string).

(** [m[key]] for a map [m] read from the document, which is a plain
    object. *)
Definition own_or_inherited (m : gmap string value) (key : string) : option member :=
  match m !! key with
  | Some v => Some (own v)
  | None => if inherited key then Some (inherited_member key) else None
  end.

(** [shards[shardId]].  (The State Store writes a map there; of what a string,
    a number or a boolean has, only the members of [Object.prototype] are
    accounted for.) *)
Definition member_of (obj : option value) (key : string) : M (option member) :=
  match obj with
  | None => throw (TypeError "Cannot read properties of undefined")
  | Some VNull => throw (TypeError "Cannot read properties of null")
  | Some (VMap m) => ret (own_or_inherited m key)
  | Some _ => ret (if inherited key then Some (inherited_member key) else None)
  end.

(** The closure [getState] of [getShardAndStreamState]: the stream state and
    the state of the shard in the map of the mode. *)
Definition getState (self : StateStore) (shardId : string)
    : M (option value * option member) :=
  let* streamState := getStreamState in
  let* consumers := prop streamState "consumers" in
  let* holder :=
    (if isStandalone self then prop consumers (consumerId self) else ret streamState) in
  let* shards := prop holder "shards" in
  let* shardState := member_of shards shardId in
  ret (streamState, shardState).

Definition getShardAndStreamState (self : StateStore) (shardId : string)
    (shardData : ShardData) : M (option value * option member) :=
  let* states := getState self shardId in
  if is_defined states.2 then ret states
  else
    let* _ := ensureShardStateExists self shardId shardData in
    getState self shardId.

(** An entry of what [getOwnedShards] returns. *)
Record OwnedShard : Type := {
  owned_checkpoint : option value;
  owned_leaseExpiration : option value;
  owned_version : option value
}.

(** [getOwnedShards()].  ([Object.keys] of a string lists its indices; their
    values have no [leaseOwner], so that the result is the same as with the
    empty list that [Object_keys] gives.) *)
Definition getOwnedShards (self : StateStore) : M (gmap string OwnedShard) :=
  let* streamState := getStreamState in
  let* consumers := prop streamState "consumers" in
  let* holder :=
    (if isStandalone self then prop consumers (consumerId self) else ret streamState) in
  let* shards := prop holder "shards" in
  let* shardIds := Object_keys shards in
  let* owned :=
    filterM (λ shardId,
      let* shard := prop shards shardId in
      let* leaseOwner := prop shard "leaseOwner" in
      ret (is_string (consumerId self) leaseOwner)) shardIds in
  reduceM (λ obj shardId,
    let* shard := prop shards shardId in
    let* checkpoint := prop shard "checkpoint" in
    let* leaseExpiration := prop shard "leaseExpiration" in
    let* version := prop shard "version" in
    ret (<[shardId := {| owned_checkpoint := checkpoint;
                         owned_leaseExpiration := leaseExpiration;
                         owned_version := version |}]> obj)) owned ∅.

(** ** Histories of State Store calls

    The operations that write to the document, as calls of some instance at
    some time, and what a sequence of them makes of the world. *)

Inductive StateStoreCall : Type :=
| EnsureShardStateExists (shardId : string) (shardData : ShardData)
| LockShardLease (shardId : string) (leaseTermTimeout : Z) (version : value)
| ReleaseShardLease (shardId : string) (version : value)
| StoreShardCheckpoint (shardId : string) (checkpoint : value)
| MarkShardAsDepleted (shardsData : gmap string ShardData) (parentShardId : string)
| RegisterConsumer (proc : Process)
| ClearOldConsumers (heartbeatFailureTimeout : Z).

Definition call (self : StateStore) (c : StateStoreCall) (w : World) : World :=
  match c with
  | EnsureShardStateExists shardId shardData =>
      (ensureShardStateExists self shardId shardData w).2
  | LockShardLease shardId leaseTermTimeout version =>
      (lockShardLease self shardId leaseTermTimeout version w).2
  | ReleaseShardLease shardId version => (releaseShardLease self shardId version w).2
  | StoreShardCheckpoint shardId checkpoint =>
      (storeShardCheckpoint self shardId checkpoint w).2
  | MarkShardAsDepleted shardsData parentShardId =>
      (markShardAsDepleted self shardsData parentShardId w).2
  | RegisterConsumer proc => (registerConsumer proc self w).2
  | ClearOldConsumers heartbeatFailureTimeout =>
      (clearOldConsumers self heartbeatFailureTimeout w).2
  end.

Definition at_time (t : Z) (w : World) : World :=
  {| item := item w; clock := t; uuid_of := uuid_of w; generated := generated w;
     fault_of := fault_of w; requests := requests w |}.

(** Calls made one after the other, each by its instance at its time. *)
Fixpoint history (steps : list (Z * StateStore * StateStoreCall)) (w : World) : World :=
  match steps with
  | [] => w
  | (t, self, c) :: rest => history rest (call self c (at_time t w))
  end.

(** ** The shard lineage (lib/stream.js) *)

(** An element of the [Shards] array that [client.listShards] answers. *)
Record SequenceNumberRange : Type := {
  StartingSequenceNumber : string
}.

Record Shard : Type := {
  ShardId : string;
  ParentShardId : option string;
  SequenceNumberRange_ : SequenceNumberRange
}.

(** [value || null] for an optional string: the empty string is falsy. *)
Definition or_null (s : option string) : option string :=
  match s with
  | Some x => if String.eqb x "" then None else Some x
  | None => None
  end.

(** [Object.fromEntries(entries)]: a later entry replaces an earlier one with
    the same key. *)
Definition Object_fromEntries {A} (entries : list (string * A)) : gmap string A :=
  foldl (λ obj kv, <[kv.1 := kv.2]> obj) ∅ entries.

(** Whether [shards[name]] is truthy, for the plain object [shards] whose own
    properties are all objects: [name] is a key, or the name of an inherited
    member. *)
Definition has_member {A} (shards : gmap string A) (name : string) : bool :=
  bool_decide (is_Some (shards !! name)) || inherited name.

(** The body of the [forEach]: the shard [id] of [shards] loses a parent for
    which [shards[parent]] is falsy. *)
Definition promote_orphan (shards : gmap string ShardData) (id : string)
    : gmap string ShardData :=
  match shards !! id with
  | Some shard =>
      match parent shard with
      | Some p =>
          if negb (String.eqb p "") && negb (has_member shards p)
          then <[id := {| parent := None;
                          startingSequenceNumber := startingSequenceNumber shard |}]> shards
          else shards
      | None => shards
      end
  | None => shards
  end.

(** [getStreamShards], from the answer of [client.listShards] on ([Shards]
    absent in the answer counts as the empty array). *)
Definition getStreamShards (Shards : option (list Shard)) : gmap string ShardData :=
  let Shards := default [] Shards in
  let shards :=
    Object_fromEntries
      (map (λ sh, (ShardId sh,
                   {| parent := or_null (ParentShardId sh);
                      startingSequenceNumber :=
                        StartingSequenceNumber (SequenceNumberRange_ sh) |}))
           Shards) in
  foldl promote_orphan shards (map fst (map_to_list shards)).

(** ** Sample worlds *)

(** The item that [initStreamState] puts for a new stream. *)
Definition initial_document (version : string) : value :=
  VMap (<["version" := VStr version]> (<["streamName" := VStr "stream"]>
       (<["streamCreatedOn" := VTime 0]> (<["shards" := VMap ∅]>
       (<["consumers" := VMap ∅]> {["consumerGroup" := VStr "group"]}))))).

Definition sample_uuid (n : nat) : string := "uuid-" +:+ pretty n.

Definition sample_world (it : option value) : World :=
  {| item := it; clock := 0; uuid_of := sample_uuid; generated := 0;
     fault_of := λ _, None; requests := [] |}.

Definition sample_process : Process :=
  {| appName := "app"; host := "host"; pid := 42; startedOn := 0 |}.

Definition consumer_A : StateStore := {| consumerId := "A"; isStandalone := false |}.
Definition consumer_B : StateStore := {| consumerId := "B"; isStandalone := true |}.
Definition consumer_C : StateStore := {| consumerId := "C"; isStandalone := false |}.

Definition root_shard : ShardData := {| parent := None; startingSequenceNumber := "1" |}.

(** A shard record as [ensureShardStateExists] writes it, with a checkpoint. *)
Definition shard_record (checkpoint : value) (depleted : bool) (version : string) : value :=
  VMap (<["version" := VStr version]> (<["leaseOwner" := VNull]>
       (<["leaseExpiration" := VNull]> (<["depleted" := VBool depleted]>
       (<["checkpoint" := checkpoint]> {["parent" := VNull]}))))).

(** An auto-assignment document with one shard, checkpointed at 100. *)
Definition one_shard_document : value :=
  VMap (<["version" := VStr "v0"]> (<["shards" :=
          VMap {["shardId-000" := shard_record (VStr "100") false "v1"]}]>
       (<["consumers" := VMap {["A" := VMap {["heartbeat" := VTime 1000]}]}]> ∅))).

(** A standalone document: consumer B keeps the same shard under its own
    record, and the top-level [shards] map is empty. *)
Definition standalone_document : value :=
  VMap (<["version" := VStr "v0"]> (<["shards" := VMap ∅]>
       (<["consumers" := VMap {["B" := VMap
            (<["shards" := VMap {["shardId-000" := shard_record (VStr "100") false "v1"]}]>
               {["heartbeat" := VTime 1000]})]}]> ∅))).

(** The lineage after a split of shardId-000 into shardId-001 and shardId-002. *)
Definition split_lineage : gmap string ShardData :=
  <["shardId-002" := {| parent := Some "shardId-000"; startingSequenceNumber := "202" |}]>
  (<["shardId-001" := {| parent := Some "shardId-000"; startingSequenceNumber := "201" |}]>
  {["shardId-000" := root_shard]}).

(** A group with an auto-assignment consumer A and a standalone consumer B:
    B registers, sees shardId-000 and reads it to its end. *)
Definition standalone_setup : list (Z * StateStore * StateStoreCall) :=
  [ (1000, consumer_A, EnsureShardStateExists "shardId-000" root_shard);
    (1000, consumer_B, RegisterConsumer sample_process);
    (1000, consumer_B, EnsureShardStateExists "shardId-000" root_shard);
    (2000, consumer_B, MarkShardAsDepleted ∅ "shardId-000") ].

(** B is silent for more than the heartbeat timeout, A clears it, B comes back. *)
Definition standalone_restart : list (Z * StateStore * StateStoreCall) :=
  [ (100000, consumer_A, ClearOldConsumers 60000);
    (100001, consumer_B, RegisterConsumer sample_process);
    (100002, consumer_B, EnsureShardStateExists "shardId-000" root_shard) ].

(** What [listShards] answers for a stream whose first shard was closed and
    followed by a second one. *)
Definition sample_shards : list Shard :=
  [ {| ShardId := "shardId-000"; ParentShardId := None;
       SequenceNumberRange_ := {| StartingSequenceNumber := "1" |} |};
    {| ShardId := "shardId-001"; ParentShardId := Some "shardId-000";
       SequenceNumberRange_ := {| StartingSequenceNumber := "31" |} |} ].

(** ** The polling consumer (lib/polling-consumer.js) *)

Module PollingConsumer.

(** A JavaScript value that is a string, [null] or [undefined] is an
    [option string]; it is truthy when it is a non-empty string. *)
Definition truthy_str (s : option string) : bool :=
  match s with
  | Some x => negb (String.eqb x "")
  | None => false
  end.

(** *** What the consumer exchanges with its collaborators *)

Record ShardIteratorParams : Type := {
  ShardId : string;
  ShardIteratorType : string;
  StreamName : string;
  StartingSequenceNumber : option string
}.

(** A record as the stream service returns it. *)
Record RawRecord : Type := {
  SequenceNumber : string;
  Data : string
}.

(** A property of an answer that is not there, is [null], or is a string. *)
Inductive Nullable : Type :=
| Undefined
| Null
| Str (s : string).

(** What the private data keep of such a property: an iterator is kept as an
    [option string], where [null] and [undefined] are both [None]; the code
    only tests whether a kept iterator is truthy. *)
Definition string_of (v : Nullable) : option string :=
  match v with
  | Str s => Some s
  | Undefined | Null => None
  end.

Coercion string_of : Nullable >-> option.

Record GetRecordsOutput : Type := {
  MillisBehindLatest : option Z;
  NextShardIterator : Nullable;
  Records : list RawRecord
}.

(** A record as the records decoder returns it. *)
Record DecodedRecord : Type := {
  sequenceNumber : string;
  data : string
}.

(** The object pushed to the stream; the two functions are present or not. *)
Record Payload : Type := {
  payload_millisBehindLatest : option Z;
  payload_records : list DecodedRecord;
  payload_shardId : string;
  payload_streamName : string;
  payload_setCheckpoint : bool;
  payload_continuePolling : bool
}.

(** The calls that leave the consumer, each with the answer it got. *)
Inductive Event : Type :=
| EvGetShardIterator (params : ShardIteratorParams) (answer : error + option string)
| EvGetRecords (Limit : Z) (ShardIterator : string) (answer : error + GetRecordsOutput)
| EvListShards (streamName : string) (answer : error + option (list Shard))
| EvMarkShardAsDepleted (shards : gmap string ShardData) (shardId : string)
    (answer : error + unit)
| EvStoreShardCheckpoint (shardId sequenceNumber : string) (answer : error + unit)
| EvStopConsumer (shardId : string)
| EvPushToStream (err : option error) (payload : option Payload)
| EvSetTimeout (delay : Z).

(** The collaborators.  The clock, the stream service and the state store
    answer as they please, knowing everything that happened so far; the two
    codecs are functions of their input.  (Logger calls are left out.) *)
Record Env : Type := {
  Date_now : list Event → Z;
  client_getShardIterator : list Event → ShardIteratorParams → error + option string;
  client_getRecords : list Event → Z → string → error + GetRecordsOutput;
  client_listShards : list Event → string → error + option (list Shard);
  stateStore_markShardAsDepleted :
    list Event → gmap string ShardData → string → error + unit;
  stateStore_storeShardCheckpoint : list Event → string → string → error + unit;
  deaggregate : list RawRecord → error + list RawRecord;
  recordsDecoder : RawRecord → error + DecodedRecord
}.

(** *** The private data of an instance *)

Record PrivateProps : Type := {
  checkpoint : option string;
  initialPositionInStream : string;
  iterator : option string;
  leaseExpiration : option Z;   (* [new Date(...).getTime()]; [None] is [NaN] *)
  limit : Z;
  noRecordsPollDelay : Z;
  pollDelay : Z;
  seqNumToCheckpoint : option string;
  shardId : string;
  shouldDeaggregate : bool;
  streamName : string;
  timeoutId : option Z;         (* the pending timer, by its delay *)
  useAutoCheckpoints : bool;
  usePausedPolling : bool
}.

Definition with_checkpoint (v : option string) (p : PrivateProps) : PrivateProps :=
  {| checkpoint := v; initialPositionInStream := initialPositionInStream p;
     iterator := iterator p; leaseExpiration := leaseExpiration p; limit := limit p;
     noRecordsPollDelay := noRecordsPollDelay p; pollDelay := pollDelay p;
     seqNumToCheckpoint := seqNumToCheckpoint p; shardId := shardId p;
     shouldDeaggregate := shouldDeaggregate p; streamName := streamName p;
     timeoutId := timeoutId p; useAutoCheckpoints := useAutoCheckpoints p;
     usePausedPolling := usePausedPolling p |}.

Definition with_iterator (v : option string) (p : PrivateProps) : PrivateProps :=
  {| checkpoint := checkpoint p; initialPositionInStream := initialPositionInStream p;
     iterator := v; leaseExpiration := leaseExpiration p; limit := limit p;
     noRecordsPollDelay := noRecordsPollDelay p; pollDelay := pollDelay p;
     seqNumToCheckpoint := seqNumToCheckpoint p; shardId := shardId p;
     shouldDeaggregate := shouldDeaggregate p; streamName := streamName p;
     timeoutId := timeoutId p; useAutoCheckpoints := useAutoCheckpoints p;
     usePausedPolling := usePausedPolling p |}.

Definition with_seqNumToCheckpoint (v : option string) (p : PrivateProps) : PrivateProps :=
  {| checkpoint := checkpoint p; initialPositionInStream := initialPositionInStream p;
     iterator := iterator p; leaseExpiration := leaseExpiration p; limit := limit p;
     noRecordsPollDelay := noRecordsPollDelay p; pollDelay := pollDelay p;
     seqNumToCheckpoint := v; shardId := shardId p;
     shouldDeaggregate := shouldDeaggregate p; streamName := streamName p;
     timeoutId := timeoutId p; useAutoCheckpoints := useAutoCheckpoints p;
     usePausedPolling := usePausedPolling p |}.

Definition with_timeoutId (v : option Z) (p : PrivateProps) : PrivateProps :=
  {| checkpoint := checkpoint p; initialPositionInStream := initialPositionInStream p;
     iterator := iterator p; leaseExpiration := leaseExpiration p; limit := limit p;
     noRecordsPollDelay := noRecordsPollDelay p; pollDelay := pollDelay p;
     seqNumToCheckpoint := seqNumToCheckpoint p; shardId := shardId p;
     shouldDeaggregate := shouldDeaggregate p; streamName := streamName p;
     timeoutId := v; useAutoCheckpoints := useAutoCheckpoints p;
     usePausedPolling := usePausedPolling p |}.

Definition with_leaseExpiration (v : option Z) (p : PrivateProps) : PrivateProps :=
  {| checkpoint := checkpoint p; initialPositionInStream := initialPositionInStream p;
     iterator := iterator p; leaseExpiration := v; limit := limit p;
     noRecordsPollDelay := noRecordsPollDelay p; pollDelay := pollDelay p;
     seqNumToCheckpoint := seqNumToCheckpoint p; shardId := shardId p;
     shouldDeaggregate := shouldDeaggregate p; streamName := streamName p;
     timeoutId := timeoutId p; useAutoCheckpoints := useAutoCheckpoints p;
     usePausedPolling := usePausedPolling p |}.

(** An instance and what it has done so far. *)
Record Consumer : Type := {
  props : PrivateProps;
  trace : list Event
}.

Definition emit (e : Event) (c : Consumer) : Consumer :=
  {| props := props c; trace := trace c ++ [e] |}.

Definition update (f : PrivateProps → PrivateProps) (c : Consumer) : Consumer :=
  {| props := f (props c); trace := trace c |}.

(** *** Asynchronous code of the consumer *)

Definition P (A : Type) : Type := Env → Consumer → (error + A) * Consumer.

Definition pret {A} (a : A) : P A := λ _ c, (inr a, c).
Definition pthrow {A} (e : error) : P A := λ _ c, (inl e, c).
Definition pbind {A B} (m : P A) (k : A → P B) : P B :=
  λ env c, match m env c with
           | (inr a, c') => k a env c'
           | (inl e, c') => (inl e, c')
           end.

Notation "'do!' x ':=' m 'in' k" := (pbind m (λ x, k))
  (at level 10, x binder, m at level 100, k at level 200, only parsing).

Definition of_result {A} (r : error + A) : P A := λ _ c, (r, c).
Definition read {A} (f : PrivateProps → A) : P A := λ _ c, (inr (f (props c)), c).
Definition write (f : PrivateProps → PrivateProps) : P unit := λ _ c, (inr tt, update f c).
Definition notify (e : Event) : P unit := λ _ c, (inr tt, emit e c).

(** A call that is answered, or rejected, by a collaborator. *)
Definition ask {A} (answer : Env → list Event → error + A) (event : (error + A) → Event)
    : P A :=
  λ env c, let r := answer env (trace c) in (r, emit (event r) c).

Definition now : P Z := λ env c, (inr (Date_now env (trace c)), c).

Definition is_code (code : string) (err : error) : bool :=
  match err_code err with
  | Some c => String.eqb c code
  | None => false
  end.

Definition inspect {A} (a : A) : {b | a = b} := exist _ a eq_refl.

(** [getShardIterator(client, logger, streamName, shardId,
    initialPositionInStream, sequenceNumber)]. *)
Equations? getShardIterator (streamName shardId initialPositionInStream : string)
    (sequenceNumber : option string) (env : Env) (c : Consumer)
    : (error + string) * Consumer
    by wf (if truthy_str sequenceNumber then 1 else 0)%nat lt :=
getShardIterator streamName shardId initialPositionInStream sequenceNumber env c
  with inspect (truthy_str sequenceNumber) := {
  | exist _ true Hsequence =>
      let params :=
        {| ShardId := shardId; ShardIteratorType := "AFTER_SEQUENCE_NUMBER";
           StreamName := streamName; StartingSequenceNumber := sequenceNumber |} in
      match ask (λ env tr, client_getShardIterator env tr params)
                (EvGetShardIterator params) env c with
      | (inr ShardIterator, c') => (inr (default "" ShardIterator), c')
      | (inl err, c') =>
          if is_code "InvalidArgumentException" err
          then getShardIterator streamName shardId initialPositionInStream None env c'
          else (inl err, c')
      end
  | exist _ false Hsequence =>
      let params :=
        {| ShardId := shardId; ShardIteratorType := initialPositionInStream;
           StreamName := streamName; StartingSequenceNumber := None |} in
      match ask (λ env tr, client_getShardIterator env tr params)
                (EvGetShardIterator params) env c with
      | (inr ShardIterator, c') => (inr (default "" ShardIterator), c')
      | (inl err, c') => (inl err, c')
      end }.
Proof. rewrite Hsequence. simpl. lia. Qed.

(** The checkpoint writer that [start()] installs. *)
Definition setCheckpoint (sequenceNumber : string) : P unit :=
  do! id := read shardId in
  do! _ := ask (λ env tr, stateStore_storeShardCheckpoint env tr id sequenceNumber)
               (EvStoreShardCheckpoint id sequenceNumber) in
  write (with_checkpoint (Some sequenceNumber)).

(** [await Promise.all(collection.map(recordsDecoder))]. *)
Fixpoint decode_all (decoder : RawRecord → error + DecodedRecord) (l : list RawRecord)
    : error + list DecodedRecord :=
  match l with
  | [] => inr []
  | r :: rest =>
      match decoder r, decode_all decoder rest with
      | inr d, inr ds => inr (d :: ds)
      | inl e, _ => inl e
      | _, inl e => inl e
      end
  end.

(** The [try] block of [pollForRecords] is written stage by stage; [snapshot]
    is the private data as destructured on entry (lines 87-108). *)

(** Line 111: [Date.now() > leaseExpiration]. *)
Definition lease_expired (snapshot : PrivateProps) (t : Z) : bool :=
  match leaseExpiration snapshot with
  | Some l => Z.ltb l t
  | None => false
  end.

(** Lines 117-120: the sequence number stashed by the previous poll is stored. *)
Definition store_pending (snapshot : PrivateProps) : P unit :=
  if truthy_str (seqNumToCheckpoint snapshot) then
    do! _ := setCheckpoint (default "" (seqNumToCheckpoint snapshot)) in
    write (with_seqNumToCheckpoint None)
  else pret tt.

(** Lines 122-149: making sure there is an iterator. *)
Definition acquire_iterator (snapshot : PrivateProps) : P (option string) :=
  do! it0 := read iterator in
  do! it1 :=
    (if negb (truthy_str it0) && truthy_str (checkpoint snapshot) then
       do! it := getShardIterator (streamName snapshot) (shardId snapshot)
                   (initialPositionInStream snapshot) (checkpoint snapshot) in
       pret (Some it)
     else pret it0) in
  if negb (truthy_str it1) then
    do! it := getShardIterator (streamName snapshot) (shardId snapshot)
                (initialPositionInStream snapshot) None in
    pret (Some it)
  else pret it1.

(** Line 166: [msBehind <= 0 ? noRecordsPollDelay : 0]. *)
Definition noRecords_delay (snapshot : PrivateProps) (data : GetRecordsOutput) : Z :=
  if match MillisBehindLatest data with Some ms => Z.leb ms 0 | None => false end
  then noRecordsPollDelay snapshot else 0.

(** Lines 157-170: the answer has no records; the shard is taken for closed
    when [NextShardIterator === undefined]. *)
Definition after_no_records (snapshot : PrivateProps) (data : GetRecordsOutput) : P unit :=
  match NextShardIterator data with
  | Undefined =>
      do! listing := ask (λ env tr, client_listShards env tr (streamName snapshot))
                         (EvListShards (streamName snapshot)) in
      let shards := getStreamShards listing in
      do! _ := ask (λ env tr, stateStore_markShardAsDepleted env tr shards
                                (shardId snapshot))
                   (EvMarkShardAsDepleted shards (shardId snapshot)) in
      notify (EvStopConsumer (shardId snapshot))
  | Null | Str _ =>
      do! _ := notify (EvSetTimeout (noRecords_delay snapshot data)) in
      write (with_timeoutId (Some (noRecords_delay snapshot data)))
  end.

(** Lines 172-173: the records after the two codecs. *)
Definition decoded_records (env : Env) (shouldDeaggregate : bool) (Records : list RawRecord)
    : error + list DecodedRecord :=
  match (if shouldDeaggregate then deaggregate env Records else inr Records) with
  | inr deaggCollection => decode_all (recordsDecoder env) deaggCollection
  | inl e => inl e
  end.

Definition decoded (snapshot : PrivateProps) (data : GetRecordsOutput)
    : P (list DecodedRecord) :=
  λ env, of_result (decoded_records env (shouldDeaggregate snapshot) (Records data)) env.

(** Lines 186-193: [propsToPush]. *)
Definition propsToPush (snapshot : PrivateProps) (data : GetRecordsOutput)
    (records : list DecodedRecord) : Payload :=
  {| payload_millisBehindLatest := MillisBehindLatest data;
     payload_records := records;
     payload_shardId := shardId snapshot;
     payload_streamName := streamName snapshot;
     payload_setCheckpoint := negb (useAutoCheckpoints snapshot);
     payload_continuePolling := usePausedPolling snapshot |}.

(** Lines 177-184: the automatic checkpoint, stored at once or stashed. *)
Definition auto_checkpoint (snapshot : PrivateProps) (data : GetRecordsOutput)
    (records : list DecodedRecord) : P unit :=
  if useAutoCheckpoints snapshot then
    match records !! (length (Records data) - 1)%nat with
    | Some record =>
        if negb (usePausedPolling snapshot)
        then setCheckpoint (sequenceNumber record)
        else write (with_seqNumToCheckpoint (Some (sequenceNumber record)))
    | None => pthrow (TypeError "Cannot destructure property 'sequenceNumber'")
    end
  else pret tt.

(** Lines 195-199: pushing the records and scheduling the next poll. *)
Definition push_and_schedule (snapshot : PrivateProps) (data : GetRecordsOutput)
    (records : list DecodedRecord) : P unit :=
  do! _ := notify (EvPushToStream None (Some (propsToPush snapshot data records))) in
  if negb (usePausedPolling snapshot) then
    do! _ := notify (EvSetTimeout (pollDelay snapshot)) in
    write (with_timeoutId (Some (pollDelay snapshot)))
  else pret tt.

(** Lines 172-199: the answer has records. *)
Definition after_records (snapshot : PrivateProps) (data : GetRecordsOutput) : P unit :=
  do! records := decoded snapshot data in
  do! _ := auto_checkpoint snapshot data records in
  push_and_schedule snapshot data records.

(** Lines 110-199. *)
Definition pollForRecords_try (snapshot : PrivateProps) : P unit :=
  do! t := now in
  if lease_expired snapshot t then notify (EvStopConsumer (shardId snapshot))
  else
    do! _ := store_pending snapshot in
    do! iterator := acquire_iterator snapshot in
    do! data := ask (λ env tr, client_getRecords env tr (limit snapshot) (default "" iterator))
                    (EvGetRecords (limit snapshot) (default "" iterator)) in
    do! _ := write (with_iterator (NextShardIterator data)) in
    if Nat.eqb (length (Records data)) 0
    then after_no_records snapshot data
    else after_records snapshot data.

(** [pollForRecords(instance)], with the [catch] block (lines 200-209).  An
    expired iterator makes the function call itself again; [fuel] bounds how
    often, and [None] is a run that needed more. *)
Fixpoint pollForRecords (fuel : nat) (env : Env) (c : Consumer) : option Consumer :=
  match pollForRecords_try (props c) env c with
  | (inr _, c') => Some c'
  | (inl err, c') =>
      if is_code "ExpiredIteratorException" err then
        match fuel with
        | S fuel' => pollForRecords fuel' env (update (with_iterator None) c')
        | O => None
        end
      else Some (emit (EvPushToStream (Some err) None) c')
  end.

(** The constructor: the options are given as the private data they become;
    no iterator, no pending sequence number and no timer yet. *)
Definition new_PollingConsumer (options : PrivateProps) : Consumer :=
  {| props := with_timeoutId None (with_seqNumToCheckpoint None (with_iterator None options));
     trace := [] |}.

(** [stop()] and [updateLeaseExpiration(leaseExpiration)]. *)
Definition stop (c : Consumer) : Consumer := update (with_timeoutId None) c.

Definition updateLeaseExpiration (leaseExpiration : option Z) (c : Consumer) : Consumer :=
  update (with_leaseExpiration leaseExpiration) c.

End PollingConsumer.

(** ** Stream management (lib/stream.js over lib/kinesis-client.js) *)

Module StreamManagement.

Import PollingConsumer (is_code, truthy_str).

(** *** What the service answers *)

(** The description of a stream, as [describeStreamSummary], [describeStream]
    and the waiters answer it; the ARN and the creation date are always there. *)
Record StreamDescription : Type := {
  StreamARN : string;
  StreamCreationTimestamp : Z;
  StreamStatus : option string;
  EncryptionType : option string
}.

Record Tag : Type := {
  Key : string;
  Value : string
}.

Record EnhancedConsumer : Type := {
  ConsumerName : string;
  ConsumerARN : string;
  ConsumerStatus : string
}.

(** *** What the functions of the module answer *)

Record StreamExistsOutput : Type := {
  streamArn : option string;          (* [None] is [null] *)
  streamCreatedOn : option string     (* [None] is [undefined] *)
}.

Record ConsumerInfo : Type := {
  arn : string;
  status : string
}.

(** The calls to the service, each with its answer, and the pauses. *)
Inductive Event : Type :=
| EvDescribeStreamSummary (StreamName : string) (answer : error + StreamDescription)
| EvDescribeStream (StreamName : string) (answer : error + StreamDescription)
| EvWaitFor (state StreamName : string) (answer : error + StreamDescription)
| EvCreateStream (StreamName : string) (ShardCount : Z) (answer : error + unit)
| EvListTagsForStream (StreamName : string) (answer : error + option (list Tag))
| EvAddTagsToStream (StreamName : string) (Tags : gmap string string) (answer : error + unit)
| EvStartStreamEncryption (EncryptionType KeyId StreamName : string) (answer : error + unit)
| EvListStreamConsumers (StreamARN : string)
    (answer : error + option (list EnhancedConsumer))
| EvRegisterStreamConsumer (ConsumerName StreamARN : string)
    (answer : error + EnhancedConsumer)
| EvWait (ms : Z).

(** The service answers as it pleases, knowing what happened so far;
    [toISOString] is the method of [Date].  (Logger calls and the statistics
    are left out.) *)
Record Env : Type := {
  sdk_describeStreamSummary : list Event → string → error + StreamDescription;
  sdk_describeStream : list Event → string → error + StreamDescription;
  sdk_waitFor : list Event → string → string → error + StreamDescription;
  sdk_createStream : list Event → string → Z → error + unit;
  sdk_listTagsForStream : list Event → string → error + option (list Tag);
  sdk_addTagsToStream : list Event → string → gmap string string → error + unit;
  sdk_startStreamEncryption : list Event → string → string → string → error + unit;
  sdk_listStreamConsumers : list Event → string → error + option (list EnhancedConsumer);
  sdk_registerStreamConsumer : list Event → string → string → error + EnhancedConsumer;
  toISOString : Z → string
}.

(** *** Asynchronous code over the service *)

Definition K (A : Type) : Type := Env → list Event → (error + A) * list Event.

Definition kret {A} (a : A) : K A := λ _ tr, (inr a, tr).
Definition kthrow {A} (e : error) : K A := λ _ tr, (inl e, tr).
Definition kbind {A B} (m : K A) (k : A → K B) : K B :=
  λ env tr, match m env tr with
            | (inr a, tr') => k a env tr'
            | (inl e, tr') => (inl e, tr')
            end.

Notation "'await!' x ':=' m 'in' k" := (kbind m (λ x, k))
  (at level 10, x binder, m at level 100, k at level 200, only parsing).

(** [promise.catch(handler)], and a [try] block with its [catch]. *)
Definition kcatch {A} (m : K A) (handler : error → K A) : K A :=
  λ env tr, match m env tr with
            | (inl e, tr') => handler e env tr'
            | (inr a, tr') => (inr a, tr')
            end.

(** One call to the service. *)
Definition sdk {A} (answer : Env → list Event → error + A) (event : (error + A) → Event)
    : K A :=
  λ env tr, let r := answer env tr in (r, tr ++ [event r]).

(** *** The methods of [KinesisClient] that the module uses *)

(** [createStream]: a stream that is already there is no error. *)
Definition client_createStream (StreamName : string) (ShardCount : Z) : K unit :=
  kcatch (sdk (λ env tr, sdk_createStream env tr StreamName ShardCount)
              (EvCreateStream StreamName ShardCount))
    (λ err, if negb (is_code "ResourceInUseException" err) then kthrow err else kret tt).

(** [describeStreamSummary], with [describeStream] for a service that does
    not know the operation. *)
Definition client_describeStreamSummary (StreamName : string) : K StreamDescription :=
  kcatch (sdk (λ env tr, sdk_describeStreamSummary env tr StreamName)
              (EvDescribeStreamSummary StreamName))
    (λ err,
       if negb (is_code "UnknownOperationException" err) then kthrow err
       else sdk (λ env tr, sdk_describeStream env tr StreamName) (EvDescribeStream StreamName)).

Definition client_startStreamEncryption (EncryptionType KeyId StreamName : string) : K unit :=
  kcatch (sdk (λ env tr, sdk_startStreamEncryption env tr EncryptionType KeyId StreamName)
              (EvStartStreamEncryption EncryptionType KeyId StreamName))
    (λ err,
       if negb (is_code "UnknownOperationException" err) &&
          negb (is_code "ResourceInUseException" err)
       then kthrow err else kret tt).

Definition client_waitFor (state StreamName : string) : K StreamDescription :=
  sdk (λ env tr, sdk_waitFor env tr state StreamName) (EvWaitFor state StreamName).

Definition client_listTagsForStream (StreamName : string) : K (option (list Tag)) :=
  sdk (λ env tr, sdk_listTagsForStream env tr StreamName) (EvListTagsForStream StreamName).

Definition client_addTagsToStream (StreamName : string) (Tags : gmap string string) : K unit :=
  sdk (λ env tr, sdk_addTagsToStream env tr StreamName Tags) (EvAddTagsToStream StreamName Tags).

Definition client_listStreamConsumers (StreamARN : string)
    : K (option (list EnhancedConsumer)) :=
  sdk (λ env tr, sdk_listStreamConsumers env tr StreamARN) (EvListStreamConsumers StreamARN).

Definition client_registerStreamConsumer (ConsumerName StreamARN : string)
    : K EnhancedConsumer :=
  sdk (λ env tr, sdk_registerStreamConsumer env tr ConsumerName StreamARN)
      (EvRegisterStreamConsumer ConsumerName StreamARN).

(** *** lib/stream.js *)

Definition CONSUMER_STATE_CHECK_DELAY : Z := 3000.

(** [wait(ms)]. *)
Definition wait (ms : Z) : K unit := λ _ tr, (inr tt, tr ++ [EvWait ms]).

(** [value === 'literal'] for a string that may be absent. *)
Definition is_literal (literal : string) (v : option string) : bool :=
  match v with
  | Some x => String.eqb x literal
  | None => false
  end.

Definition not_found : StreamExistsOutput := {| streamArn := None; streamCreatedOn := None |}.

Definition checkIfStreamExists (streamName : string) : K StreamExistsOutput :=
  kcatch
    (await! StreamDescriptionSummary := client_describeStreamSummary streamName in
     let StreamStatus := StreamStatus StreamDescriptionSummary in
     if is_literal "DELETING" StreamStatus then
       await! _ := client_waitFor "streamNotExists" streamName in
       kret not_found
     else
       await! _ :=
         (if truthy_str StreamStatus && negb (is_literal "ACTIVE" StreamStatus)
          then await! _ := client_waitFor "streamExists" streamName in kret tt
          else kret tt) in
       λ env,
         kret {| streamArn := Some (StreamARN StreamDescriptionSummary);
                 streamCreatedOn :=
                   Some (toISOString env
                           (StreamCreationTimestamp StreamDescriptionSummary)) |} env)
    (λ err, if is_code "ResourceNotFoundException" err then kret not_found else kthrow err).

Definition confirmStreamTags (streamName : string) (tags : gmap string string) : K unit :=
  await! Tags := client_listTagsForStream streamName in
  match Tags with
  | None => kthrow (TypeError "Cannot read properties of undefined (reading 'map')")
  | Some Tags =>
      let existingTags := Object_fromEntries (map (λ t, (Key t, Value t)) Tags) in
      let mergedTags := tags ∪ existingTags in
      if negb (bool_decide (existingTags = mergedTags))
      then client_addTagsToStream streamName mergedTags
      else kret tt
  end.

Definition ensureStreamEncription (keyId type streamName : string) : K unit :=
  await! StreamDescriptionSummary := client_describeStreamSummary streamName in
  if is_literal "NONE" (EncryptionType StreamDescriptionSummary) then
    await! _ := client_startStreamEncryption type keyId streamName in
    await! _ := client_waitFor "streamExists" streamName in
    kret tt
  else kret tt.

Definition ensureStreamExists (createStreamIfNeeded : bool) (shardCount : Z)
    (streamName : string) : K StreamExistsOutput :=
  await! existing := checkIfStreamExists streamName in
  if createStreamIfNeeded &&
     match streamArn existing with None => true | Some _ => false end
  then
    await! _ := client_createStream streamName shardCount in
    await! StreamDescription := client_waitFor "streamExists" streamName in
    λ env,
      kret {| streamArn := Some (StreamARN StreamDescription);
              streamCreatedOn :=
                Some (toISOString env (StreamCreationTimestamp StreamDescription)) |} env
  else kret existing.

(** The object that [getEnhancedConsumers] builds from a listing. *)
Definition consumers_of (Consumers : option (list EnhancedConsumer))
    : gmap string ConsumerInfo :=
  Object_fromEntries
    (map (λ consumer, (ConsumerName consumer,
                       {| arn := ConsumerARN consumer; status := ConsumerStatus consumer |}))
         (default [] Consumers)).

Definition shouldWaitForConsumer (consumers : gmap string ConsumerInfo) : bool :=
  existsb (λ consumerName,
             match consumers !! consumerName with
             | Some info => negb (String.eqb (status info) "ACTIVE")
             | None => true   (* never: [consumerName] is a key *)
             end)
          (map fst (map_to_list consumers)).

(** [getEnhancedConsumers] calls itself until every consumer is active;
    [fuel] bounds how often, and [None] is a run that needed more. *)
Fixpoint getEnhancedConsumers (fuel : nat) (streamArn : string) (env : Env)
    (tr : list Event) : option ((error + gmap string ConsumerInfo) * list Event) :=
  match client_listStreamConsumers streamArn env tr with
  | (inl err, tr') => Some (inl err, tr')
  | (inr Consumers, tr') =>
      let consumers := consumers_of Consumers in
      if shouldWaitForConsumer consumers then
        match fuel with
        | S fuel' =>
            getEnhancedConsumers fuel' streamArn env (wait CONSUMER_STATE_CHECK_DELAY env tr').2
        | O => None
        end
      else Some (inr consumers, tr')
  end.

(** The [do ... while] of [registerEnhancedConsumer]; [fuel] bounds the
    number of further rounds. *)
Fixpoint registerEnhancedConsumer_loop (fuel : nat) (consumerName streamArn : string)
    (env : Env) (tr : list Event) : option ((error + unit) * list Event) :=
  match (await! _ := wait CONSUMER_STATE_CHECK_DELAY in
         client_listStreamConsumers streamArn) env tr with
  | (inl err, tr') => Some (inl err, tr')
  | (inr Consumers, tr') =>
      let consumer :=
        find (λ i, String.eqb (ConsumerName i) consumerName) (default [] Consumers) in
      let ConsumerStatus :=
        match consumer with
        | Some consumer => ConsumerStatus consumer
        | None => ""
        end in
      if negb (String.eqb ConsumerStatus "ACTIVE") then
        match fuel with
        | S fuel' => registerEnhancedConsumer_loop fuel' consumerName streamArn env tr'
        | O => None
        end
      else Some (inr tt, tr')
  end.

Definition registerEnhancedConsumer (fuel : nat) (consumerName streamArn : string)
    (env : Env) (tr : list Event) : option ((error + unit) * list Event) :=
  match client_registerStreamConsumer consumerName streamArn env tr with
  | (inl err, tr') => Some (inl err, tr')
  | (inr _, tr') => registerEnhancedConsumer_loop fuel consumerName streamArn env tr'
  end.

End StreamManagement.

(** ** Writing records (lib/kinesis-client.js) *)

Module KinesisClient.
Import PollingConsumer (truthy_str).

(** An entry of the [Records] of a request; [None] is [undefined], which the
    code can put there itself. *)
Record PutRecordsRequestEntry : Type := {
  Data : string;
  PartitionKey : string
}.

Definition RequestEntry : Type := option PutRecordsRequestEntry.

(** An entry of the [Records] of an answer. *)
Record PutRecordsResultEntry : Type := {
  ErrorCode : option string;
  SequenceNumber : option string;
  ShardId : option string
}.

Record PutRecordsOutput : Type := {
  EncryptionType : option string;
  FailedRecordCount : option Z;
  Records : list PutRecordsResultEntry
}.

(** What [putRecords] resolves with. *)
Record PutRecordsResult : Type := {
  result_EncryptionType : option string;
  result_Records : list PutRecordsResultEntry
}.

Inductive Event : Type :=
| EvPutRecords (Records : list RequestEntry) (answer : error + PutRecordsOutput).

Record Env : Type := {
  sdk_putRecords : list Event → list RequestEntry → error + PutRecordsOutput
}.

Definition RETRIABLE_PUT_ERRORS : list string :=
  ["EADDRINUSE"; "ECONNREFUSED"; "ECONNRESET"; "EPIPE"; "ESOCKETTIMEDOUT"; "ETIMEDOUT";
   "NetworkingError"; "ProvisionedThroughputExceededException"; "TimeoutError"].

(** [RETRIABLE_PUT_ERRORS.has(err.code)]. *)
Definition is_retriable (err : error) : bool :=
  match err_code err with
  | Some code => existsb (String.eqb code) RETRIABLE_PUT_ERRORS
  | None => false
  end.

(** The [for] loop over the entries of an answer, from index [i] on: the
    request entry at the index of a failed entry is kept for the next
    attempt, the other entries are added to the results. *)
Fixpoint sort_entries (i : nat) (Records : list PutRecordsResultEntry)
    (records nextRecords : list RequestEntry) (results : list PutRecordsResultEntry)
    : list RequestEntry * list PutRecordsResultEntry :=
  match Records with
  | [] => (nextRecords, results)
  | entry :: rest =>
      if truthy_str (ErrorCode entry)
      then sort_entries (S i) rest records
             (nextRecords ++ [default None (records !! i)]) results
      else sort_entries (S i) rest records nextRecords (results ++ [entry])
  end.

(** The function that [putRecords] hands to [retry], run until it resolves or
    bails out; [records] and [results] are the two variables it shares with
    its earlier runs.  The options say [forever]: only [fuel] bounds the
    attempts here, and [None] is a call that needed more. *)
Fixpoint putRecords_attempt (fuel : nat) (records : list RequestEntry)
    (results : list PutRecordsResultEntry) (env : Env) (tr : list Event)
    : option ((error + PutRecordsResult) * list Event) :=
  let answer := sdk_putRecords env tr records in
  let tr' := tr ++ [EvPutRecords records answer] in
  match answer with
  | inr payload =>
      let failedCount := default 0 (FailedRecordCount payload) in
      let sorted := sort_entries 0 (Records payload) records [] results in
      if Z.eqb failedCount 0 then
        Some (inr {| result_EncryptionType := EncryptionType payload;
                     result_Records := sorted.2 |}, tr')
      else
        (* the error thrown here carries a code of [RETRIABLE_PUT_ERRORS] *)
        match fuel with
        | S fuel' => putRecords_attempt fuel' sorted.1 sorted.2 env tr'
        | O => None
        end
  | inl err =>
      if is_retriable err then
        match fuel with
        | S fuel' => putRecords_attempt fuel' records results env tr'
        | O => None
        end
      else Some (inl err, tr')
  end.

Definition putRecords (fuel : nat) (Records : list RequestEntry) (env : Env)
    (tr : list Event) : option ((error + PutRecordsResult) * list Event) :=
  putRecords_attempt fuel Records [] env tr.

(** An answer as the service gives it for a request: one entry for each
    record, and a count of failures that is zero only when no entry failed. *)
Definition answers_request (records : list RequestEntry) (payload : PutRecordsOutput) : Prop :=
  length (Records payload) = length records ∧
  (default 0 (FailedRecordCount payload) = 0 →
   Forall (λ entry, truthy_str (ErrorCode entry) = false) (Records payload)).

End KinesisClient.

(** *** Sample collaborators of a polling consumer *)

Module PollingConsumerSamples.
Import PollingConsumer.

Definition raw (sequenceNumber : string) : RawRecord :=
  {| SequenceNumber := sequenceNumber; Data := "payload" |}.

(** A service whose shard holds the records 10, 20 and 30 and is then closed;
    the iterator names where reading goes on. *)
Definition sample_getRecords (ShardIterator : string) : error + GetRecordsOutput :=
  if String.eqb ShardIterator "it-0" then
    inr {| MillisBehindLatest := Some 500; NextShardIterator := Str "it-1";
           Records := [raw "10"; raw "20"] |}
  else if String.eqb ShardIterator "it-1" then
    inr {| MillisBehindLatest := Some 0; NextShardIterator := Str "it-2";
           Records := [raw "30"] |}
  else if String.eqb ShardIterator "it-2" then
    inr {| MillisBehindLatest := Some 0; NextShardIterator := Str "it-3"; Records := [] |}
  else if String.eqb ShardIterator "it-3" then
    inr {| MillisBehindLatest := Some 0; NextShardIterator := Undefined; Records := [] |}
  else inl (AwsError "ExpiredIteratorException").

Definition sample_getShardIterator (params : ShardIteratorParams) : error + option string :=
  match StartingSequenceNumber params with
  | None => inr (Some "it-0")
  | Some s =>
      if String.eqb s "20" then inr (Some "it-1")
      else if String.eqb s "30" then inr (Some "it-2")
      else inl (AwsError "InvalidArgumentException")
  end.

Definition plain_decoder (r : RawRecord) : error + DecodedRecord :=
  inr {| sequenceNumber := SequenceNumber r; data := Data r |}.

Definition sample_env : Env :=
  {| Date_now := λ _, 1000;
     client_getShardIterator := λ _, sample_getShardIterator;
     client_getRecords := λ _ _, sample_getRecords;
     client_listShards := λ _ _, inr (Some sample_shards);
     stateStore_markShardAsDepleted := λ _ _ _, inr tt;
     stateStore_storeShardCheckpoint := λ _ _ _, inr tt;
     deaggregate := λ l, inr l;
     recordsDecoder := plain_decoder |}.

(** A new consumer of the first shard that stores its checkpoints itself,
    after every batch. *)
Definition sample_options : PrivateProps :=
  {| checkpoint := None; initialPositionInStream := "TRIM_HORIZON"; iterator := None;
     leaseExpiration := Some 300000; limit := 10000; noRecordsPollDelay := 1000;
     pollDelay := 250; seqNumToCheckpoint := None; shardId := "shardId-000";
     shouldDeaggregate := false; streamName := "sample-stream"; timeoutId := None;
     useAutoCheckpoints := true; usePausedPolling := false |}.

(** The same with checkpoints left to the downstream. *)
Definition manual_options : PrivateProps :=
  {| checkpoint := None; initialPositionInStream := "TRIM_HORIZON"; iterator := None;
     leaseExpiration := Some 300000; limit := 10000; noRecordsPollDelay := 1000;
     pollDelay := 250; seqNumToCheckpoint := None; shardId := "shardId-000";
     shouldDeaggregate := false; streamName := "sample-stream"; timeoutId := None;
     useAutoCheckpoints := false; usePausedPolling := false |}.

(** Paused polling with automatic checkpoints, of a stream of aggregated
    records. *)
Definition aggregated_options : PrivateProps :=
  {| checkpoint := None; initialPositionInStream := "TRIM_HORIZON"; iterator := None;
     leaseExpiration := Some 300000; limit := 10000; noRecordsPollDelay := 1000;
     pollDelay := 250; seqNumToCheckpoint := None; shardId := "shardId-000";
     shouldDeaggregate := true; streamName := "sample-stream"; timeoutId := None;
     useAutoCheckpoints := true; usePausedPolling := true |}.

(** Every record of the stream aggregates two user records, which carry its
    sequence number. *)
Definition user_records (r : RawRecord) : list RawRecord :=
  [ {| SequenceNumber := SequenceNumber r; Data := "first of " +:+ Data r |};
    {| SequenceNumber := SequenceNumber r; Data := "second of " +:+ Data r |} ].

Definition aggregating_env : Env :=
  {| Date_now := λ _, 1000;
     client_getShardIterator := λ _, sample_getShardIterator;
     client_getRecords := λ _ _, sample_getRecords;
     client_listShards := λ _ _, inr (Some sample_shards);
     stateStore_markShardAsDepleted := λ _ _ _, inr tt;
     stateStore_storeShardCheckpoint := λ _ _ _, inr tt;
     deaggregate := λ l, inr (l ≫= user_records);
     recordsDecoder := plain_decoder |}.

(** A consumer that has read the shard to its end. *)
Definition finishing_consumer : Consumer :=
  {| props := with_iterator (Some "it-3") sample_options; trace := [] |}.

(** A consumer that has caught up with an open shard. *)
Definition idle_consumer : Consumer :=
  {| props := with_iterator (Some "it-2") sample_options; trace := [] |}.

End PollingConsumerSamples.

(** *** More sample worlds *)

(** The shard of [one_shard_document] once consumer A holds its lease. *)
Definition leased_record : value :=
  VMap (<["version" := VStr "v2"]> (<["leaseOwner" := VStr "A"]>
       (<["leaseExpiration" := VTime 300000]> (<["depleted" := VBool false]>
       (<["checkpoint" := VStr "100"]> {["parent" := VNull]}))))).

Definition leased_document : value :=
  VMap (<["version" := VStr "v0"]> (<["shards" := VMap {["shardId-000" := leased_record]}]>
       (<["consumers" := VMap {["A" := VMap {["heartbeat" := VTime 1000]}]}]> ∅))).

Module PollingConsumerMoreSamples.
Import PollingConsumer PollingConsumerSamples.

(** The records of the stream are not what the decoder expects. *)
Definition undecodable_env : Env :=
  {| Date_now := λ _, 1000;
     client_getShardIterator := λ _, sample_getShardIterator;
     client_getRecords := λ _ _, sample_getRecords;
     client_listShards := λ _ _, inr (Some sample_shards);
     stateStore_markShardAsDepleted := λ _ _ _, inr tt;
     stateStore_storeShardCheckpoint := λ _ _ _, inr tt;
     deaggregate := λ l, inr l;
     recordsDecoder := λ _, inl (TypeError "Unexpected token in JSON") |}.


(** A state store that cannot mark a shard as depleted, as the one of a
    standalone consumer. *)
Definition unmarking_env : Env :=
  {| Date_now := λ _, 1000;
     client_getShardIterator := λ _, sample_getShardIterator;
     client_getRecords := λ _ _, sample_getRecords;
     client_listShards := λ _ _, inr (Some sample_shards);
     stateStore_markShardAsDepleted :=
       λ _ _ _, inl (TypeError "Cannot read properties of undefined");
     stateStore_storeShardCheckpoint := λ _ _ _, inr tt;
     deaggregate := λ l, inr l;
     recordsDecoder := plain_decoder |}.

(** A service that refuses to list the shards. *)
Definition unlisting_env : Env :=
  {| Date_now := λ _, 1000;
     client_getShardIterator := λ _, sample_getShardIterator;
     client_getRecords := λ _ _, sample_getRecords;
     client_listShards := λ _ _, inl (AwsError "LimitExceededException");
     stateStore_markShardAsDepleted := λ _ _ _, inr tt;
     stateStore_storeShardCheckpoint := λ _ _ _, inr tt;
     deaggregate := λ l, inr l;
     recordsDecoder := plain_decoder |}.

(** A service that answers the end of the shard with a [null] iterator. *)
Definition null_iterator_env : Env :=
  {| Date_now := λ _, 1000;
     client_getShardIterator := λ _, sample_getShardIterator;
     client_getRecords := λ _ _ _,
       inr {| MillisBehindLatest := Some 0; NextShardIterator := Null; Records := [] |};
     client_listShards := λ _ _, inr (Some sample_shards);
     stateStore_markShardAsDepleted := λ _ _ _, inr tt;
     stateStore_storeShardCheckpoint := λ _ _ _, inr tt;
     deaggregate := λ l, inr l;
     recordsDecoder := plain_decoder |}.

(** A service that gives the record 20 before the record 10. *)
Definition unordered_env : Env :=
  {| Date_now := λ _, 1000;
     client_getShardIterator := λ _ _, inr (Some "it-0");
     client_getRecords := λ _ _ ShardIterator,
       if String.eqb ShardIterator "it-0" then
         inr {| MillisBehindLatest := Some 500; NextShardIterator := Str "it-1";
                Records := [raw "20"] |}
       else
         inr {| MillisBehindLatest := Some 0; NextShardIterator := Str "it-2";
                Records := [raw "10"] |};
     client_listShards := λ _ _, inr (Some sample_shards);
     stateStore_markShardAsDepleted := λ _ _ _, inr tt;
     stateStore_storeShardCheckpoint := λ _ _ _, inr tt;
     deaggregate := λ l, inr l;
     recordsDecoder := plain_decoder |}.

(** The first request for an iterator of a new consumer, and its answer. *)
Definition first_iterator : Event :=
  EvGetShardIterator
    {| ShardId := "shardId-000"; ShardIteratorType := "TRIM_HORIZON";
       StreamName := "sample-stream"; StartingSequenceNumber := None |}
    (inr (Some "it-0")).

(** The first batch of the sample stream. *)
Definition first_batch : GetRecordsOutput :=
  {| MillisBehindLatest := Some 500; NextShardIterator := Str "it-1";
     Records := [raw "10"; raw "20"] |}.

End PollingConsumerMoreSamples.

Module StreamManagementSamples.
Import StreamManagement.

Definition sample_description : StreamDescription :=
  {| StreamARN := "arn:aws:kinesis:us-east-1:000000000000:stream/sample-stream";
     StreamCreationTimestamp := 0;
     StreamStatus := Some "ACTIVE";
     EncryptionType := Some "NONE" |}.

Definition sample_consumer (status : string) : EnhancedConsumer :=
  {| ConsumerName := "sample-consumer";
     ConsumerARN := "arn:aws:kinesis:us-east-1:000000000000:stream/sample-stream/consumer/sample-consumer:1";
     ConsumerStatus := status |}.

(** A service without the stream: it can be created, and the first listing of
    the enhanced consumers shows one that is still being created. *)
Definition sample_env : Env :=
  {| sdk_describeStreamSummary := λ _ _, inl (AwsError "ResourceNotFoundException");
     sdk_describeStream := λ _ _, inl (AwsError "ResourceNotFoundException");
     sdk_waitFor := λ _ _ _, inr sample_description;
     sdk_createStream := λ _ _ _, inr tt;
     sdk_listTagsForStream := λ _ _, inr (Some [ {| Key := "team"; Value := "data" |} ]);
     sdk_addTagsToStream := λ _ _ _, inr tt;
     sdk_startStreamEncryption := λ _ _ _ _, inr tt;
     sdk_listStreamConsumers := λ tr _,
       inr (Some [ sample_consumer match tr with [] => "CREATING" | _ => "ACTIVE" end ]);
     sdk_registerStreamConsumer := λ _ _ _, inr (sample_consumer "CREATING");
     toISOString := λ _, "1970-01-01T00:00:00.000Z" |}.

End StreamManagementSamples.

Module KinesisClientSamples.
Import KinesisClient.

Definition written : PutRecordsResultEntry :=
  {| ErrorCode := None; SequenceNumber := Some "1"; ShardId := Some "shardId-000" |}.

Definition throttled : PutRecordsResultEntry :=
  {| ErrorCode := Some "ProvisionedThroughputExceededException";
     SequenceNumber := None; ShardId := None |}.

(** A service that, asked for the first time, fails the first record of the
    request, and writes everything afterwards. *)
Definition sample_putRecords (tr : list Event) (records : list RequestEntry)
    : error + PutRecordsOutput :=
  match tr, records with
  | [], _ :: rest =>
      inr {| EncryptionType := Some "NONE"; FailedRecordCount := Some 1;
             Records := throttled :: map (λ _, written) rest |}
  | _, _ =>
      inr {| EncryptionType := Some "NONE"; FailedRecordCount := Some 0;
             Records := map (λ _, written) records |}
  end.

Definition sample_env : Env := {| sdk_putRecords := sample_putRecords |}.

Definition sample_records : list RequestEntry :=
  [ Some {| Data := "a"; PartitionKey := "k1" |};
    Some {| Data := "b"; PartitionKey := "k2" |};
    Some {| Data := "c"; PartitionKey := "k3" |} ].

End KinesisClientSamples.

(** ** Vocabulary of the statements *)

(** Two paths diverge when they name different attributes at some depth that
    both reach: neither lies inside the other. *)
Fixpoint diverges (p q : list string) : bool :=
  match p, q with
  | k :: p', k' :: q' => if String.eqb k k' then diverges p' q' else true
  | _, _ => false
  end.


(** Assigning several attributes of one map, one [SET] after the other. *)
Fixpoint set_fields (r : list string) (kvs : list (string * value)) (d : value) : option value :=
  match kvs with
  | [] => Some d
  | (k, x) :: rest => set_path (r ++ [k]) x d ≫= set_fields r rest
  end.

Definition insert_fields (kvs : list (string * value)) (m : gmap string value) : gmap string value :=
  foldl (λ acc kv, <[kv.1 := kv.2]> acc) m kvs.


(** The update that [lockShardLease] and [releaseShardLease] send. *)
Definition lease_params (self : StateStore) (shardId : string) (vw vx vy vz : value)
    : UpdateParams := {|
  UpdateExpression :=
    [ SET (shardsPath self ++ ["#b"; "#c"]) ":w";
      SET (shardsPath self ++ ["#b"; "#d"]) ":x";
      SET (shardsPath self ++ ["#b"; "#e"]) ":y" ];
  ConditionExpression := Some (path_equals (shardsPath self ++ ["#b"; "#e"]) ":z");
  ExpressionAttributeNames :=
    <["#e" := "version"]> (<["#d" := "leaseExpiration"]> (<["#c" := "leaseOwner"]>
      (<["#b" := shardId]> (shardsPathNames self))));
  ExpressionAttributeValues :=
    <[":z" := vz]> (<[":y" := vy]> (<[":x" := vx]> {[":w" := vw]}))
|}.


(** The consumer [id] of the document has a heartbeat older than the timeout. *)
Definition stale_consumer (doc : option value) (now timeout : Z) (id : string) : Prop :=
  ∃ d rec t, doc = Some d ∧ get_path ["consumers"; id] d = Some rec ∧
             getTime (get_path ["heartbeat"] rec) = Some t ∧ timeout < now - t.

(** The filter callback of [clearOldConsumers], as a step of the reduction. *)
Definition old_consumer_step (consumers : option value) (heartbeatFailureTimeout : Z)
    (acc : list string) (id : string) : M (list string) :=
  let* consumer := prop consumers id in
  let* heartbeat := prop consumer "heartbeat" in
  let* now := Date_now in
  ret (match getTime heartbeat with
       | Some t => if Z.ltb heartbeatFailureTimeout (now - t) then acc ++ [id] else acc
       | None => acc
       end).


(** A character that is not a decimal digit. *)
Definition is_letter (c : ascii) : Prop := ∀ d, pretty_N_char d ≠ c.


(** [n] more tokens have been generated. *)
Definition advance (n : nat) (w : World) : World :=
  {| item := item w; clock := clock w; uuid_of := uuid_of w; generated := n + generated w;
     fault_of := fault_of w; requests := requests w |}.

(** The values table that the reduction of [markShardAsDepleted] builds, for
    the children from index [n] on, when [g] tokens were handed out before. *)
Fixpoint child_values (u : nat → string) (n g : nat) (init : gmap string value)
    (l : list ChildShard) : gmap string value :=
  match l with
  | [] => init
  | c :: rest =>
      child_values u (S n) (S g)
        (<[value_ref (n * 2 + 1) := VStr (u g)]>
          (<[value_ref (n * 2) := VStr (child_startingSequenceNumber c)]> init)) rest
  end.


(** The edits that the last update of [markShardAsDepleted] makes to the
    children, with the placeholders resolved. *)
Fixpoint seed_children (root : list string) (u : nat → string) (g : nat)
    (l : list ChildShard) (d : value) : option value :=
  match l with
  | [] => Some d
  | c :: rest =>
      set_fields (root ++ [child_shardId c])
        [("checkpoint", VStr (child_startingSequenceNumber c)); ("version", VStr (u g))] d
      ≫= seed_children root u (S g) rest
  end.


(** [m] keeps [P]: whenever the stored item satisfies [P] before, it does
    after, whatever [m] returns or throws. *)
Definition keeps {A} (P : option value → Prop) (m : M A) : Prop :=
  ∀ w, P (item w) → P (item (m w).2).


(** The slot [shardId] of [owner] is marked as depleted in the stored item. *)
Definition depleted_in (owner : StateStore) (shardId : string) (it : option value) : Prop :=
  ∃ d, it = Some d ∧ get_path (slot owner shardId ++ ["depleted"]) d = Some (VBool true).

(** An action that cannot change the value [t] found at [q]. *)
Definition action_keeps (names : gmap string string) (vals : gmap string value)
    (q : list string) (t : value) (a : action) : Prop :=
  match a with
  | SET p v =>
      ∀ rp x, resolve_path names p = Some rp → vals !! v = Some x →
              diverges rp q = true ∨ (rp = q ∧ x = t)
  | REMOVE p => ∀ rp, resolve_path names p = Some rp → diverges rp q = true
  end.


(** A placeholder [#c...] whose first character is not a digit. *)
Definition lettered (k : string) : Prop :=
  ∃ c s, k = String "#"%char (String c s) ∧ is_letter c.


(** What the [forEach] makes of an entry, given which ids are keys. *)
Definition promoted (shards : gmap string ShardData) (shard : ShardData) : ShardData :=
  match parent shard with
  | Some p =>
      if negb (String.eqb p "") && negb (has_member shards p)
      then {| parent := None; startingSequenceNumber := startingSequenceNumber shard |}
      else shard
  | None => shard
  end.


(** A document whose top-level [shards] attribute is the map [tops]. *)
Definition with_shards (doc tops : gmap string value) : value :=
  VMap (<["shards" := VMap tops]> doc).

(** The record that [ensureShardStateExists] writes. *)
Definition new_shard_record (shardData : ShardData) (version : string) : value :=
  VMap (<["version" := VStr version]> (<["leaseOwner" := VNull]>
       (<["leaseExpiration" := VNull]> (<["depleted" := VBool false]>
       (<["checkpoint" := VNull]> {["parent" := of_parent (parent shardData)]}))))).

(** The shard records after the children were ensured to exist, one token
    being drawn for each of them. *)
Fixpoint ensure_children (shardsData : gmap string ShardData) (u : nat → string) (g : nat)
    (l : list ChildShard) (tops : gmap string value) : gmap string value :=
  match l with
  | [] => tops
  | c :: rest =>
      ensure_children shardsData u (S g) rest
        match tops !! child_shardId c, shardsData !! child_shardId c with
        | None, Some shardData =>
            <[child_shardId c := new_shard_record shardData (u g)]> tops
        | _, _ => tops
        end
  end.

(** Two attributes of the record [k] of a map of records. *)
Definition edit_record (k : string) (kvs : list (string * value)) (tops : gmap string value)
    : gmap string value :=
  match tops !! k with
  | Some (VMap r) => <[k := VMap (insert_fields kvs r)]> tops
  | _ => tops
  end.

(** The shard records after the children were given their checkpoints. *)
Fixpoint seed_records (u : nat → string) (g : nat) (l : list ChildShard)
    (tops : gmap string value) : gmap string value :=
  match l with
  | [] => tops
  | c :: rest =>
      seed_records u (S g) rest
        (edit_record (child_shardId c)
           [("checkpoint", VStr (child_startingSequenceNumber c)); ("version", VStr (u g))]
           tops)
  end.

(** Every entry of a map is a map. *)
Definition records (tops : gmap string value) : Prop :=
  ∀ k v, tops !! k = Some v → ∃ r, v = VMap r.

(** What [getOwnedShards] makes of a shard record for the consumer [cid]. *)
Definition owned_entry (cid : string) (shard : value) : option OwnedShard :=
  match shard with
  | VMap r =>
      if is_string cid (r !! "leaseOwner")
      then Some {| owned_checkpoint := r !! "checkpoint";
                   owned_leaseExpiration := r !! "leaseExpiration";
                   owned_version := r !! "version" |}
      else None
  | _ => None
  end.

(** The test of [clearOldConsumers] on one consumer record: its heartbeat is a
    date and is older than the timeout. *)
Definition is_stale (now timeout : Z) (consumer : value) : bool :=
  match getTime (get_path ["heartbeat"] consumer) with
  | Some t => Z.ltb timeout (now - t)
  | None => false
  end.

(** ** Vocabulary of the statements about the polling consumer *)

Module PollingConsumerVocabulary.
Import PollingConsumer.

(** What [getShardIterator] makes of an answer of the service. *)
Definition iterator_answer (r : error + option string) : error + string :=
  match r with
  | inr ShardIterator => inr (default "" ShardIterator)
  | inl err => inl err
  end.

(** The sequence numbers handed to [storeShardCheckpoint], in order. *)
Definition stored (tr : list Event) : list string :=
  tr ≫= λ e, match e with
             | EvStoreShardCheckpoint _ sequenceNumber _ => [sequenceNumber]
             | _ => []
             end.

(** The sequence numbers of the records that arrived, after the codecs, in
    order of arrival. *)
Definition received (env : Env) (shouldDeaggregate : bool) (tr : list Event) : list string :=
  tr ≫= λ e, match e with
             | EvGetRecords _ _ (inr data) =>
                 match decoded_records env shouldDeaggregate (Records data) with
                 | inr records => sequenceNumber <$> records
                 | inl _ => []
                 end
             | _ => []
             end.

(** Sequence numbers are decimal numerals and are ordered by their value. *)
Fixpoint sequence_value_from (acc : N) (s : string) : N :=
  match s with
  | EmptyString => acc
  | String a rest => sequence_value_from (acc * 10 + (N_of_ascii a - 48))%N rest
  end.

Definition sequence_value (s : string) : N := sequence_value_from 0%N s.

Definition seq_le (a b : string) : Prop := (sequence_value a <= sequence_value b)%N.

Fixpoint nondecreasing (l : list string) : bool :=
  match l with
  | a :: (b :: _) as rest => N.leb (sequence_value a) (sequence_value b) && nondecreasing rest
  | _ => true
  end.

(** What happens to an instance: a timer fires or the downstream continues
    ([Poll]), the owner stops it or renews its lease, the downstream stores a
    checkpoint with the function it was handed. *)
Inductive Call : Type :=
| Poll
| Stop
| UpdateLeaseExpiration (leaseExpiration : option Z)
| SetCheckpoint (sequenceNumber : string).

Definition is_manual (call : Call) : bool :=
  match call with
  | SetCheckpoint _ => true
  | _ => false
  end.

Definition run_call (fuel : nat) (env : Env) (call : Call) (c : Consumer) : option Consumer :=
  match call with
  | Poll => pollForRecords fuel env c
  | Stop => Some (stop c)
  | UpdateLeaseExpiration leaseExpiration => Some (updateLeaseExpiration leaseExpiration c)
  | SetCheckpoint sequenceNumber => Some (setCheckpoint sequenceNumber env c).2
  end.

Fixpoint run (fuel : nat) (env : Env) (calls : list Call) (c : Consumer) : option Consumer :=
  match calls with
  | [] => Some c
  | call :: rest =>
      match run_call fuel env call c with
      | Some c' => run fuel env rest c'
      | None => None
      end
  end.

(** The events that are neither a stored checkpoint nor an answer with
    records. *)
Definition other_event (e : Event) : bool :=
  match e with
  | EvStoreShardCheckpoint _ _ _ | EvGetRecords _ _ _ => false
  | _ => true
  end.

(** A computation that neither stores a checkpoint nor receives records, and
    leaves the pending sequence number and the configuration alone. *)
Definition quiet {A} (m : P A) : Prop :=
  ∀ env c,
    seqNumToCheckpoint (props (m env c).2) = seqNumToCheckpoint (props c) ∧
    shouldDeaggregate (props (m env c).2) = shouldDeaggregate (props c) ∧
    usePausedPolling (props (m env c).2) = usePausedPolling (props c) ∧
    ∃ evs, trace (m env c).2 = trace c ++ evs ∧ stored evs = [] ∧
           ∀ d, received env d evs = [].

(** The checkpoints stored so far are in order and were received, and so
    was the pending one, which none of them exceeds. *)
Definition checkpoints_follow (env : Env) (c : Consumer) : Prop :=
  let arrived := received env (shouldDeaggregate (props c)) (trace c) in
  StronglySorted seq_le (stored (trace c)) ∧
  stored (trace c) ⊆ arrived ∧
  (usePausedPolling (props c) = false → seqNumToCheckpoint (props c) = None) ∧
  (∀ s, seqNumToCheckpoint (props c) = Some s →
        s ∈ arrived ∧ Forall (λ x, seq_le x s) (stored (trace c))).

(** [c'] comes after [c], and its checkpoints follow the records when those of
    [c] did and the records arrived in order. *)
Definition extends (env : Env) (c c' : Consumer) : Prop :=
  shouldDeaggregate (props c') = shouldDeaggregate (props c) ∧
  usePausedPolling (props c') = usePausedPolling (props c) ∧
  (∃ evs, trace c' = trace c ++ evs) ∧
  (StronglySorted seq_le (received env (shouldDeaggregate (props c')) (trace c')) →
   checkpoints_follow env c → checkpoints_follow env c').

(** The event with which a poll hands over: a timer for the next poll, the
    stop of the consumer, an error given to the stream, or records given to a
    downstream that continues the polling itself. *)
Definition hands_over (e : Event) : bool :=
  match e with
  | EvSetTimeout _ | EvStopConsumer _ => true
  | EvPushToStream (Some _) None => true
  | EvPushToStream None (Some payload) => payload_continuePolling payload
  | _ => false
  end.

(** A computation whose last event, when it returns, hands over. *)
Definition handing_over {A} (m : P A) : Prop :=
  ∀ env c a c', m env c = (inr a, c') →
    ∃ evs e, trace c' = trace c ++ evs ++ [e] ∧ hands_over e = true.

(** A computation only adds to what the instance has done. *)
Definition growing {A} (m : P A) : Prop :=
  ∀ env c, ∃ evs, trace (m env c).2 = trace c ++ evs.

(** A computation that stores no checkpoint and leaves the lease, the pending
    sequence number and the checkpoint mode alone. *)
Definition discreet {A} (m : P A) : Prop :=
  ∀ env c,
    seqNumToCheckpoint (props (m env c).2) = seqNumToCheckpoint (props c) ∧
    leaseExpiration (props (m env c).2) = leaseExpiration (props c) ∧
    useAutoCheckpoints (props (m env c).2) = useAutoCheckpoints (props c) ∧
    ∃ evs, trace (m env c).2 = trace c ++ evs ∧ stored evs = [].

(** The sequence numbers that the downstream stores itself, in order. *)
Definition manual_checkpoints (calls : list Call) : list string :=
  calls ≫= λ call, match call with
                   | SetCheckpoint sequenceNumber => [sequenceNumber]
                   | _ => []
                   end.

End PollingConsumerVocabulary.
(** ** Facts about paths *)

Lemma string_eqb_true (a b : string) : String.eqb a b = true ↔ a = b.
Proof. apply String.eqb_eq. Qed.

Lemma string_eqb_false (a b : string) : String.eqb a b = false ↔ a ≠ b.
Proof. apply String.eqb_neq. Qed.

Lemma set_path_cons (k k' : string) (p : list string) (x : value) (m : gmap string value) :
  set_path (k :: k' :: p) x (VMap m) =
  m !! k ≫= λ c, set_path (k' :: p) x c ≫= λ c', Some (VMap (<[k:=c']> m)).
Proof. done. Qed.

Lemma remove_path_cons (k k' : string) (p : list string) (m : gmap string value) :
  remove_path (k :: k' :: p) (VMap m) =
  m !! k ≫= λ c, remove_path (k' :: p) c ≫= λ c', Some (VMap (<[k:=c']> m)).
Proof. done. Qed.

Lemma get_path_cons (k : string) (p : list string) (m : gmap string value) :
  get_path (k :: p) (VMap m) = m !! k ≫= get_path p.
Proof. done. Qed.

Lemma set_path_is_map (k : string) (p : list string) (x d d' : value) :
  set_path (k :: p) x d = Some d' → ∃ m, d = VMap m.
Proof. destruct d; try done. eauto. Qed.

Lemma remove_path_is_map (p : list string) (d d' : value) :
  remove_path p d = Some d' → ∃ m, d = VMap m.
Proof. destruct p; [done|]. destruct d; try done. eauto. Qed.

#[global] Arguments get_path : simpl nomatch.
#[global] Arguments set_path : simpl nomatch.
#[global] Arguments remove_path : simpl nomatch.

Lemma get_path_app (p q : list string) (v : value) :
  get_path (p ++ q) v = get_path p v ≫= get_path q.
Proof.
  revert v. induction p as [|k p IH]; intros v; [done|].
  destruct v as [| | | | |m]; try done.
  change ((k :: p) ++ q) with (k :: (p ++ q)).
  rewrite !get_path_cons.
  destruct (m !! k) as [c|]; simpl; [apply IH|done].
Qed.

Lemma set_path_snoc (r : list string) (k : string) (x : value) (d : value)
    (m : gmap string value) :
  get_path r d = Some (VMap m) →
  set_path (r ++ [k]) x d = set_path r (VMap (<[k:=x]> m)) d.
Proof.
  revert d. induction r as [|j r IH]; intros d Hget.
  - simpl in *. by simplify_eq.
  - destruct d as [| | | | |md]; try done.
    rewrite get_path_cons in Hget.
    destruct (md !! j) as [c|] eqn:Hj; simpl in Hget; [|done].
    specialize (IH c Hget).
    destruct r as [|j' r].
    + simpl in *. rewrite Hj. simpl. simplify_eq. done.
    + change ((j :: j' :: r) ++ [k]) with (j :: j' :: (r ++ [k])).
      rewrite !set_path_cons, Hj. simpl.
      change (j' :: r ++ [k]) with ((j' :: r) ++ [k]). by rewrite IH.
Qed.

Lemma set_path_twice (r : list string) (a b : value) (d d1 : value) :
  set_path r a d = Some d1 → set_path r b d1 = set_path r b d.
Proof.
  revert d d1. induction r as [|k r IH]; intros d d1 Hset; [done|].
  destruct (set_path_is_map _ _ _ _ _ Hset) as [m ->].
  destruct r as [|k' r].
  - simpl in *. simplify_eq. simpl. by rewrite insert_insert_eq.
  - rewrite set_path_cons in Hset |- *.
    destruct (m !! k) as [c|] eqn:Hk; simpl in Hset |- *; [|done].
    destruct (set_path (k' :: r) a c) as [c1|] eqn:Hc1; simpl in Hset; [|done].
    simplify_eq. rewrite set_path_cons, lookup_insert_eq. simpl.
    rewrite (IH c c1 Hc1).
    destruct (set_path (k' :: r) b c) as [c2|]; simpl; [|done].
    by rewrite insert_insert_eq.
Qed.

Lemma get_set_path_eq (p : list string) (x d d' : value) :
  set_path p x d = Some d' → get_path p d' = Some x.
Proof.
  revert d d'. induction p as [|k p IH]; intros d d' Hset.
  - simpl in *. by simplify_eq.
  - destruct (set_path_is_map _ _ _ _ _ Hset) as [m ->].
    destruct p as [|k' p].
    + simpl in *. simplify_eq. simpl. by rewrite lookup_insert_eq.
    + rewrite set_path_cons in Hset.
      destruct (m !! k) as [c|]; simpl in Hset; [|done].
      destruct (set_path (k' :: p) x c) as [c'|] eqn:Hc; simpl in Hset; [|done].
      simplify_eq. rewrite get_path_cons, lookup_insert_eq. simpl. by eapply IH.
Qed.

Lemma get_set_path_diverges (p q : list string) (x d d' : value) :
  set_path p x d = Some d' → diverges p q = true → get_path q d' = get_path q d.
Proof.
  revert q d d'. induction p as [|k p IH]; intros q d d' Hset Hdiv; [by destruct q|].
  destruct q as [|j q]; [done|]. simpl in Hdiv.
  destruct (set_path_is_map _ _ _ _ _ Hset) as [m ->].
  destruct (String.eqb k j) eqn:Hkj.
  - apply string_eqb_true in Hkj as <-.
    destruct p as [|k' p]; [done|].
    rewrite set_path_cons in Hset.
    destruct (m !! k) as [c|] eqn:Hk; simpl in Hset; [|done].
    destruct (set_path (k' :: p) x c) as [c'|] eqn:Hc; simpl in Hset; [|done].
    simplify_eq. rewrite !get_path_cons, lookup_insert_eq, Hk. simpl. by eapply IH.
  - apply string_eqb_false in Hkj.
    assert (∃ c', d' = VMap (<[k:=c']> m)) as [c' ->].
    { destruct p as [|k' p]; [simpl in Hset; simplify_eq; eauto|].
      rewrite set_path_cons in Hset.
      destruct (m !! k) as [c|]; simpl in Hset; [|done].
      destruct (set_path (k' :: p) x c) as [c'|]; simpl in Hset; [|done].
      simplify_eq; eauto. }
    rewrite !get_path_cons. by rewrite lookup_insert_ne.
Qed.

Lemma get_remove_path_diverges (p q : list string) (d d' : value) :
  remove_path p d = Some d' → diverges p q = true → get_path q d' = get_path q d.
Proof.
  revert q d d'. induction p as [|k p IH]; intros q d d' Hrm Hdiv; [by destruct q|].
  destruct q as [|j q]; [done|]. simpl in Hdiv.
  destruct (remove_path_is_map _ _ _ Hrm) as [m ->].
  destruct (String.eqb k j) eqn:Hkj.
  - apply string_eqb_true in Hkj as <-.
    destruct p as [|k' p]; [done|].
    rewrite remove_path_cons in Hrm.
    destruct (m !! k) as [c|] eqn:Hk; simpl in Hrm; [|done].
    destruct (remove_path (k' :: p) c) as [c'|] eqn:Hc; simpl in Hrm; [|done].
    simplify_eq. rewrite !get_path_cons, lookup_insert_eq, Hk. simpl. by eapply IH.
  - apply string_eqb_false in Hkj.
    destruct p as [|k' p].
    + simpl in Hrm. simplify_eq. rewrite !get_path_cons. by rewrite lookup_delete_ne.
    + rewrite remove_path_cons in Hrm.
      destruct (m !! k) as [c|]; simpl in Hrm; [|done].
      destruct (remove_path (k' :: p) c) as [c'|]; simpl in Hrm; [|done].
      simplify_eq. rewrite !get_path_cons. by rewrite lookup_insert_ne.
Qed.

Lemma diverges_app_r (r p q : list string) :
  diverges (r ++ p) (r ++ q) = diverges p q.
Proof. induction r as [|k r IH]; simpl; [done|]. by rewrite String.eqb_refl. Qed.

Lemma value_eqb_eq (a b : value) : value_eqb a b = true → a = b.
Proof.
  destruct a, b; simpl; try done.
  - intros H. f_equal. by apply Bool.eqb_prop.
  - intros H. f_equal. by apply String.eqb_eq.
  - intros H. f_equal. by apply Z.eqb_eq.
  - intros H. f_equal. by apply Z.eqb_eq.
Qed.

Lemma value_eqb_str (y : value) (s : string) : value_eqb y (VStr s) = true ↔ y = VStr s.
Proof.
  split; [apply value_eqb_eq|]. intros ->. simpl. apply String.eqb_refl.
Qed.

Lemma set_path_exists (p : list string) (x y d : value) :
  get_path p d = Some y → ∃ d', set_path p x d = Some d'.
Proof.
  revert d. induction p as [|k p IH]; intros d Hget; [by eexists|].
  destruct d as [| | | | |m]; try done.
  rewrite get_path_cons in Hget.
  destruct (m !! k) as [c|] eqn:Hk; simpl in Hget; [|done].
  destruct p as [|k' p]; [by eexists|].
  destruct (IH c Hget) as [c' Hc'].
  rewrite set_path_cons, Hk. simpl. rewrite Hc'. by eexists.
Qed.

Lemma get_path_snoc (r : list string) (k : string) (y d : value) :
  get_path (r ++ [k]) d = Some y ↔
  ∃ m, get_path r d = Some (VMap m) ∧ m !! k = Some y.
Proof.
  rewrite get_path_app. split.
  - destruct (get_path r d) as [[| | | | |m]|]; simpl; try done.
    destruct (m !! k) eqn:Hk; simpl; [|done].
    intros ?; simplify_eq. eauto.
  - intros (m & -> & Hk). simpl. by rewrite Hk.
Qed.


Lemma set_path_id (p : list string) (x d : value) :
  get_path p d = Some x → set_path p x d = Some d.
Proof.
  revert d. induction p as [|k p IH]; intros d Hget; [simpl in *; congruence|].
  destruct d as [| | | | |m]; try done.
  rewrite get_path_cons in Hget.
  destruct (m !! k) as [c|] eqn:Hk; simpl in Hget; [|done].
  destruct p as [|k' p].
  - simpl in *. simplify_eq. by rewrite insert_id.
  - rewrite set_path_cons, Hk. simpl. rewrite (IH c Hget). simpl. by rewrite insert_id.
Qed.

Lemma set_fields_spec (r : list string) (kvs : list (string * value)) (d : value)
    (m : gmap string value) :
  get_path r d = Some (VMap m) →
  set_fields r kvs d = set_path r (VMap (insert_fields kvs m)) d.
Proof.
  revert d m. induction kvs as [|[k x] kvs IH]; intros d m Hget.
  - simpl. symmetry. by apply set_path_id.
  - simpl. rewrite (set_path_snoc _ _ _ _ _ Hget).
    destruct (set_path_exists r (VMap (<[k:=x]> m)) _ _ Hget) as [d1 Hd1].
    rewrite Hd1. simpl.
    rewrite (IH d1 (<[k:=x]> m)); [|by eapply get_set_path_eq].
    by eapply set_path_twice.
Qed.

Lemma lease_condition (self : StateStore) (shardId : string) (vw vx vy vz doc : value) :
  eval_condition (ExpressionAttributeNames (lease_params self shardId vw vx vy vz))
    (ExpressionAttributeValues (lease_params self shardId vw vx vy vz))
    (path_equals (shardsPath self ++ ["#b"; "#e"]) ":z") doc =
  Some (match get_path (slot self shardId ++ ["version"]) doc with
        | Some y => value_eqb y vz
        | None => false
        end).
Proof. by destruct self as [cid [|]]. Qed.

Lemma lease_actions (self : StateStore) (shardId : string) (vw vx vy vz doc : value) :
  apply_actions (ExpressionAttributeNames (lease_params self shardId vw vx vy vz))
    (ExpressionAttributeValues (lease_params self shardId vw vx vy vz))
    (UpdateExpression (lease_params self shardId vw vx vy vz)) doc =
  set_fields (slot self shardId)
    [("leaseOwner", vw); ("leaseExpiration", vx); ("version", vy)] doc.
Proof. by destruct self as [cid [|]]. Qed.

Lemma set_fields_diverges (r : list string) (kvs : list (string * value)) (q : list string)
    (d d' : value) :
  set_fields r kvs d = Some d' →
  Forall (λ kv, diverges (r ++ [kv.1]) q = true) kvs →
  get_path q d' = get_path q d.
Proof.
  revert d. induction kvs as [|[k x] kvs IH]; intros d Hset Hall.
  - simpl in Hset. by simplify_eq.
  - simpl in Hset. apply Forall_cons in Hall as [Hk Hall].
    destruct (set_path (r ++ [k]) x d) as [d1|] eqn:Hd1; simpl in Hset; [|done].
    rewrite (IH d1 Hset Hall). by eapply get_set_path_diverges.
Qed.

(** *** Running the lease update *)

Lemma client_update_fault (params : UpdateParams) (w : World) (e : error) :
  fault_of w (length (requests w)) = Some e →
  client_update params w = (inl e, log_request (ReqUpdate params) w).
Proof. intros H. unfold client_update. by rewrite H. Qed.

Lemma lease_update_ok (self : StateStore) (shardId : string) (vw vx vy vz y : value) (w : World) :
  fault_of w (length (requests w)) = None →
  get_path (slot self shardId ++ ["version"]) (item_or_empty (item w)) = Some y →
  value_eqb y vz = true →
  ∃ doc',
    set_fields (slot self shardId)
      [("leaseOwner", vw); ("leaseExpiration", vx); ("version", vy)]
      (item_or_empty (item w)) = Some doc' ∧
    client_update (lease_params self shardId vw vx vy vz) w =
      (inr tt, set_item (Some doc')
                 (log_request (ReqUpdate (lease_params self shardId vw vx vy vz)) w)).
Proof.
  intros Hfault Hver Heq.
  pose proof Hver as Hver'. apply get_path_snoc in Hver' as (m & Hslot & Hm).
  destruct (set_path_exists (slot self shardId)
    (VMap (insert_fields [("leaseOwner", vw); ("leaseExpiration", vx); ("version", vy)] m))
    _ _ Hslot) as [doc' Hdoc'].
  rewrite <- (set_fields_spec _ _ _ _ Hslot) in Hdoc'.
  exists doc'. split; [done|].
  unfold client_update. rewrite Hfault.
  change (ConditionExpression (lease_params self shardId vw vx vy vz))
    with (Some (path_equals (shardsPath self ++ ["#b"; "#e"]) ":z")).
  cbv beta iota zeta. rewrite lease_condition, Hver, Heq.
  by rewrite lease_actions, Hdoc'.
Qed.

Lemma lease_update_fail (self : StateStore) (shardId : string) (vw vx vy vz : value) (w : World) :
  fault_of w (length (requests w)) = None →
  match get_path (slot self shardId ++ ["version"]) (item_or_empty (item w)) with
  | Some y => value_eqb y vz
  | None => false
  end = false →
  client_update (lease_params self shardId vw vx vy vz) w =
    (inl (AwsError ConditionalCheckFailedException),
     log_request (ReqUpdate (lease_params self shardId vw vx vy vz)) w).
Proof.
  intros Hfault Hcond. unfold client_update. rewrite Hfault.
  change (ConditionExpression (lease_params self shardId vw vx vy vz))
    with (Some (path_equals (shardsPath self ++ ["#b"; "#e"]) ":z")).
  cbv beta iota zeta. by rewrite lease_condition, Hcond.
Qed.

Lemma lockShardLease_unfold (self : StateStore) (shardId : string) (leaseTermTimeout : Z)
    (version : value) (w : World) :
  lockShardLease self shardId leaseTermTimeout version w =
  if valid_time (clock w + leaseTermTimeout) then
    match client_update
            (lease_params self shardId (VStr (consumerId self))
               (VTime (clock w + leaseTermTimeout)) (VStr (uuid_of w (generated w))) version)
            (bump_generated w) with
    | (inr _, w') => (inr true, w')
    | (inl e, w') => if is_conditional_check_failed e then (inr false, w') else (inl e, w')
    end
  else (inl (RangeError "Invalid time value"), w).
Proof.
  unfold lockShardLease, try_catch, bind, Date_now, toISOString, generate,
    rethrow_unless_conditional, ret, throw.
  destruct (valid_time (clock w + leaseTermTimeout)); [|done].
  change (client_update _ (bump_generated w)) with (client_update
          (lease_params self shardId (VStr (consumerId self))
             (VTime (clock w + leaseTermTimeout)) (VStr (uuid_of w (generated w))) version)
          (bump_generated w)).
  destruct (client_update _ _) as [[e|[]] w']; [|done].
  by destruct (is_conditional_check_failed e).
Qed.

Lemma set_fields_get (r : list string) (kvs : list (string * value)) (d d' : value)
    (m : gmap string value) :
  set_fields r kvs d = Some d' →
  get_path r d = Some (VMap m) →
  get_path r d' = Some (VMap (insert_fields kvs m)).
Proof.
  intros Hset Hget. rewrite (set_fields_spec _ _ _ _ Hget) in Hset.
  by eapply get_set_path_eq.
Qed.

Lemma set_fields_get_field (r : list string) (kvs : list (string * value)) (d d' : value)
    (k : string) (y : value) :
  set_fields r kvs d = Some d' →
  get_path (r ++ [k]) d = Some y →
  ∃ m, get_path r d = Some (VMap m) ∧
       ∀ j, get_path (r ++ [j]) d' = insert_fields kvs m !! j.
Proof.
  intros Hset Hget. apply get_path_snoc in Hget as (m & Hr & _).
  exists m. split; [done|]. intros j.
  rewrite get_path_app, (set_fields_get _ _ _ _ _ Hset Hr). simpl.
  by destruct (insert_fields kvs m !! j).
Qed.

Section lockShardLease_facts.
Variables (self : StateStore) (shardId : string) (leaseTermTimeout : Z)
          (version : value) (w : World).

Let doc := item_or_empty (item w).
Let stored := get_path (slot self shardId ++ ["version"]) doc.

(** A lease term that takes the expiration out of the range of dates: the
    call throws before anything is generated or sent. *)
Lemma lockShardLease_invalid :
  valid_time (clock w + leaseTermTimeout) = false →
  lockShardLease self shardId leaseTermTimeout version w =
  (inl (RangeError "Invalid time value"), w).
Proof. intros Hvalid. by rewrite lockShardLease_unfold, Hvalid. Qed.

Lemma lockShardLease_ok (y : value) :
  valid_time (clock w + leaseTermTimeout) = true →
  fault_of w (length (requests w)) = None →
  stored = Some y → value_eqb y version = true →
  ∃ doc',
    set_fields (slot self shardId)
      [("leaseOwner", VStr (consumerId self));
       ("leaseExpiration", VTime (clock w + leaseTermTimeout));
       ("version", VStr (uuid_of w (generated w)))] doc = Some doc' ∧
    (lockShardLease self shardId leaseTermTimeout version w).1 = inr true ∧
    item (lockShardLease self shardId leaseTermTimeout version w).2 = Some doc'.
Proof.
  intros Hvalid Hfault Hstored Heq. rewrite lockShardLease_unfold, Hvalid.
  destruct (lease_update_ok self shardId (VStr (consumerId self))
    (VTime (clock w + leaseTermTimeout)) (VStr (uuid_of w (generated w))) version y
    (bump_generated w) Hfault Hstored Heq) as (doc' & Hset & ->).
  by exists doc'.
Qed.

Lemma lockShardLease_fail :
  valid_time (clock w + leaseTermTimeout) = true →
  fault_of w (length (requests w)) = None →
  match stored with Some y => value_eqb y version | None => false end = false →
  (lockShardLease self shardId leaseTermTimeout version w).1 = inr false ∧
  item (lockShardLease self shardId leaseTermTimeout version w).2 = item w.
Proof.
  intros Hvalid Hfault Hcond. rewrite lockShardLease_unfold, Hvalid.
  by rewrite (lease_update_fail self shardId _ _ _ _ (bump_generated w) Hfault Hcond).
Qed.

Lemma lockShardLease_fault (e : error) :
  valid_time (clock w + leaseTermTimeout) = true →
  fault_of w (length (requests w)) = Some e →
  (lockShardLease self shardId leaseTermTimeout version w).1 =
    (if is_conditional_check_failed e then inr false else inl e) ∧
  item (lockShardLease self shardId leaseTermTimeout version w).2 = item w.
Proof.
  intros Hvalid Hfault. rewrite lockShardLease_unfold, Hvalid.
  rewrite (client_update_fault _ (bump_generated w) e Hfault).
  by destruct (is_conditional_check_failed e).
Qed.

(** When the call answers [true], the expiration was a date, no fault hit
    the request and the stored version was the expected one. *)
Lemma lockShardLease_true_inv :
  (lockShardLease self shardId leaseTermTimeout version w).1 = inr true →
  valid_time (clock w + leaseTermTimeout) = true ∧
  fault_of w (length (requests w)) = None ∧
  ∃ y, stored = Some y ∧ value_eqb y version = true.
Proof.
  intros Htrue.
  destruct (valid_time (clock w + leaseTermTimeout)) eqn:Hvalid;
    [|by rewrite lockShardLease_invalid in Htrue].
  split; [done|].
  destruct (fault_of w (length (requests w))) as [e|] eqn:Hfault.
  - destruct (lockShardLease_fault e Hvalid Hfault) as [Hr _]. rewrite Hr in Htrue.
    by destruct (is_conditional_check_failed e).
  - split; [done|].
    destruct stored as [y|] eqn:Hst.
    + destruct (value_eqb y version) eqn:Heq; [by eauto|].
      destruct lockShardLease_fail as [Hr _]; [done|done|by rewrite Hst|]. congruence.
    + destruct lockShardLease_fail as [Hr _]; [done|done|by rewrite Hst|]. congruence.
Qed.
End lockShardLease_facts.

(** C1, amended.  [lockShardLease] first makes the ISO string of
    now + lease term, which throws when that instant is out of the range of
    dates: then the call rejects with the [RangeError] and nothing is
    generated or sent.  Otherwise it succeeds exactly when the stored version
    of the slot is the expected one.  With no transport fault: if the versions
    agree it answers [true] and the slot has [leaseOwner] = this consumer,
    [leaseExpiration] = now + lease term and the freshly generated version,
    everything else in the document being as before; if they differ it
    answers [false] and the document is unchanged.  An error other than the
    conditional-check failure is rethrown.  Of two attempts on the same slot
    with the same expected version, at most one answers [true]. *)
Theorem lockShardLease_spec (self other : StateStore) (shardId : string)
    (leaseTermTimeout leaseTermTimeout' : Z) (expected : string) (w : World) :
  let doc := item_or_empty (item w) in
  let stored := get_path (slot self shardId ++ ["version"]) doc in
  let first := lockShardLease self shardId leaseTermTimeout (VStr expected) w in
  let second := lockShardLease other shardId leaseTermTimeout' (VStr expected) first.2 in
  (valid_time (clock w + leaseTermTimeout) = false →
    first = (inl (RangeError "Invalid time value"), w)) ∧
  (valid_time (clock w + leaseTermTimeout) = true →
   fault_of w (length (requests w)) = None →
    (stored = Some (VStr expected) →
      first.1 = inr true ∧
      ∃ doc', item first.2 = Some doc' ∧
        get_path (slot self shardId ++ ["leaseOwner"]) doc' = Some (VStr (consumerId self)) ∧
        get_path (slot self shardId ++ ["leaseExpiration"]) doc'
          = Some (VTime (clock w + leaseTermTimeout)) ∧
        get_path (slot self shardId ++ ["version"]) doc'
          = Some (VStr (uuid_of w (generated w))) ∧
        ∀ q, diverges (slot self shardId ++ ["leaseOwner"]) q = true →
             diverges (slot self shardId ++ ["leaseExpiration"]) q = true →
             diverges (slot self shardId ++ ["version"]) q = true →
             get_path q doc' = get_path q doc) ∧
    (stored ≠ Some (VStr expected) →
      first.1 = inr false ∧ item first.2 = item w)) ∧
  (valid_time (clock w + leaseTermTimeout) = true →
   ∀ e, fault_of w (length (requests w)) = Some e →
        is_conditional_check_failed e = false →
        first.1 = inl e ∧ item first.2 = item w) ∧
  (slot other shardId = slot self shardId →
   uuid_of w (generated w) ≠ expected →
   ¬ (first.1 = inr true ∧ second.1 = inr true)).
Proof.
  intros doc stored first second. split; [|split; [|split]].
  - apply lockShardLease_invalid.
  - intros Hvalid Hfault. split.
    + intros Hstored.
      destruct (lockShardLease_ok self shardId leaseTermTimeout (VStr expected) w
        (VStr expected)) as (doc' & Hset & Hr & Hit); auto.
      { by apply value_eqb_str. }
      split; [done|].
      destruct (set_fields_get_field _ _ _ _ _ _ Hset Hstored) as (m & Hm & Hfields).
      exists doc'. repeat split;
        [done|rewrite Hfields; unfold insert_fields; simpl; by simplify_map_eq..|].
      intros q H1 H2 H3. eapply set_fields_diverges; [done|]. by repeat constructor.
    + intros Hstored. apply lockShardLease_fail; [done|done|]. fold doc stored.
      destruct stored as [y|]; [|done].
      destruct (value_eqb y (VStr expected)) eqn:Heq; [|done].
      apply value_eqb_str in Heq. congruence.
  - intros Hvalid e Hfault Hcode.
    destruct (lockShardLease_fault self shardId leaseTermTimeout (VStr expected) w e
                Hvalid Hfault) as [Hr Hitem].
    split; [|done]. by rewrite Hcode in Hr.
  - intros Hslot Hfresh [Hfirst Hsecond].
    apply lockShardLease_true_inv in Hfirst as (Hvalid & Hfault & y & Hst & Heq).
    apply value_eqb_str in Heq as ->.
    destruct (lockShardLease_ok self shardId leaseTermTimeout (VStr expected) w
      (VStr expected)) as (doc' & Hset & _ & Hit); auto.
    { by apply value_eqb_str. }
    destruct (set_fields_get_field _ _ _ _ _ _ Hset Hst) as (m & Hm & Hfields).
    apply lockShardLease_true_inv in Hsecond as (_ & _ & y2 & Hst2 & Heq2).
    apply value_eqb_str in Heq2 as ->.
    fold first in Hit. rewrite Hit, Hslot, Hfields in Hst2. simpl in Hst2.
    rewrite lookup_insert_eq in Hst2. congruence.
Qed.

Lemma releaseShardLease_unfold (self : StateStore) (shardId : string)
    (version : value) (w : World) :
  releaseShardLease self shardId version w =
  match client_update
          (lease_params self shardId VNull VNull (VStr (uuid_of w (generated w))) version)
          (bump_generated w) with
  | (inr _, w') => (inr (Some (uuid_of w (generated w))), w')
  | (inl e, w') => if is_conditional_check_failed e then (inr None, w') else (inl e, w')
  end.
Proof.
  unfold releaseShardLease, try_catch, bind, generate, rethrow_unless_conditional, ret, throw.
  change (client_update _ (bump_generated w)) with (client_update
          (lease_params self shardId VNull VNull (VStr (uuid_of w (generated w))) version)
          (bump_generated w)).
  destruct (client_update _ _) as [[e|[]] w']; [|done].
  by destruct (is_conditional_check_failed e).
Qed.

(** C8. [releaseShardLease]: when the stored version of the slot is the
    expected one (and no fault hits the request), [leaseOwner] and
    [leaseExpiration] become null, the version becomes a freshly generated
    token, that same token is returned, and nothing else changes; when the
    versions differ it returns null and the document is unchanged; any other
    error is rethrown. *)
Theorem releaseShardLease_spec (self : StateStore) (shardId : string)
    (expected : string) (w : World) :
  let doc := item_or_empty (item w) in
  let stored := get_path (slot self shardId ++ ["version"]) doc in
  let run := releaseShardLease self shardId (VStr expected) w in
  (fault_of w (length (requests w)) = None →
    (stored = Some (VStr expected) →
      ∃ fresh doc',
        fresh = uuid_of w (generated w) ∧
        run.1 = inr (Some fresh) ∧
        item run.2 = Some doc' ∧
        get_path (slot self shardId ++ ["leaseOwner"]) doc' = Some VNull ∧
        get_path (slot self shardId ++ ["leaseExpiration"]) doc' = Some VNull ∧
        get_path (slot self shardId ++ ["version"]) doc' = Some (VStr fresh) ∧
        ∀ q, diverges (slot self shardId ++ ["leaseOwner"]) q = true →
             diverges (slot self shardId ++ ["leaseExpiration"]) q = true →
             diverges (slot self shardId ++ ["version"]) q = true →
             get_path q doc' = get_path q doc) ∧
    (stored ≠ Some (VStr expected) →
      run.1 = inr None ∧ item run.2 = item w)) ∧
  (∀ e, fault_of w (length (requests w)) = Some e →
        is_conditional_check_failed e = false →
        run.1 = inl e ∧ item run.2 = item w).
Proof.
  intros doc stored run. subst run. rewrite releaseShardLease_unfold.
  split; [intros Hfault; split|].
  - intros Hstored.
    destruct (lease_update_ok self shardId VNull VNull (VStr (uuid_of w (generated w)))
      (VStr expected) (VStr expected) (bump_generated w) Hfault Hstored)
      as (doc' & Hset & ->); [by apply value_eqb_str|].
    destruct (set_fields_get_field _ _ _ _ _ _ Hset Hstored) as (m & Hm & Hfields).
    exists (uuid_of w (generated w)), doc'. repeat split;
      [rewrite Hfields; unfold insert_fields; simpl; by simplify_map_eq..|].
    intros q H1 H2 H3. eapply set_fields_diverges; [done|]. by repeat constructor.
  - intros Hstored.
    rewrite (lease_update_fail self shardId _ _ _ _ (bump_generated w) Hfault); [done|].
    simpl. fold doc stored. destruct stored as [y|]; [|done].
    destruct (value_eqb y (VStr expected)) eqn:Heq; [|done].
    apply value_eqb_str in Heq. congruence.
  - intros e Hfault Hcode.
    rewrite (client_update_fault _ (bump_generated w) e Hfault). by rewrite Hcode.
Qed.


(** ** Numbered placeholders never clash with the lettered ones *)

Lemma pretty_N_go_head_ne (c : ascii) (x : N) (s s' : string) :
  (∀ d, pretty_N_char d ≠ c) →
  s ≠ String c s' → pretty_N_go x s ≠ String c s'.
Proof.
  intros Hc. revert s. induction (N.lt_wf_0 x) as [x _ IH]; intros s Hs.
  assert (x = 0 ∨ 0 < x)%N as [->|Hpos] by lia.
  - by rewrite pretty_N_go_0.
  - rewrite pretty_N_go_step by done. apply IH.
    { by apply N.div_lt. }
    intros [= Heq _]. by apply (Hc (x `mod` 10)%N).
Qed.

Lemma pretty_nat_head_ne (c : ascii) (n : nat) (s' : string) :
  (∀ d, pretty_N_char d ≠ c) → pretty n ≠ String c s'.
Proof.
  intros Hc. unfold pretty, pretty_nat, pretty, pretty_N.
  case_decide.
  - intros [= Heq _]. by apply (Hc 0%N).
  - by apply pretty_N_go_head_ne.
Qed.

Ltac letter := intros d; unfold pretty_N_char; repeat case_match; discriminate.

Lemma name_ref_ne (index : nat) (c : ascii) (s : string) :
  is_letter c → name_ref index ≠ String "#"%char (String c s).
Proof. intros Hc [= Heq]. by eapply pretty_nat_head_ne. Qed.

Lemma value_ref_ne (index : nat) (c : ascii) (s : string) :
  is_letter c → value_ref index ≠ String ":"%char (String c s).
Proof. intros Hc [= Heq]. by eapply pretty_nat_head_ne. Qed.

Lemma name_ref_inj : Inj (=) (=) name_ref.
Proof. intros i j [= Heq]. by apply (inj pretty). Qed.

Lemma value_ref_inj : Inj (=) (=) value_ref.
Proof. intros i j [= Heq]. by apply (inj pretty). Qed.


(** ** [clearOldConsumers] *)

Lemma prop_heartbeat (rec : value) (w : World) (h : option value) :
  prop (Some rec) "heartbeat" w = (inr h, w) → h = get_path ["heartbeat"] rec.
Proof.
  destruct rec; simpl; unfold ret, throw; intros; simplify_eq; try done.
  simpl. by destruct (_ !! _).
Qed.

Lemma prop_world (obj : option value) (key : string) (w : World) :
  (prop obj key w).2 = w.
Proof. by destruct obj as [[]|]. Qed.

Lemma old_consumers_sound (cs : gmap string value) (timeout : Z) (ids : list string)
    (acc : list string) (w : World) :
  (reduceM (old_consumer_step (Some (VMap cs)) timeout) ids acc w).2 = w ∧
  ∀ old, (reduceM (old_consumer_step (Some (VMap cs)) timeout) ids acc w).1 = inr old →
    ∀ id, id ∈ old → id ∈ acc ∨
      ∃ rec t, cs !! id = Some rec ∧ getTime (get_path ["heartbeat"] rec) = Some t ∧
               timeout < clock w - t.
Proof.
  revert acc. induction ids as [|id ids IH]; intros acc.
  - split; [done|]. intros old [= <-] id Hid. by left.
  - simpl. unfold bind at 1. unfold old_consumer_step at 1 3.
    unfold bind, prop at 1 3, ret, Date_now. 
    destruct (cs !! id) as [rec|] eqn:Hrec.
    + destruct (prop (Some rec) "heartbeat" w) as [[e|h] w'] eqn:Hprop.
      * pose proof (prop_world (Some rec) "heartbeat" w) as Hw. rewrite Hprop in Hw.
        simpl in Hw. subst w'. split; [done|]. intros old [=].
      * pose proof (prop_world (Some rec) "heartbeat" w) as Hw. rewrite Hprop in Hw.
        simpl in Hw. subst w'. apply prop_heartbeat in Hprop as ->.
        match goal with |- context [reduceM _ ids ?a w] => destruct (IH a) as [IHw IHold] end.
        split; [done|]. intros old Hold i Hi.
        destruct (IHold old Hold i Hi) as [Hacc|?]; [|by right].
        destruct (getTime (get_path ["heartbeat"] rec)) as [t|] eqn:Ht; [|by left].
        destruct (Z.ltb timeout (clock w - t)) eqn:Hlt; [|by left].
        apply elem_of_app in Hacc as [?|Hin]; [by left|].
        apply list_elem_of_singleton in Hin as ->. right. exists rec, t.
        repeat split; [done..|]. by apply Z.ltb_lt.
    + simpl. split; [done|]. intros old [=].
Qed.

Lemma clearOldConsumers_reads_or_stale (self : StateStore) (heartbeatFailureTimeout : Z)
    (w : World) :
  let run := clearOldConsumers self heartbeatFailureTimeout w in
  (requests run.2 = requests w ++ [ReqGet] ∧ item run.2 = item w) ∨
  ∃ id, stale_consumer (item w) (clock w) heartbeatFailureTimeout id.
Proof.
  intros run. destruct run as [r w'] eqn:Hrun. subst run. simpl.
  unfold clearOldConsumers, getStreamState, client_get in Hrun. unfold bind at 1 in Hrun.
  destruct (fault_of w (length (requests w))) as [e|]; [simplify_eq; by left|].
  set (w1 := log_request ReqGet w) in Hrun.
  destruct (item w) as [d|] eqn:Hitem;
    [|cbv [bind prop throw] in Hrun; simplify_eq; by left].
  destruct d as [| | | | |m];
    try (cbv [bind prop throw ret Object_keys] in Hrun; simplify_eq; by left).
  unfold bind at 1 in Hrun. unfold prop at 1, ret at 1 in Hrun.
  unfold bind at 1 in Hrun. unfold prop at 1, ret at 1 in Hrun.
  unfold bind at 1 in Hrun.
  destruct (m !! "consumers") as [[| | | | |cs]|] eqn:Hcs;
    try (cbv [bind prop throw ret Object_keys reduceM] in Hrun; simpl in Hrun;
         simplify_eq; by left).
  unfold Object_keys, ret at 1 in Hrun. unfold bind at 1 in Hrun.
  change (reduceM _ (map fst (map_to_list cs)) [] w1)
    with (reduceM (old_consumer_step (Some (VMap cs)) heartbeatFailureTimeout)
            (map fst (map_to_list cs)) [] w1) in Hrun.
  destruct (old_consumers_sound cs heartbeatFailureTimeout (map fst (map_to_list cs)) [] w1)
    as [Hw Hold].
  destruct (reduceM _ _ _ w1) as [[e|old] w2]; simpl in Hw; subst w2;
    [simplify_eq; by left|].
  destruct old as [|id old]; [simpl in Hrun; unfold ret in Hrun; simplify_eq; by left|].
  right. exists id.
  destruct (Hold (id :: old) eq_refl id) as [Hin|(rec & t & Hrec & Ht & Hlt)].
  { by left. }
  { by apply elem_of_nil in Hin. }
  exists (VMap m), rec, t. repeat split; [|done..].
  simpl. rewrite Hcs. simpl. by rewrite Hrec.
Qed.

(** C10. When no registered consumer has a heartbeat older than the timeout,
    [clearOldConsumers] only reads: the one request it sends is the get, and
    the document, its top-level version included, is what it was.  Hence
    the document is changed only when some consumer is stale. *)
Theorem clearOldConsumers_no_write (self : StateStore) (heartbeatFailureTimeout : Z)
    (w : World) :
  let run := clearOldConsumers self heartbeatFailureTimeout w in
  ((∀ id, ¬ stale_consumer (item w) (clock w) heartbeatFailureTimeout id) →
     requests run.2 = requests w ++ [ReqGet] ∧ item run.2 = item w) ∧
  (item run.2 ≠ item w →
     ∃ id, stale_consumer (item w) (clock w) heartbeatFailureTimeout id).
Proof.
  intros run.
  destruct (clearOldConsumers_reads_or_stale self heartbeatFailureTimeout w)
    as [[Hreq Hitem]|[id Hid]].
  - split; [done|]. intros Hchanged. by destruct Hchanged.
  - split; [|by eauto]. intros Hnone. by destruct (Hnone id).
Qed.

(** ** Tables of numbered placeholders *)

Section numbered_names.
Context {A : Type} (f : A → string).

Lemma numbered_names_other (n : nat) (init : gmap string string) (l : list A) (k : string) :
  (∀ j, (j < length l)%nat → k ≠ name_ref (n + j)) →
  foldl (λ obj '(index, x), <[name_ref index := f x]> obj) init
    (imap (λ i x, (n + i, x)%nat) l) !! k = init !! k.
Proof.
  revert n init. induction l as [|x l IH]; intros n init Hk; [done|].
  simpl. rewrite (imap_ext _ (λ i x, (S n + i, x)%nat)).
  2:{ intros i y _. simpl. f_equal. lia. }
  rewrite IH.
  - apply lookup_insert_ne. intros Heq. apply (Hk 0%nat); [simpl; lia|done].
  - intros j Hj. replace (S n + j)%nat with (n + S j)%nat by lia. apply Hk. simpl. lia.
Qed.

Lemma numbered_names_lookup (n : nat) (init : gmap string string) (l : list A)
    (i : nat) (x : A) :
  l !! i = Some x →
  foldl (λ obj '(index, x), <[name_ref index := f x]> obj) init
    (imap (λ i x, (n + i, x)%nat) l) !! name_ref (n + i) = Some (f x).
Proof.
  revert n init i. induction l as [|y l IH]; intros n init i Hi; [done|].
  simpl. rewrite (imap_ext _ (λ i x, (S n + i, x)%nat)).
  2:{ intros j z _. simpl. f_equal. lia. }
  destruct i as [|i]; simpl in Hi.
  - simplify_eq. rewrite numbered_names_other; [apply lookup_insert_eq|].
    intros j _ Heq. apply name_ref_inj in Heq. lia.
  - replace (n + S i)%nat with (S n + i)%nat by lia. by apply IH.
Qed.

Lemma indexed_names_lookup (l : list A) (i : nat) (x : A) :
  l !! i = Some x →
  foldl (λ obj '(index, x), <[name_ref index := f x]> obj)
    (∅ : gmap string string) (indexed l) !! name_ref i
  = Some (f x).
Proof. apply (numbered_names_lookup 0). Qed.

Lemma indexed_names_letter (l : list A) (c : ascii) (s : string) :
  is_letter c →
  foldl (λ obj '(index, x), <[name_ref index := f x]> obj)
    (∅ : gmap string string) (indexed l)
    !! String "#"%char (String c s) = None.
Proof.
  intros Hc. unfold indexed. rewrite (numbered_names_other 0); [done|].
  intros j _ Heq. symmetry in Heq. by apply name_ref_ne in Heq.
Qed.
End numbered_names.

Lemma advance_bump (n : nat) (w : World) :
  advance n (bump_generated w) = advance (S n) w.
Proof. unfold advance, bump_generated. simpl. f_equal. lia. Qed.

Lemma child_values_run (n : nat) (init : gmap string value) (l : list ChildShard) (w : World) :
  reduceM (λ obj '(index, childShard),
      let* v := generate in
      ret (<[value_ref (index * 2 + 1) := VStr v]>
            (<[value_ref (index * 2) := VStr (child_startingSequenceNumber childShard)]> obj)))
    (imap (λ i x, (n + i, x)%nat) l) init w
  = (inr (child_values (uuid_of w) n (generated w) init l), advance (length l) w).
Proof.
  revert n init w. induction l as [|c l IH]; intros n init w.
  - simpl. unfold ret, advance. by destruct w.
  - simpl. rewrite (imap_ext _ (λ i x, (S n + i, x)%nat)).
    2:{ intros j z _. simpl. f_equal. lia. }
    unfold bind at 1. unfold bind at 1. unfold generate at 1, ret at 1.
    rewrite IH. rewrite advance_bump. simpl.
    by replace (n + 0)%nat with n by lia.
Qed.

Lemma child_values_other (u : nat → string) (n g : nat) (init : gmap string value)
    (l : list ChildShard) (k : string) :
  (∀ j, (j < length l)%nat → k ≠ value_ref ((n + j) * 2) ∧ k ≠ value_ref ((n + j) * 2 + 1)) →
  child_values u n g init l !! k = init !! k.
Proof.
  revert n g init. induction l as [|c l IH]; intros n g init Hk; [done|].
  simpl. rewrite IH.
  - destruct (Hk 0%nat) as [H1 H2]; [simpl; lia|].
    replace (n + 0)%nat with n in * by lia.
    by rewrite !lookup_insert_ne.
  - intros j Hj. replace (S n + j)%nat with (n + S j)%nat by lia. apply Hk. simpl. lia.
Qed.

Lemma child_values_lookup (u : nat → string) (n g : nat) (init : gmap string value)
    (l : list ChildShard) (i : nat) (c : ChildShard) :
  l !! i = Some c →
  child_values u n g init l !! value_ref ((n + i) * 2)
    = Some (VStr (child_startingSequenceNumber c)) ∧
  child_values u n g init l !! value_ref ((n + i) * 2 + 1) = Some (VStr (u (g + i)%nat)).
Proof.
  revert n g init i. induction l as [|y l IH]; intros n g init i Hi; [done|].
  simpl. destruct i as [|i]; simpl in Hi.
  - simplify_eq. replace (n + 0)%nat with n by lia. replace (g + 0)%nat with g by lia.
    rewrite !child_values_other.
    + rewrite lookup_insert_eq. rewrite lookup_insert_ne, lookup_insert_eq; [done|].
      intros Heq. apply value_ref_inj in Heq. lia.
    + intros j _. split; intros Heq; apply value_ref_inj in Heq; lia.
    + intros j _. split; intros Heq; apply value_ref_inj in Heq; lia.
  - replace (n + S i)%nat with (S n + i)%nat by lia.
    replace (g + S i)%nat with (S g + i)%nat by lia. by apply IH.
Qed.

Lemma child_values_letter (u : nat → string) (n g : nat) (init : gmap string value)
    (l : list ChildShard) (c : ascii) (s : string) :
  is_letter c →
  child_values u n g init l !! String ":"%char (String c s) = init !! String ":"%char (String c s).
Proof.
  intros Hc. apply child_values_other. intros j _.
  split; intros Heq; symmetry in Heq; by apply value_ref_ne in Heq.
Qed.

(** ** Resolving the expressions of [markShardAsDepleted] *)

Lemma resolve_path_app (names : gmap string string) (p q : list string) :
  resolve_path names (p ++ q) =
  rp ← resolve_path names p; rq ← resolve_path names q; Some (rp ++ rq).
Proof.
  unfold resolve_path. induction p as [|k p IH]; simpl.
  - by destruct (mapM _ q).
  - destruct (names !! k) as [k'|]; simpl; [|done].
    rewrite IH. destruct (mapM _ p) as [rp|]; simpl; [|done].
    by destruct (mapM _ q).
Qed.

Lemma resolve_path_two (names : gmap string string) (sp root : list string)
    (a b a' b' : string) :
  resolve_path names sp = Some root →
  names !! a = Some a' → names !! b = Some b' →
  resolve_path names (sp ++ [a; b]) = Some (root ++ [a'] ++ [b']).
Proof.
  intros Hsp Ha Hb. rewrite resolve_path_app, Hsp. simpl.
  unfold resolve_path. simpl. by rewrite Ha, Hb.
Qed.

Lemma apply_actions_app (names : gmap string string) (vals : gmap string value)
    (a1 a2 : list action) (d : value) :
  apply_actions names vals (a1 ++ a2) d =
  apply_actions names vals a1 d ≫= apply_actions names vals a2.
Proof.
  revert d. induction a1 as [|a a1 IH]; intros d; simpl; [done|].
  destruct (apply_action names vals a d) as [d1|]; simpl; [apply IH|done].
Qed.

Lemma children_actions (names : gmap string string) (vals : gmap string value)
    (sp root : list string) (u : nat → string) (l : list ChildShard) (n g : nat) (d : value) :
  resolve_path names sp = Some root →
  names !! "#e" = Some "checkpoint" →
  names !! "#d" = Some "version" →
  (∀ i c, l !! i = Some c →
     names !! name_ref (n + i) = Some (child_shardId c) ∧
     vals !! value_ref ((n + i) * 2) = Some (VStr (child_startingSequenceNumber c)) ∧
     vals !! value_ref ((n + i) * 2 + 1) = Some (VStr (u (g + i)%nat))) →
  apply_actions names vals
    (concat (imap (λ index _,
       [ SET (sp ++ [name_ref (n + index); "#e"]) (value_ref ((n + index) * 2));
         SET (sp ++ [name_ref (n + index); "#d"]) (value_ref ((n + index) * 2 + 1)) ]) l)) d
  = seed_children root u g l d.
Proof.
  intros Hsp He Hd. revert n g d. induction l as [|c l IH]; intros n g d Hl; [done|].
  destruct (Hl 0%nat c eq_refl) as (Hname & Hssn & Htok).
  replace (n + 0)%nat with n in * by lia. replace (g + 0)%nat with g in * by lia.
  cbn [imap concat app seed_children set_fields apply_actions apply_action].
  replace (n + 0)%nat with n by lia.
  rewrite (resolve_path_two names sp root _ _ _ _ Hsp Hname He).
  rewrite (resolve_path_two names sp root _ _ _ _ Hsp Hname Hd).
  rewrite Hssn, Htok. cbn [mbind option_bind].
  rewrite <- !app_assoc.
  destruct (set_path (root ++ [child_shardId c] ++ ["checkpoint"]) _ d) as [d1|];
    cbn [mbind option_bind]; [|done].
  destruct (set_path (root ++ [child_shardId c] ++ ["version"]) _ d1) as [d2|];
    cbn [mbind option_bind]; [|done].
  rewrite (imap_ext _ (λ index _,
       [ SET (sp ++ [name_ref (S n + index); "#e"]) (value_ref ((S n + index) * 2));
         SET (sp ++ [name_ref (S n + index); "#d"]) (value_ref ((S n + index) * 2 + 1)) ])).
  2:{ intros j z _. simpl. by replace (n + S j)%nat with (S (n + j)) by lia. }
  apply IH. intros i c' Hi.
  replace (S n + i)%nat with (n + S i)%nat by lia.
  replace (S g + i)%nat with (g + S i)%nat by lia. by apply Hl.
Qed.

(** ** Properties of the document that an operation keeps *)

Section keeps.
Context (P : option value → Prop).

Lemma keeps_ret {A} (a : A) : keeps P (ret a).
Proof. by intros w. Qed.

Lemma keeps_throw {A} (e : error) : keeps P (@throw A e).
Proof. by intros w. Qed.

Lemma keeps_bind {A B} (m : M A) (k : A → M B) :
  keeps P m → (∀ a, keeps P (k a)) → keeps P (bind m k).
Proof.
  intros Hm Hk w HP. unfold bind. specialize (Hm w HP).
  destruct (m w) as [[e|a] w']; [done|]. by apply Hk.
Qed.

Lemma keeps_try_catch {A} (m : M A) (h : error → M A) :
  keeps P m → (∀ e, keeps P (h e)) → keeps P (try_catch m h).
Proof.
  intros Hm Hh w HP. unfold try_catch. specialize (Hm w HP).
  destruct (m w) as [[e|a] w']; [|done]. by apply Hh.
Qed.

Lemma keeps_generate : keeps P generate.
Proof. by intros w. Qed.

Lemma keeps_Date_now : keeps P Date_now.
Proof. by intros w. Qed.

Lemma keeps_client_get : keeps P client_get.
Proof. intros w HP. unfold client_get. by destruct (fault_of _ _). Qed.

Lemma keeps_prop (obj : option value) (key : string) : keeps P (prop obj key).
Proof. intros w HP. by destruct obj as [[]|]. Qed.

Lemma keeps_Object_keys (obj : option value) : keeps P (Object_keys obj).
Proof. intros w HP. by destruct obj as [[]|]. Qed.

Lemma keeps_rethrow {A} (fallback : M A) (e : error) :
  keeps P fallback → keeps P (rethrow_unless_conditional fallback e).
Proof.
  intros Hf. unfold rethrow_unless_conditional.
  destruct (is_conditional_check_failed e); [done|apply keeps_throw].
Qed.

Lemma keeps_promise_all {A} (ms : list (M A)) :
  Forall (keeps P) ms → keeps P (promise_all ms).
Proof.
  induction 1 as [|m ms Hm _ IH]; [by intros w|].
  intros w HP. simpl. specialize (Hm w HP).
  destruct (m w) as [[e|a] w1]; simpl in *.
  - by apply IH.
  - specialize (IH w1 Hm). by destruct (promise_all ms w1) as [[e|l] w2].
Qed.

Lemma keeps_reduceM {A B} (f : B → A → M B) (l : list A) (init : B) :
  (∀ b a, keeps P (f b a)) → keeps P (reduceM f l init).
Proof.
  intros Hf. revert init. induction l as [|a l IH]; intros init; [apply keeps_ret|].
  simpl. apply keeps_bind; [apply Hf|]. intros b. apply IH.
Qed.

(** An update that fails leaves the item alone; one that succeeds stores
    the result of its actions. *)
Lemma keeps_client_update (params : UpdateParams) :
  (∀ doc doc',
     P (Some doc) ∨ (doc = VMap ∅ ∧ P None) →
     match ConditionExpression params with
     | Some c => eval_condition (ExpressionAttributeNames params)
                   (ExpressionAttributeValues params) c doc = Some true
     | None => True
     end →
     apply_actions (ExpressionAttributeNames params) (ExpressionAttributeValues params)
       (UpdateExpression params) doc = Some doc' →
     P (Some doc')) →
  keeps P (client_update params).
Proof.
  intros Hupd w HP. unfold client_update.
  destruct (fault_of _ _); [done|]. cbv zeta.
  destruct (ConditionExpression params) as [c|] eqn:Hc.
  - destruct (eval_condition _ _ c _) as [[|]|] eqn:Hcond; [|done..].
    destruct (apply_actions _ _ _ _) as [doc'|] eqn:Hact; [|done].
    simpl. eapply Hupd; [|done|done].
    destruct (item w); [by left|by right].
  - destruct (apply_actions _ _ _ _) as [doc'|] eqn:Hact; [|done].
    simpl. eapply Hupd; [|done|done].
    destruct (item w); [by left|by right].
Qed.
End keeps.

(** ** Depletion is kept *)

Lemma apply_actions_keeps (names : gmap string string) (vals : gmap string value)
    (q : list string) (t : value) (acts : list action) (doc doc' : value) :
  Forall (action_keeps names vals q t) acts →
  apply_actions names vals acts doc = Some doc' →
  get_path q doc = Some t → get_path q doc' = Some t.
Proof.
  intros Hall. revert doc. induction Hall as [|a acts Ha _ IH]; intros doc Hact Hq.
  - simpl in Hact. by simplify_eq.
  - simpl in Hact.
    destruct (apply_action names vals a doc) as [d1|] eqn:Ha1; simpl in Hact; [|done].
    apply (IH d1 Hact). destruct a as [p v|p]; simpl in Ha1, Ha.
    + destruct (resolve_path names p) as [rp|]; simpl in Ha1; [|done].
      destruct (vals !! v) as [x|]; simpl in Ha1; [|done].
      destruct (Ha rp x eq_refl eq_refl) as [Hdiv|[-> ->]].
      * by rewrite (get_set_path_diverges _ _ _ _ _ Ha1 Hdiv).
      * by eapply get_set_path_eq.
    + destruct (resolve_path names p) as [rp|]; simpl in Ha1; [|done].
      by rewrite (get_remove_path_diverges _ _ _ _ Ha1 (Ha rp eq_refl)).
Qed.

Lemma keeps_depleted_update (owner : StateStore) (s : string) (params : UpdateParams) :
  Forall (action_keeps (ExpressionAttributeNames params) (ExpressionAttributeValues params)
            (slot owner s ++ ["depleted"]) (VBool true))
         (UpdateExpression params) →
  keeps (depleted_in owner s) (client_update params).
Proof.
  intros Hall. apply keeps_client_update. intros doc doc' [HP|[_ HP]] _ Hact.
  - destruct HP as (d & [= <-] & Hq). exists doc'. split; [done|].
    by eapply apply_actions_keeps.
  - by destruct HP as (d & ? & _).
Qed.

(** *** How the paths of the operations lie with respect to a depleted flag *)

Ltac path_cases :=
  repeat match goal with
  | self : StateStore |- _ => destruct self as [? [|]]
  end;
  cbn [slot shards_root app diverges consumerId isStandalone];
  repeat match goal with
  | |- context [String.eqb ?a ?b] =>
      first [ rewrite (String.eqb_refl a)
            | let H := fresh "Heq" in destruct (String.eqb a b) eqn:H;
              [apply String.eqb_eq in H; try subst|] ]
  end.

Lemma slot_field_diverges (self owner : StateStore) (s s' f : string) :
  String.eqb f "depleted" = false →
  diverges (slot self s ++ [f]) (slot owner s' ++ ["depleted"]) = true.
Proof. intros Hf. path_cases; try done; by rewrite ?Hf. Qed.

Lemma slot_depleted_cases (self owner : StateStore) (s s' : string) :
  slot self s ++ ["depleted"] = slot owner s' ++ ["depleted"] ∨
  diverges (slot self s ++ ["depleted"]) (slot owner s' ++ ["depleted"]) = true.
Proof. path_cases; try (by right); by left. Qed.

Lemma slot_prefix_cases (self owner : StateStore) (s s' : string) :
  slot self s = slot owner s' ∨
  diverges (slot self s) (slot owner s' ++ ["depleted"]) = true.
Proof. path_cases; try (by right); by left. Qed.

Section depleted_kept.
Variables (owner : StateStore) (s : string).

Lemma lease_params_keep (self : StateStore) (shardId : string) (vw vx vy vz : value) :
  keeps (depleted_in owner s) (client_update (lease_params self shardId vw vx vy vz)).
Proof.
  apply keeps_depleted_update.
  repeat apply Forall_cons_2; [..|by apply Forall_nil]; intros rp x Hrp _; left.
  - assert (rp = slot self shardId ++ ["leaseOwner"]) as ->
      by (destruct self as [? [|]]; vm_compute in Hrp; by injection Hrp as <-).
    by apply slot_field_diverges.
  - assert (rp = slot self shardId ++ ["leaseExpiration"]) as ->
      by (destruct self as [? [|]]; vm_compute in Hrp; by injection Hrp as <-).
    by apply slot_field_diverges.
  - assert (rp = slot self shardId ++ ["version"]) as ->
      by (destruct self as [? [|]]; vm_compute in Hrp; by injection Hrp as <-).
    by apply slot_field_diverges.
Qed.

Lemma lockShardLease_keeps (self : StateStore) (shardId : string) (term : Z) (v : value) :
  keeps (depleted_in owner s) (lockShardLease self shardId term v).
Proof.
  unfold lockShardLease. apply keeps_try_catch.
  - apply keeps_bind; [apply keeps_Date_now|]. intros now.
    apply keeps_bind.
    { unfold toISOString. destruct (valid_time _); [apply keeps_ret|apply keeps_throw]. }
    intros x.
    apply keeps_bind; [apply keeps_generate|]. intros y.
    apply keeps_bind; [|intros; apply keeps_ret].
    apply (lease_params_keep self shardId (VStr (consumerId self)) x (VStr y) v).
  - intros e. apply keeps_rethrow, keeps_ret.
Qed.

Lemma releaseShardLease_keeps (self : StateStore) (shardId : string) (v : value) :
  keeps (depleted_in owner s) (releaseShardLease self shardId v).
Proof.
  unfold releaseShardLease.
  apply keeps_bind; [apply keeps_generate|]. intros y.
  apply keeps_try_catch.
  - apply keeps_bind; [|intros; apply keeps_ret].
    apply (lease_params_keep self shardId VNull VNull (VStr y) v).
  - intros e. apply keeps_rethrow, keeps_ret.
Qed.

Lemma storeShardCheckpoint_keeps (self : StateStore) (shardId : string) (checkpoint : value) :
  keeps (depleted_in owner s) (storeShardCheckpoint self shardId checkpoint).
Proof.
  unfold storeShardCheckpoint.
  apply keeps_bind; [apply keeps_generate|]. intros y.
  apply keeps_depleted_update.
  repeat apply Forall_cons_2; [..|by apply Forall_nil]; intros rp x Hrp _; left.
  - assert (rp = slot self shardId ++ ["checkpoint"]) as ->
      by (destruct self as [? [|]]; vm_compute in Hrp; by injection Hrp as <-).
    by apply slot_field_diverges.
  - assert (rp = slot self shardId ++ ["version"]) as ->
      by (destruct self as [? [|]]; vm_compute in Hrp; by injection Hrp as <-).
    by apply slot_field_diverges.
Qed.

(** A fresh record is only written where there is none. *)
Lemma ensureShardStateExists_keeps (self : StateStore) (shardId : string)
    (shardData : ShardData) :
  keeps (depleted_in owner s) (ensureShardStateExists self shardId shardData).
Proof.
  unfold ensureShardStateExists. apply keeps_try_catch.
  2:{ intros e. apply keeps_rethrow, keeps_ret. }
  apply keeps_bind; [apply keeps_generate|]. intros version.
  apply keeps_client_update. intros doc doc' [HP|[_ HP]] Hcond Hact.
  2:{ by destruct HP as (d & ? & _). }
  destruct HP as (d & [= <-] & Hq). exists doc'. split; [done|].
  cbn [ConditionExpression ExpressionAttributeNames ExpressionAttributeValues
       UpdateExpression eval_condition apply_actions apply_action] in Hcond, Hact.
  assert (resolve_path (<["#b":=shardId]> (shardsPathNames self)) (shardsPath self ++ ["#b"])
          = Some (slot self shardId)) as Hres by (by destruct self as [? [|]]).
  rewrite Hres in Hcond, Hact. simpl in Hcond, Hact.
  rewrite lookup_singleton_eq in Hact. simpl in Hact.
  destruct (set_path (slot self shardId) _ doc) as [d1|] eqn:Hset; simpl in Hact; [|done].
  simplify_eq.
  destruct (slot_prefix_cases self owner shardId s) as [Heq|Hdiv].
  - rewrite Heq in Hcond. rewrite get_path_app in Hq.
    by destruct (get_path (slot owner s) doc).
  - by rewrite (get_set_path_diverges _ _ _ _ _ Hset Hdiv).
Qed.
End depleted_kept.

Lemma keeps_bind_post {A B} (P : option value → Prop) (Q : A → Prop) (m : M A) (k : A → M B) :
  keeps P m → (∀ w a w', m w = (inr a, w') → Q a) → (∀ a, Q a → keeps P (k a)) →
  keeps P (bind m k).
Proof.
  intros Hm HQ Hk w HP. unfold bind. specialize (Hm w HP). specialize (HQ w).
  destruct (m w) as [[e|a] w']; [done|]. apply Hk; [by eapply HQ|done].
Qed.

Lemma elem_of_concat_imap {A B} (f : nat → A → list B) (l : list A) (b : B) :
  b ∈ concat (imap f l) → ∃ i x, l !! i = Some x ∧ b ∈ f i x.
Proof.
  intros Hb. apply list_elem_of_In, in_concat in Hb as (bs & Hbs & Hin).
  apply list_elem_of_In, elem_of_lookup_imap in Hbs as (i & x & -> & Hx).
  exists i, x. split; [done|]. by apply list_elem_of_In.
Qed.

Section depleted_kept_more.
Variables (owner : StateStore) (s : string).

Lemma consumer_record_cases (cid : string) :
  (∃ rest, slot owner s ++ ["depleted"] = ["consumers"; cid] ++ rest) ∨
  diverges ["consumers"; cid] (slot owner s ++ ["depleted"]) = true.
Proof.
  destruct owner as [c [|]]; cbn [slot shards_root app diverges consumerId isStandalone].
  - rewrite String.eqb_refl. destruct (String.eqb cid c) eqn:Heq; [|by right].
    apply String.eqb_eq in Heq as ->. left. by eexists.
  - by right.
Qed.

Lemma registerConsumer_keeps (proc : Process) (self : StateStore) :
  keeps (depleted_in owner s) (registerConsumer proc self).
Proof.
  unfold registerConsumer.
  apply keeps_bind; [apply keeps_Date_now|]. intros heartbeat.
  apply keeps_try_catch.
  - apply keeps_client_update. intros doc doc' [HP|[_ HP]] Hcond Hact.
    2:{ by destruct HP as (d & ? & _). }
    destruct HP as (d & [= <-] & Hq). exists doc'. split; [done|].
    cbn [ConditionExpression ExpressionAttributeNames ExpressionAttributeValues
         UpdateExpression eval_condition apply_actions apply_action] in Hcond, Hact.
    assert (resolve_path (<["#b":=consumerId self]> {["#a" := "consumers"]}) ["#a"; "#b"]
            = Some ["consumers"; consumerId self]) as Hres by done.
    rewrite Hres in Hcond, Hact. simpl in Hcond, Hact.
    rewrite lookup_singleton_eq in Hact. simpl in Hact.
    destruct (set_path ["consumers"; consumerId self] _ doc) as [d1|] eqn:Hset;
      simpl in Hact; [|done].
    simplify_eq.
    destruct (consumer_record_cases (consumerId self)) as [[rest Heq]|Hdiv].
    + rewrite Heq, get_path_app in Hq.
      by destruct (get_path ["consumers"; consumerId self] doc).
    + by rewrite (get_set_path_diverges _ _ _ _ _ Hset Hdiv).
  - intros e. destruct (is_conditional_check_failed e); [|apply keeps_throw].
    apply keeps_try_catch; [|intros; apply keeps_ret].
    apply keeps_depleted_update.
    repeat apply Forall_cons_2; [..|by apply Forall_nil]; intros rp x Hrp _; left.
    vm_compute in Hrp. injection Hrp as <-.
    destruct owner as [c [|]]; simpl; [|done].
    by case_match.
Qed.
End depleted_kept_more.

Lemma resolve_path_ext (names1 names2 : gmap string string) (p : list string) :
  Forall (λ k, names1 !! k = names2 !! k) p →
  resolve_path names1 p = resolve_path names2 p.
Proof.
  unfold resolve_path. induction 1 as [|k p Hk _ IH]; [done|].
  simpl. by rewrite Hk, IH.
Qed.

Lemma resolve_path_lettered {A} (f : A → string) (l : list A) (base : gmap string string)
    (p : list string) :
  Forall lettered p →
  resolve_path
    (foldl (λ obj '(index, x), <[name_ref index := f x]> obj) (∅ : gmap string string) (indexed l)
     ∪ base) p
  = resolve_path base p.
Proof.
  intros Hp. apply resolve_path_ext. eapply Forall_impl; [exact Hp|].
  intros k (c & s & -> & Hc). apply lookup_union_r. by apply indexed_names_letter.
Qed.

Lemma shardsPath_lettered (self : StateStore) (tail : list string) :
  Forall lettered tail → Forall lettered (shardsPath self ++ tail).
Proof.
  intros Ht. apply Forall_app. split; [|done].
  unfold shardsPath. destruct (isStandalone self);
    repeat apply Forall_cons_2; try apply Forall_nil;
    do 2 eexists; (split; [reflexivity|letter]).
Qed.

Ltac lettered := do 2 eexists; (split; [reflexivity|letter]).

Section markShardAsDepleted_keeps.
Variables (owner : StateStore) (s : string).

Lemma markShardAsDepleted_keeps (self : StateStore) (shardsData : gmap string ShardData)
    (parentShardId : string) :
  keeps (depleted_in owner s) (markShardAsDepleted self shardsData parentShardId).
Proof.
  unfold markShardAsDepleted, getStreamState.
  apply keeps_bind; [apply keeps_client_get|]. intros Item.
  apply keeps_bind; [apply keeps_prop|]. intros shards.
  apply keeps_bind; [apply keeps_prop|]. intros parentShard.
  apply keeps_bind; [apply keeps_prop|]. intros checkpoint.
  cbv zeta.
  generalize (if truthy_opt checkpoint then childrenOf shardsData parentShardId else []).
  intros children.
  apply keeps_bind.
  { apply keeps_promise_all, Forall_forall. intros m Hm.
    apply list_elem_of_In, in_map_iff in Hm as (c & <- & _).
    destruct (shardsData !! child_shardId c);
      [apply ensureShardStateExists_keeps|apply keeps_throw]. }
  intros _.
  apply keeps_bind; [apply keeps_generate|]. intros y.
  apply (keeps_bind_post _ (λ values, ∃ u g, values = child_values u 0 g ∅ children)).
  { apply keeps_reduceM. intros obj [index c].
    apply keeps_bind; [apply keeps_generate|]. intros v. apply keeps_ret. }
  { intros w values w' Hrun. unfold indexed in Hrun.
    rewrite (child_values_run 0 ∅ children w) in Hrun. simplify_eq. eauto. }
  intros values (u & g & ->).
  apply keeps_depleted_update.
  cbn [ExpressionAttributeNames ExpressionAttributeValues UpdateExpression].
  set (base := (if Nat.ltb 0 (length children) then <["#e" := "checkpoint"]> else id)
        (<["#d" := "version"]> (<["#c" := "depleted"]> (<["#b" := parentShardId]>
          (shardsPathNames self))))).
  apply Forall_app. split.
  - repeat apply Forall_cons_2; [..|by apply Forall_nil]; intros rp x Hrp Hx.
    + rewrite resolve_path_lettered in Hrp by (apply shardsPath_lettered;
        repeat apply Forall_cons_2; try apply Forall_nil; lettered).
      assert (rp = slot self parentShardId ++ ["depleted"]) as ->.
      { subst base. destruct self as [? [|]], (Nat.ltb 0 (length children));
          vm_compute in Hrp; by injection Hrp as <-. }
      rewrite lookup_union_r in Hx by (rewrite child_values_letter by letter; done).
      assert (x = VBool true) as -> by (vm_compute in Hx; congruence).
      destruct (slot_depleted_cases self owner parentShardId s); [by right|by left].
    + rewrite resolve_path_lettered in Hrp by (apply shardsPath_lettered;
        repeat apply Forall_cons_2; try apply Forall_nil; lettered).
      assert (rp = slot self parentShardId ++ ["version"]) as ->.
      { subst base. destruct self as [? [|]], (Nat.ltb 0 (length children));
          vm_compute in Hrp; by injection Hrp as <-. }
      left. by apply slot_field_diverges.
  - apply Forall_forall. intros a Ha.
    apply elem_of_concat_imap in Ha as (i & c & Hc & Ha).
    assert (resolve_path base (shardsPath self) = Some (shards_root self)) as Hroot.
    { subst base. by destruct self as [? [|]], (Nat.ltb 0 (length children)). }
    assert (Nat.ltb 0 (length children) = true) as Hlen.
    { apply Nat.ltb_lt. apply lookup_lt_Some in Hc. lia. }
    assert (∀ (f field : string) rp,
      base !! f = Some field → String.eqb field "depleted" = false → lettered f →
      resolve_path
        (foldl (λ obj '(index, childShard), <[name_ref index := child_shardId childShard]> obj)
           (∅ : gmap string string) (indexed children) ∪ base)
        (shardsPath self ++ [name_ref i; f]) = Some rp →
      diverges rp (slot owner s ++ ["depleted"]) = true) as Hchild.
    { intros f field rp Hf Hfield Hlet Hrp.
      rewrite resolve_path_app in Hrp.
      rewrite (resolve_path_lettered _ _ _ (shardsPath self)) in Hrp
        by (pose proof (shardsPath_lettered self [] (Forall_nil_2 _)) as Hl;
            by rewrite app_nil_r in Hl).
      rewrite Hroot in Hrp. simpl in Hrp.
      unfold resolve_path in Hrp. simpl in Hrp.
      destruct (_ !! name_ref i) as [X|]; simpl in Hrp; [|done].
      rewrite lookup_union_r, Hf in Hrp.
      2:{ destruct Hlet as (c0 & s0 & -> & Hc0). by apply indexed_names_letter. }
      simpl in Hrp. injection Hrp as <-.
      change (shards_root self ++ [X; field]) with (shards_root self ++ [X] ++ [field]).
      rewrite app_assoc. by apply slot_field_diverges. }
    apply elem_of_cons in Ha as [->|Ha]; [|apply elem_of_cons in Ha as [->|Ha]].
    + intros rp x Hrp _. left. eapply (Hchild "#e" "checkpoint"); [|done|lettered|done].
      subst base. rewrite Hlen. by destruct self as [? [|]].
    + intros rp x Hrp _. left. eapply (Hchild "#d" "version"); [|done|lettered|done].
      subst base. rewrite Hlen. by destruct self as [? [|]].
    + by apply elem_of_nil in Ha.
Qed.
End markShardAsDepleted_keeps.

Ltac same_item :=
  simplify_eq; match goal with H : ∀ w0 : World, _ → depleted_in _ _ _ |- _ => by apply H end.

Section clearOldConsumers_keeps.
Variables (owner : StateStore) (s : string).

(** The update of [clearOldConsumers] when every consumer it removes is
    someone else than a standalone [owner]. *)
Lemma clear_update_keeps (oldConsumers : list string) (version : option value) :
  (isStandalone owner = true → consumerId owner ∉ oldConsumers) →
  keeps (depleted_in owner s)
    (try_catch
      (let* x := generate in
       client_update {|
         UpdateExpression :=
           imap (λ index _, REMOVE ["#a"; name_ref index]) oldConsumers ++ [SET ["#b"] ":x"];
         ConditionExpression := Some (path_equals ["#b"] ":y");
         ExpressionAttributeNames :=
           foldl (λ obj '(index, id), <[name_ref index := id]> obj) ∅ (indexed oldConsumers)
           ∪ <["#b" := "version"]> {["#a" := "consumers"]};
         ExpressionAttributeValues :=
           match version with
           | Some y => <[":y" := y]> {[":x" := VStr x]}
           | None => {[":x" := VStr x]}
           end
       |})
      (rethrow_unless_conditional (ret tt))).
Proof.
  intros Hother. apply keeps_try_catch; [|intros e; apply keeps_rethrow, keeps_ret].
  apply keeps_bind; [apply keeps_generate|]. intros x.
  apply keeps_depleted_update.
  cbn [ExpressionAttributeNames ExpressionAttributeValues UpdateExpression].
  apply Forall_app. split.
  - apply Forall_forall. intros a Ha.
    apply elem_of_lookup_imap in Ha as (i & id & -> & Hid).
    intros rp Hrp. unfold resolve_path in Hrp. simpl in Hrp.
    rewrite (lookup_union_r _ _ "#a") in Hrp
      by (apply (indexed_names_letter (λ x, x)); letter).
    rewrite (lookup_union_Some_l _ _ _ id) in Hrp
      by (apply (indexed_names_lookup (λ x, x)); done).
    vm_compute in Hrp. injection Hrp as <-.
    destruct owner as [c [|]]; simpl; [|done].
    destruct (String.eqb id c) eqn:Heq; [|done].
    apply String.eqb_eq in Heq as ->. destruct Hother; [done|].
    by apply list_elem_of_lookup_2 in Hid.
  - apply Forall_cons_2; [|by apply Forall_nil]. intros rp v Hrp _. left.
    unfold resolve_path in Hrp. simpl in Hrp.
    rewrite (lookup_union_r _ _ "#b") in Hrp
      by (apply (indexed_names_letter (λ x, x)); letter).
    vm_compute in Hrp. injection Hrp as <-.
    by destruct owner as [c [|]].
Qed.

Lemma clearOldConsumers_keeps (self : StateStore) (heartbeatFailureTimeout : Z) (w : World) :
  (isStandalone owner = true →
     ¬ stale_consumer (item w) (clock w) heartbeatFailureTimeout (consumerId owner)) →
  depleted_in owner s (item w) →
  depleted_in owner s (item (clearOldConsumers self heartbeatFailureTimeout w).2).
Proof.
  intros Hfresh HP.
  assert (∀ w0 : World, item w0 = item w → depleted_in owner s (item w0)) as Hsame
    by (by intros w0 ->).
  destruct (clearOldConsumers self heartbeatFailureTimeout w) as [r w'] eqn:Hrun. simpl.
  unfold clearOldConsumers, getStreamState, client_get in Hrun. unfold bind at 1 in Hrun.
  destruct (fault_of w (length (requests w))) as [e|]; [same_item|].
  set (w1 := log_request ReqGet w) in Hrun.
  destruct (item w) as [d|] eqn:Hitem;
    [|cbv [bind prop throw] in Hrun; same_item].
  destruct d as [| | | | |m];
    try (cbv [bind prop throw ret Object_keys] in Hrun; same_item).
  unfold bind at 1 in Hrun. unfold prop at 1, ret at 1 in Hrun.
  unfold bind at 1 in Hrun. unfold prop at 1, ret at 1 in Hrun.
  unfold bind at 1 in Hrun.
  destruct (m !! "consumers") as [[| | | | |cs]|] eqn:Hcs;
    try (cbv [bind prop throw ret Object_keys reduceM] in Hrun; simpl in Hrun;
         same_item).
  unfold Object_keys, ret at 1 in Hrun. unfold bind at 1 in Hrun.
  change (reduceM _ (map fst (map_to_list cs)) [] w1)
    with (reduceM (old_consumer_step (Some (VMap cs)) heartbeatFailureTimeout)
            (map fst (map_to_list cs)) [] w1) in Hrun.
  destruct (old_consumers_sound cs heartbeatFailureTimeout (map fst (map_to_list cs)) [] w1)
    as [Hw Hold].
  destruct (reduceM _ _ _ w1) as [[e|old] w2]; simpl in Hw; subst w2; [same_item|].
  destruct (Nat.eqb (length old) 0); [unfold ret in Hrun; same_item|].
  assert (item w1 = Some (VMap m)) as Hitem1 by done.
  rewrite <- Hitem1 in HP.
  assert (isStandalone owner = true → consumerId owner ∉ old) as Hother.
  { intros Hsa Hin. apply (Hfresh Hsa).
    destruct (Hold old eq_refl _ Hin) as [Hnil|(rec & t & Hrec & Ht & Hlt)].
    { by apply elem_of_nil in Hnil. }
    exists (VMap m), rec, t. repeat split; [|done..].
    simpl. rewrite Hcs. simpl. by rewrite Hrec. }
  pose proof (clear_update_keeps old (m !! "version") Hother w1 HP) as Hk.
  by rewrite Hrun in Hk.
Qed.
End clearOldConsumers_keeps.

Lemma ensureShardStateExists_present (self : StateStore) (shardId : string)
    (shardData : ShardData) (w : World) (x : value) :
  get_path (slot self shardId) (item_or_empty (item w)) = Some x →
  item (ensureShardStateExists self shardId shardData w).2 = item w.
Proof.
  intros Hslot. unfold ensureShardStateExists, try_catch, bind, generate, client_update.
  cbn [fault_of requests bump_generated item].
  destruct (fault_of w (length (requests w))) as [e|].
  { unfold rethrow_unless_conditional. by destruct (is_conditional_check_failed e). }
  cbn [ConditionExpression ExpressionAttributeNames ExpressionAttributeValues
       UpdateExpression eval_condition].
  assert (resolve_path (<["#b":=shardId]> (shardsPathNames self)) (shardsPath self ++ ["#b"])
          = Some (slot self shardId)) as -> by (by destruct self as [? [|]]).
  simpl. by rewrite Hslot.
Qed.

(** C3, as the code has it.  A slot that is marked as depleted stays so
    through every call of the State Store, by any instance, except that
    [clearOldConsumers] may remove the record of a standalone consumer whose
    heartbeat is stale, and with it the slots that this consumer keeps under
    its own record.  So for the slots of the auto-assignment mode depletion is
    terminal through any history of calls.  [ensureShardStateExists] changes
    nothing when the slot is there. *)
Theorem depleted_is_kept (owner : StateStore) (s : string) :
  (∀ self c w,
     depleted_in owner s (item w) →
     (∀ timeout, c = ClearOldConsumers timeout → isStandalone owner = true →
        ¬ stale_consumer (item w) (clock w) timeout (consumerId owner)) →
     depleted_in owner s (item (call self c w))) ∧
  (isStandalone owner = false →
   ∀ steps w, depleted_in owner s (item w) → depleted_in owner s (item (history steps w))) ∧
  (∀ self shardId shardData w x,
     get_path (slot self shardId) (item_or_empty (item w)) = Some x →
     item (ensureShardStateExists self shardId shardData w).2 = item w).
Proof.
  assert (∀ self c w,
     depleted_in owner s (item w) →
     (∀ timeout, c = ClearOldConsumers timeout → isStandalone owner = true →
        ¬ stale_consumer (item w) (clock w) timeout (consumerId owner)) →
     depleted_in owner s (item (call self c w))) as Hstep.
  { intros self c w HP Hclear. destruct c; simpl.
    - by apply ensureShardStateExists_keeps.
    - by apply lockShardLease_keeps.
    - by apply releaseShardLease_keeps.
    - by apply storeShardCheckpoint_keeps.
    - by apply markShardAsDepleted_keeps.
    - by apply registerConsumer_keeps.
    - apply clearOldConsumers_keeps; [|done]. by apply Hclear. }
  split; [done|]. split.
  - intros Hauto steps. induction steps as [|[[t self] c] steps IH]; intros w HP; [done|].
    simpl. apply IH, Hstep; [done|]. intros timeout _ Hsa. congruence.
  - intros self shardId shardData w x. apply ensureShardStateExists_present.
Qed.

(** ** The update of [markShardAsDepleted] *)

(** With the placeholders resolved, the one update that ends
    [markShardAsDepleted] sets the flag and the version of the parent and then,
    child by child, the checkpoint and the version of the children; [u] and
    [g] say which tokens the children got. *)
Lemma depletion_edits (self : StateStore) (parentShardId : string)
    (childrenShards : list ChildShard) (u : nat → string) (g : nat) (y : string) (doc : value) :
  apply_actions
    (foldl (λ obj '(index, childShard), <[name_ref index := child_shardId childShard]> obj)
       ∅ (indexed childrenShards)
     ∪ (if Nat.ltb 0 (length childrenShards) then <["#e" := "checkpoint"]> else id)
         (<["#d" := "version"]> (<["#c" := "depleted"]> (<["#b" := parentShardId]>
           (shardsPathNames self)))))
    (child_values u 0 g ∅ childrenShards ∪ <[":y" := VStr y]> {[":x" := VBool true]})
    ([ SET (shardsPath self ++ ["#b"; "#c"]) ":x";
       SET (shardsPath self ++ ["#b"; "#d"]) ":y" ]
     ++ concat (imap (λ index _,
          [ SET (shardsPath self ++ [name_ref index; "#e"]) (value_ref (index * 2));
            SET (shardsPath self ++ [name_ref index; "#d"]) (value_ref (index * 2 + 1)) ])
          childrenShards)) doc
  = set_fields (slot self parentShardId)
      [("depleted", VBool true); ("version", VStr y)] doc
    ≫= seed_children (shards_root self) u g childrenShards.
Proof.
  set (base := (if Nat.ltb 0 (length childrenShards) then <["#e" := "checkpoint"]> else id)
        (<["#d" := "version"]> (<["#c" := "depleted"]> (<["#b" := parentShardId]>
          (shardsPathNames self))))).
  set (names := _ ∪ base). set (vals := _ ∪ _).
  assert (Hroot : resolve_path names (shardsPath self) = Some (shards_root self)).
  { unfold names. pose proof (shardsPath_lettered self [] (Forall_nil_2 _)) as Hl.
    rewrite app_nil_r in Hl. rewrite resolve_path_lettered by done.
    subst base. by destruct self as [? [|]], (Nat.ltb 0 (length childrenShards)). }
  assert (Hbase : ∀ c s, is_letter c →
            names !! String "#"%char (String c s) = base !! String "#"%char (String c s)).
  { intros c s Hc. unfold names. apply lookup_union_r. by apply indexed_names_letter. }
  assert (Hvals : ∀ c s, is_letter c →
            vals !! String ":"%char (String c s) =
            (<[":y" := VStr y]> {[":x" := VBool true]} : gmap string value)
              !! String ":"%char (String c s)).
  { intros c s Hc. unfold vals. apply lookup_union_r.
    by rewrite child_values_letter by done. }
  assert (Hb : names !! "#b" = Some parentShardId).
  { rewrite Hbase by letter. subst base.
    by destruct self as [? [|]], (Nat.ltb 0 (length childrenShards)). }
  assert (Hc : names !! "#c" = Some "depleted").
  { rewrite Hbase by letter. subst base.
    by destruct self as [? [|]], (Nat.ltb 0 (length childrenShards)). }
  assert (Hd : names !! "#d" = Some "version").
  { rewrite Hbase by letter. subst base.
    by destruct self as [? [|]], (Nat.ltb 0 (length childrenShards)). }
  rewrite apply_actions_app.
  cbn [apply_actions apply_action set_fields].
  rewrite (resolve_path_two names _ _ _ _ _ _ Hroot Hb Hc).
  rewrite (resolve_path_two names _ _ _ _ _ _ Hroot Hb Hd).
  rewrite (Hvals "x"%char "") by letter. rewrite (Hvals "y"%char "") by letter.
  change ((<[":y" := VStr y]> {[":x" := VBool true]} : gmap string value) !! ":x")
    with (Some (VBool true)).
  change ((<[":y" := VStr y]> {[":x" := VBool true]} : gmap string value) !! ":y")
    with (Some (VStr y)).
  cbn [mbind option_bind]. unfold slot. rewrite <- !app_assoc.
  destruct (set_path (shards_root self ++ [parentShardId] ++ ["depleted"]) _ doc) as [d1|];
    cbn [mbind option_bind]; [|done].
  destruct (set_path (shards_root self ++ [parentShardId] ++ ["version"]) _ d1) as [d2|];
    cbn [mbind option_bind]; [|done].
  destruct childrenShards as [|c l]; [done|].
  apply (children_actions names vals (shardsPath self) (shards_root self) u (c :: l) 0 g d2);
    [done| |done|].
  - rewrite Hbase by letter. subst base. by destruct self as [? [|]].
  - intros i c' Hi. simpl Nat.add. split; [|split].
    + unfold names. erewrite lookup_union_Some_l; [done|].
      by apply (indexed_names_lookup child_shardId).
    + unfold vals. erewrite lookup_union_Some_l; [done|].
      by apply (child_values_lookup u 0 g ∅ (c :: l) i c').
    + unfold vals. erewrite lookup_union_Some_l; [done|].
      by apply (child_values_lookup u 0 g ∅ (c :: l) i c').
Qed.

(** ** [markShardAsDepleted] with automatic shard assignment *)

Lemma with_shards_id (doc tops : gmap string value) :
  doc !! "shards" = Some (VMap tops) → VMap doc = with_shards doc tops.
Proof. intros H. unfold with_shards. by rewrite insert_id. Qed.

Lemma with_shards_get (doc tops : gmap string value) :
  get_path ["shards"] (with_shards doc tops) = Some (VMap tops).
Proof. unfold with_shards. simpl. by rewrite lookup_insert_eq. Qed.

Lemma with_shards_set (doc tops tops' : gmap string value) :
  set_path ["shards"] (VMap tops') (with_shards doc tops) = Some (with_shards doc tops').
Proof. unfold with_shards. simpl. by rewrite insert_insert_eq. Qed.

Lemma with_shards_get_record (doc tops : gmap string value) (k : string) :
  get_path ["shards"; k] (with_shards doc tops) = tops !! k.
Proof.
  change ["shards"; k] with (["shards"] ++ [k]).
  rewrite get_path_app, with_shards_get. simpl. by destruct (tops !! k).
Qed.

Lemma with_shards_set_record (doc tops : gmap string value) (k : string) (x : value) :
  set_path ["shards"; k] x (with_shards doc tops) = Some (with_shards doc (<[k := x]> tops)).
Proof.
  change ["shards"; k] with (["shards"] ++ [k]).
  rewrite (set_path_snoc _ _ _ _ _ (with_shards_get doc tops)). apply with_shards_set.
Qed.

Lemma with_shards_edit (doc tops r : gmap string value) (k : string)
    (kvs : list (string * value)) :
  tops !! k = Some (VMap r) →
  set_fields ["shards"; k] kvs (with_shards doc tops)
  = Some (with_shards doc (edit_record k kvs tops)).
Proof.
  intros Hk. rewrite (set_fields_spec _ _ _ r) by by rewrite with_shards_get_record.
  rewrite with_shards_set_record. unfold edit_record. by rewrite Hk.
Qed.

(** What a call leaves of the world apart from the item: [n] tokens were
    drawn and the requests [rs] sent. *)
Lemma ensureShardStateExists_auto (self : StateStore) (k : string) (shardData : ShardData)
    (w : World) (doc tops : gmap string value) :
  isStandalone self = false →
  fault_of w (length (requests w)) = None →
  item w = Some (with_shards doc tops) →
  let run := ensureShardStateExists self k shardData w in
  run.1 = inr tt ∧
  item run.2 = Some (with_shards doc
    match tops !! k with
    | Some _ => tops
    | None => <[k := new_shard_record shardData (uuid_of w (generated w))]> tops
    end) ∧
  generated run.2 = S (generated w) ∧
  uuid_of run.2 = uuid_of w ∧
  fault_of run.2 = fault_of w ∧
  ∃ params, requests run.2 = requests w ++ [ReqUpdate params].
Proof.
  intros Hauto Hfault Hitem.
  unfold ensureShardStateExists, try_catch, bind, generate, client_update.
  cbn [fault_of requests bump_generated item]. rewrite Hfault.
  cbn [ConditionExpression ExpressionAttributeNames ExpressionAttributeValues
       UpdateExpression eval_condition apply_actions apply_action].
  assert (resolve_path (<["#b":=k]> (shardsPathNames self)) (shardsPath self ++ ["#b"])
          = Some ["shards"; k]) as ->.
  { destruct self as [? [|]]; [done|]. done. }
  rewrite Hitem. cbn [item_or_empty mbind option_bind].
  rewrite with_shards_get_record.
  destruct (tops !! k) as [x|] eqn:Hk.
  - simpl. do 5 (split; [done|]). by eexists.
  - rewrite lookup_singleton_eq. cbn [mbind option_bind].
    rewrite with_shards_set_record. simpl. do 5 (split; [done|]). by eexists.
Qed.

Lemma ensure_all_auto (self : StateStore) (shardsData : gmap string ShardData)
    (l : list ChildShard) (w : World) (doc tops : gmap string value) :
  isStandalone self = false →
  (∀ n, fault_of w n = None) →
  item w = Some (with_shards doc tops) →
  Forall (λ c, is_Some (shardsData !! child_shardId c)) l →
  let run :=
    promise_all
      (map (λ childrenShard,
              match shardsData !! child_shardId childrenShard with
              | Some shardData =>
                  ensureShardStateExists self (child_shardId childrenShard) shardData
              | None => throw (TypeError "Cannot destructure property 'parent' of undefined")
              end) l) w in
  (∃ r, run.1 = inr r) ∧
  item run.2 =
    Some (with_shards doc (ensure_children shardsData (uuid_of w) (generated w) l tops)) ∧
  generated run.2 = (length l + generated w)%nat ∧
  uuid_of run.2 = uuid_of w ∧
  fault_of run.2 = fault_of w ∧
  ∃ sent, requests run.2 = requests w ++ sent ∧ length sent = length l.
Proof.
  intros Hauto. revert w tops. induction l as [|c l IH]; intros w tops Hfault Hitem Hl.
  { simpl. split; [by eexists|]. do 4 (split; [done|]). exists []. by rewrite app_nil_r. }
  apply Forall_cons in Hl as [[shardData Hc] Hl].
  cbn [map promise_all ensure_children]. rewrite Hc.
  destruct (ensureShardStateExists_auto self (child_shardId c) shardData w doc tops
              Hauto (Hfault _) Hitem) as (Hr & Hitem1 & Hg1 & Hu1 & Hf1 & params & Hn1).
  destruct (ensureShardStateExists self (child_shardId c) shardData w) as [r1 w1].
  simpl in Hr, Hitem1, Hg1, Hu1, Hf1, Hn1. subst r1.
  specialize (IH w1 _ (λ n, eq_trans (f_equal (λ f, f n) Hf1) (Hfault n)) Hitem1 Hl).
  cbv zeta in IH. destruct IH as ([r Hr] & Hitem2 & Hg2 & Hu2 & Hf2 & sent & Hn2 & Hlen).
  destruct (promise_all _ w1) as [r2 w2]. simpl in Hr, Hitem2, Hg2, Hu2, Hf2, Hn2.
  subst r2. simpl. rewrite Hitem2, Hg2, Hu2, Hf2, Hn2, Hu1, Hg1, Hf1, Hn1.
  split; [by eexists|]. split.
  - do 2 f_equal; try by destruct (tops !! child_shardId c).
  - split; [lia|]. split; [done|]. split; [done|].
    exists (ReqUpdate params :: sent). rewrite <- app_assoc. simpl. by rewrite Hlen.
Qed.

Lemma edit_record_lookup (k j : string) (kvs : list (string * value))
    (tops : gmap string value) :
  edit_record k kvs tops !! j =
  if decide (j = k) then
    match tops !! k with
    | Some (VMap r) => Some (VMap (insert_fields kvs r))
    | other => other
    end
  else tops !! j.
Proof.
  unfold edit_record. destruct (decide (j = k)) as [->|Hne].
  - destruct (tops !! k) as [[| | | | |r]|] eqn:Hk; rewrite ?lookup_insert_eq; done.
  - destruct (tops !! k) as [[| | | | |r]|] eqn:Hk; rewrite ?lookup_insert_ne; done.
Qed.

Lemma edit_record_records (k : string) (kvs : list (string * value))
    (tops : gmap string value) :
  records tops → records (edit_record k kvs tops).
Proof.
  intros Htops j v. rewrite edit_record_lookup. destruct (decide (j = k)) as [->|Hne].
  - destruct (tops !! k) as [[| | | | |r]|] eqn:Hk; intros [= <-]; eauto;
      by destruct (Htops k _ Hk).
  - apply Htops.
Qed.

Lemma edit_record_is_Some (k j : string) (kvs : list (string * value))
    (tops : gmap string value) :
  is_Some (edit_record k kvs tops !! j) ↔ is_Some (tops !! j).
Proof.
  rewrite edit_record_lookup. destruct (decide (j = k)) as [->|Hne]; [|done].
  destruct (tops !! k) as [[| | | | |r]|]; split; by eauto.
Qed.

Lemma ensure_children_subseteq (shardsData : gmap string ShardData) (u : nat → string)
    (g : nat) (l : list ChildShard) (tops : gmap string value) :
  tops ⊆ ensure_children shardsData u g l tops.
Proof.
  revert g tops. induction l as [|c l IH]; intros g tops; [done|].
  simpl. etrans; [|apply IH].
  destruct (tops !! child_shardId c) eqn:Hc; [done|].
  destruct (shardsData !! child_shardId c); [|done].
  by apply insert_subseteq.
Qed.

Lemma ensure_children_records (shardsData : gmap string ShardData) (u : nat → string)
    (g : nat) (l : list ChildShard) (tops : gmap string value) :
  records tops → records (ensure_children shardsData u g l tops).
Proof.
  revert g tops. induction l as [|c l IH]; intros g tops Htops; [done|].
  simpl. apply IH.
  destruct (tops !! child_shardId c) eqn:Hc; [done|].
  destruct (shardsData !! child_shardId c); [|done].
  intros j v. destruct (decide (j = child_shardId c)) as [->|Hne].
  - rewrite lookup_insert_eq. intros [= <-]. by eexists.
  - rewrite lookup_insert_ne by done. apply Htops.
Qed.

Lemma ensure_children_is_Some (shardsData : gmap string ShardData) (u : nat → string)
    (g : nat) (l : list ChildShard) (tops : gmap string value) :
  Forall (λ c, is_Some (shardsData !! child_shardId c)) l →
  Forall (λ c, is_Some (ensure_children shardsData u g l tops !! child_shardId c)) l.
Proof.
  revert g tops. induction l as [|c l IH]; intros g tops Hl; [done|].
  apply Forall_cons in Hl as [[shardData Hc] Hl]. simpl. rewrite Hc.
  apply Forall_cons. split; [|by apply IH].
  eapply lookup_weaken_is_Some; [|apply ensure_children_subseteq].
  destruct (tops !! child_shardId c) eqn:Hk; [by rewrite Hk|].
  by rewrite lookup_insert_eq.
Qed.

(** A child without a record gets one with its parent and without checkpoint. *)
Lemma ensure_children_new (shardsData : gmap string ShardData) (u : nat → string)
    (g : nat) (l : list ChildShard) (tops : gmap string value) (k : string) :
  tops !! k = None →
  is_Some (ensure_children shardsData u g l tops !! k) →
  ∃ shardData n, shardsData !! k = Some shardData ∧ (g ≤ n < g + length l)%nat ∧
    ensure_children shardsData u g l tops !! k = Some (new_shard_record shardData (u n)).
Proof.
  revert g tops. induction l as [|c l IH]; intros g tops Hk Hsome.
  { simpl in Hsome. rewrite Hk in Hsome. by destruct Hsome. }
  simpl in Hsome |- *.
  destruct (tops !! child_shardId c) eqn:Hc.
  { destruct (IH (S g) tops Hk Hsome) as (sd & n & ? & ? & ?).
    exists sd, n. repeat split; [done|lia..|done]. }
  destruct (shardsData !! child_shardId c) as [shardData|] eqn:Hsd.
  2:{ destruct (IH (S g) tops Hk Hsome) as (sd & n & ? & ? & ?).
      exists sd, n. repeat split; [done|lia..|done]. }
  destruct (decide (k = child_shardId c)) as [->|Hne].
  - exists shardData, g. repeat split; [done|lia..|].
    eapply lookup_weaken; [|apply ensure_children_subseteq]. by rewrite lookup_insert_eq.
  - rewrite <- (lookup_insert_ne tops (child_shardId c) k
                 (new_shard_record shardData (u g))) in Hk by done.
    destruct (IH (S g) _ Hk Hsome) as (sd & n & ? & ? & ?).
    exists sd, n. repeat split; [done|lia..|done].
Qed.

Lemma seed_children_auto (u : nat → string) (g : nat) (l : list ChildShard)
    (doc tops : gmap string value) :
  records tops →
  Forall (λ c, is_Some (tops !! child_shardId c)) l →
  seed_children ["shards"] u g l (with_shards doc tops)
  = Some (with_shards doc (seed_records u g l tops)).
Proof.
  revert g tops. induction l as [|c l IH]; intros g tops Htops Hl; [done|].
  apply Forall_cons in Hl as [[v Hc] Hl]. destruct (Htops _ _ Hc) as [r ->].
  cbn [seed_children seed_records].
  change (["shards"] ++ [child_shardId c]) with ["shards"; child_shardId c].
  rewrite (with_shards_edit doc tops r) by done. cbn [mbind option_bind].
  apply IH; [by apply edit_record_records|].
  eapply Forall_impl; [exact Hl|]. intros c' Hc'. by apply edit_record_is_Some.
Qed.

Lemma seed_records_other (u : nat → string) (g : nat) (l : list ChildShard)
    (tops : gmap string value) (k : string) :
  k ∉ child_shardId <$> l → seed_records u g l tops !! k = tops !! k.
Proof.
  revert g tops. induction l as [|c l IH]; intros g tops Hk; [done|].
  rewrite fmap_cons in Hk. apply not_elem_of_cons in Hk as [Hne Hk].
  simpl. rewrite IH by done. rewrite edit_record_lookup. by destruct (decide _).
Qed.

Lemma seed_records_child (u : nat → string) (g : nat) (l : list ChildShard)
    (tops r : gmap string value) (i : nat) (c : ChildShard) :
  NoDup (child_shardId <$> l) →
  l !! i = Some c →
  tops !! child_shardId c = Some (VMap r) →
  seed_records u g l tops !! child_shardId c =
  Some (VMap (<["version" := VStr (u (g + i)%nat)]>
               (<["checkpoint" := VStr (child_startingSequenceNumber c)]> r))).
Proof.
  revert g tops i. induction l as [|c' l IH]; intros g tops i Hnd Hi Hc; [done|].
  rewrite fmap_cons in Hnd. apply NoDup_cons in Hnd as [Hnotin Hnd].
  destruct i as [|i]; simpl in Hi.
  - injection Hi as ->. simpl. rewrite seed_records_other by done.
    rewrite edit_record_lookup, decide_True by done. rewrite Hc.
    by replace (g + 0)%nat with g by lia.
  - simpl. replace (g + S i)%nat with (S g + i)%nat by lia.
    apply IH; [done..|].
    rewrite edit_record_lookup, decide_False; [done|].
    intros Heq. apply Hnotin. rewrite <- Heq.
    apply list_elem_of_fmap_2. by eapply list_elem_of_lookup_2.
Qed.

(** The children's edits leave the other attributes of every record alone,
    and a version that was a token is a token still. *)
Lemma seed_records_kept (u : nat → string) (g : nat) (l : list ChildShard)
    (tops r : gmap string value) (k : string) (n : nat) :
  tops !! k = Some (VMap r) →
  r !! "version" = Some (VStr (u n)) →
  ∃ r' n',
    seed_records u g l tops !! k = Some (VMap r') ∧
    (∀ f, f ≠ "checkpoint" → f ≠ "version" → r' !! f = r !! f) ∧
    r' !! "version" = Some (VStr (u n')) ∧
    (n' = n ∨ (g ≤ n' < g + length l)%nat).
Proof.
  revert g tops r n. induction l as [|c l IH]; intros g tops r n Hk Hversion.
  { exists r, n. repeat split; try done. by left. }
  simpl. set (tops1 := edit_record _ _ tops).
  destruct (decide (k = child_shardId c)) as [Heq|Hne].
  - edestruct (IH (S g) tops1) as (r' & n' & Hr' & Hf & Hv & Hn').
    { unfold tops1. by rewrite edit_record_lookup, decide_True, <- Heq, Hk by done. }
    { simpl. by rewrite lookup_insert_eq. }
    exists r', n'. split; [done|]. split; [|split; [done|]].
    + intros f Hcp Hver. rewrite Hf by done. simpl.
      by rewrite !lookup_insert_ne.
    + right. destruct Hn' as [->|?]; lia.
  - edestruct (IH (S g) tops1) as (r' & n' & Hr' & Hf & Hv & Hn').
    { unfold tops1. by rewrite edit_record_lookup, decide_False by done. }
    { done. }
    exists r', n'. split; [done|]. split; [done|]. split; [done|].
    destruct Hn' as [->|?]; [by left|right; lia].
Qed.

(** The children that [markShardAsDepleted] picks from the lineage. *)
Lemma childrenOf_ids (shardsData : gmap string ShardData) (parentShardId : string) :
  child_shardId <$> childrenOf shardsData parentShardId =
  (filter (λ kv, parent kv.2 = Some parentShardId) (map_to_list shardsData)).*1.
Proof.
  unfold childrenOf.
  generalize (filter (λ kv : string * ShardData, parent kv.2 = Some parentShardId)
                (map_to_list shardsData)).
  induction l as [|kv l IH]; [done|]. cbn [map]. rewrite !fmap_cons. by rewrite <- IH.
Qed.

Lemma childrenOf_NoDup (shardsData : gmap string ShardData) (parentShardId : string) :
  NoDup (child_shardId <$> childrenOf shardsData parentShardId).
Proof.
  rewrite childrenOf_ids. apply (sublist_NoDup _ ((map_to_list shardsData).*1)).
  - apply NoDup_fst_map_to_list.
  - apply fmap_sublist, sublist_filter.
Qed.

Lemma childrenOf_elem (shardsData : gmap string ShardData) (parentShardId : string)
    (c : ChildShard) :
  c ∈ childrenOf shardsData parentShardId ↔
  ∃ shardData, shardsData !! child_shardId c = Some shardData ∧
               parent shardData = Some parentShardId ∧
               child_startingSequenceNumber c = startingSequenceNumber shardData.
Proof.
  unfold childrenOf.
  change (map ?f ?l) with (f <$> l). rewrite list_elem_of_fmap. split.
  - intros ([k shardData] & -> & [Hparent Hin%elem_of_map_to_list]%list_elem_of_filter).
    by exists shardData.
  - intros (shardData & Hc & Hparent & Hssn).
    exists (child_shardId c, shardData). split; [destruct c; simpl in *; by subst|].
    apply list_elem_of_filter. split; [done|]. by apply elem_of_map_to_list.
Qed.

Lemma child_values_indexed (l : list ChildShard) (w : World) :
  reduceM (λ obj '(index, childShard),
      let* v := generate in
      ret (<[value_ref (index * 2 + 1) := VStr v]>
            (<[value_ref (index * 2) := VStr (child_startingSequenceNumber childShard)]> obj)))
    (indexed l) ∅ w
  = (inr (child_values (uuid_of w) 0 (generated w) ∅ l), advance (length l) w).
Proof. apply (child_values_run 0). Qed.

Lemma markShardAsDepleted_auto_run (self : StateStore) (shardsData : gmap string ShardData)
    (parentShardId : string) (w : World) (doc tops parentShard : gmap string value) :
  isStandalone self = false →
  (∀ n, fault_of w n = None) →
  item w = Some (VMap doc) →
  doc !! "shards" = Some (VMap tops) →
  records tops →
  tops !! parentShardId = Some (VMap parentShard) →
  let childrenShards :=
    if truthy_opt (parentShard !! "checkpoint") then childrenOf shardsData parentShardId
    else [] in
  let g := (length childrenShards + generated w)%nat in
  let ensured := ensure_children shardsData (uuid_of w) (generated w) childrenShards tops in
  let tops' :=
    seed_records (uuid_of w) (S g) childrenShards
      (edit_record parentShardId
         [("depleted", VBool true); ("version", VStr (uuid_of w g))] ensured) in
  let run := markShardAsDepleted self shardsData parentShardId w in
  run.1 = inr tt ∧
  item run.2 = Some (with_shards doc tops') ∧
  generated run.2 = (length childrenShards + S g)%nat ∧
  ∃ sent params,
    requests run.2 = requests w ++ [ReqGet] ++ sent ++ [ReqUpdate params] ∧
    length sent = length childrenShards ∧
    ConditionExpression params = None ∧
    apply_actions (ExpressionAttributeNames params) (ExpressionAttributeValues params)
      (UpdateExpression params) (with_shards doc ensured) = Some (with_shards doc tops').
Proof.
  intros Hauto Hfault Hitem Hshards Htops Hparent childrenShards g ensured tops' run.
  assert (Hchildren : Forall (λ c, is_Some (shardsData !! child_shardId c)) childrenShards).
  { unfold childrenShards. destruct (truthy_opt _); [|done].
    apply Forall_forall. intros c (shardData & Hc & _)%childrenOf_elem. by eexists. }
  assert (Hrun : run = markShardAsDepleted self shardsData parentShardId w) by done.
  clearbody run.
  unfold markShardAsDepleted, getStreamState in Hrun.
  unfold bind at 1, client_get in Hrun. rewrite Hfault, Hitem in Hrun.
  unfold bind at 1, prop at 1, ret at 1 in Hrun. rewrite Hshards in Hrun.
  unfold bind at 1, prop at 1, ret at 1 in Hrun. rewrite Hparent in Hrun.
  unfold bind at 1, prop at 1, ret at 1 in Hrun. cbv zeta in Hrun.
  fold childrenShards in Hrun.
  set (w1 := log_request ReqGet w) in Hrun.
  destruct (ensure_all_auto self shardsData childrenShards w1 doc tops Hauto Hfault)
    as ([r Hr] & Hitem2 & Hg2 & Hu2 & Hf2 & sent & Hsent & Hlen); [|done|].
  { simpl. rewrite Hitem. f_equal. by apply with_shards_id. }
  unfold bind at 1 in Hrun. destruct (promise_all _ w1) as [r2 w2].
  simpl in Hr, Hitem2, Hg2, Hu2, Hf2, Hsent. subst r2.
  unfold bind at 1, generate at 1 in Hrun. unfold bind at 1 in Hrun.
  rewrite (child_values_indexed childrenShards (bump_generated w2)) in Hrun.
  unfold client_update in Hrun.
  cbn [fault_of requests bump_generated advance item generated uuid_of
       ConditionExpression ExpressionAttributeNames ExpressionAttributeValues
       UpdateExpression log_request] in Hrun.
  rewrite Hf2, Hfault, Hitem2, Hu2, Hg2 in Hrun. cbn [item_or_empty] in Hrun.
  fold g ensured in Hrun.
  assert (Hensured : ensured !! parentShardId = Some (VMap parentShard)).
  { eapply lookup_weaken; [done|]. apply ensure_children_subseteq. }
  assert (Hseed : set_fields (slot self parentShardId)
                    [("depleted", VBool true); ("version", VStr (uuid_of w g))]
                    (with_shards doc ensured) ≫=
                  seed_children (shards_root self) (uuid_of w) (S g) childrenShards
                  = Some (with_shards doc tops')).
  { assert (slot self parentShardId = ["shards"; parentShardId]) as ->.
    { unfold slot, shards_root. by rewrite Hauto. }
    assert (shards_root self = ["shards"]) as -> by (unfold shards_root; by rewrite Hauto).
    rewrite (with_shards_edit doc ensured parentShard) by done. cbn [mbind option_bind].
    apply seed_children_auto.
    - by apply edit_record_records, ensure_children_records.
    - eapply Forall_impl;
        [exact (ensure_children_is_Some shardsData (uuid_of w) (generated w)
                  childrenShards tops Hchildren)|].
      intros c Hc. by rewrite edit_record_is_Some. }
  rewrite depletion_edits, Hseed in Hrun. subst run. simpl.
  split; [done|]. split; [done|]. split; [lia|].
  exists sent. eexists. split; [|split; [done|split; [|]]].
  - rewrite Hsent. simpl. by rewrite <- !app_assoc.
  - done.
  - cbn [ExpressionAttributeNames ExpressionAttributeValues UpdateExpression].
    rewrite depletion_edits. exact Hseed.
Qed.

(** With automatic shard assignment, on a document that holds the parent's
    record among its shard records and with a client that answers:
    [markShardAsDepleted] succeeds; its last request is an update without
    condition which, applied to the document as it was but for the child
    records created before it, gives the final document; there the parent is
    depleted with a token of this call for version; when the parent had a
    checkpoint every child of the lineage has its starting sequence number for
    checkpoint and a token of this call for version; when it had none, the
    get and that update are the only requests and no other record
    changes. *)
Theorem markShardAsDepleted_auto (self : StateStore) (shardsData : gmap string ShardData)
    (parentShardId : string) (w : World) (doc tops parentShard : gmap string value) :
  isStandalone self = false →
  (∀ n, fault_of w n = None) →
  item w = Some (VMap doc) →
  doc !! "shards" = Some (VMap tops) →
  records tops →
  tops !! parentShardId = Some (VMap parentShard) →
  let run := markShardAsDepleted self shardsData parentShardId w in
  let fresh (v : option value) :=
    ∃ n, v = Some (VStr (uuid_of w n)) ∧ (generated w ≤ n < generated run.2)%nat in
  ∃ ensured tops' sent params,
    run.1 = inr tt ∧
    item run.2 = Some (with_shards doc tops') ∧
    requests run.2 = requests w ++ [ReqGet] ++ sent ++ [ReqUpdate params] ∧
    tops ⊆ ensured ∧
    ConditionExpression params = None ∧
    apply_actions (ExpressionAttributeNames params) (ExpressionAttributeValues params)
      (UpdateExpression params) (with_shards doc ensured) = Some (with_shards doc tops') ∧
    (∃ r, tops' !! parentShardId = Some (VMap r) ∧
          r !! "depleted" = Some (VBool true) ∧ fresh (r !! "version")) ∧
    (truthy_opt (parentShard !! "checkpoint") = true →
       ∀ k shardData, shardsData !! k = Some shardData →
         parent shardData = Some parentShardId →
         ∃ r, tops' !! k = Some (VMap r) ∧
              r !! "checkpoint" = Some (VStr (startingSequenceNumber shardData)) ∧
              fresh (r !! "version")) ∧
    (truthy_opt (parentShard !! "checkpoint") = false →
       sent = [] ∧ ∀ k, k ≠ parentShardId → tops' !! k = tops !! k).
Proof.
  intros Hauto Hfault Hitem Hshards Htops Hparent run fresh.
  destruct (markShardAsDepleted_auto_run self shardsData parentShardId w doc tops parentShard
              Hauto Hfault Hitem Hshards Htops Hparent)
    as (Hr & Hitem' & Hg & sent & params & Hsent & Hlen & Hcond & Hupdate).
  fold run in Hr, Hitem', Hg, Hsent.
  set (childrenShards := if truthy_opt (parentShard !! "checkpoint")
                         then childrenOf shardsData parentShardId else []) in *.
  set (g := (length childrenShards + generated w)%nat) in *.
  set (ensured := ensure_children shardsData (uuid_of w) (generated w) childrenShards tops)
    in *.
  set (edited := edit_record parentShardId _ ensured) in *.
  assert (Hchildren : Forall (λ c, is_Some (shardsData !! child_shardId c)) childrenShards).
  { unfold childrenShards. destruct (truthy_opt _); [|done].
    apply Forall_forall. intros c (shardData & Hc & _)%childrenOf_elem. by eexists. }
  assert (Hensured : ensured !! parentShardId = Some (VMap parentShard)).
  { eapply lookup_weaken; [done|]. apply ensure_children_subseteq. }
  assert (Hrecords : records edited).
  { by apply edit_record_records, ensure_children_records. }
  exists ensured, (seed_records (uuid_of w) (S g) childrenShards edited), sent, params.
  split; [done|]. split; [done|]. split; [done|].
  split; [apply ensure_children_subseteq|]. split; [done|]. split; [done|].
  split; [|split].
  - destruct (seed_records_kept (uuid_of w) (S g) childrenShards edited
                (<["version" := VStr (uuid_of w g)]> (<["depleted" := VBool true]> parentShard))
                parentShardId g) as (r' & n' & Hr' & Hkept & Hversion & Hn').
    { unfold edited. by rewrite edit_record_lookup, decide_True, Hensured by done. }
    { by rewrite lookup_insert_eq. }
    exists r'. split; [done|]. split.
    + rewrite Hkept by done. rewrite lookup_insert_ne by done. by rewrite lookup_insert_eq.
    + exists n'. split; [done|]. rewrite Hg. destruct Hn' as [->|?]; lia.
  - intros Hcheckpoint k shardData Hk Hp.
    set (c := {| child_shardId := k;
                 child_startingSequenceNumber := startingSequenceNumber shardData |}).
    assert (Hc : c ∈ childrenShards).
    { unfold childrenShards. rewrite Hcheckpoint. apply childrenOf_elem. by exists shardData. }
    apply list_elem_of_lookup_1 in Hc as [i Hi].
    assert (is_Some (edited !! k)) as [v Hv].
    { unfold edited. rewrite edit_record_is_Some.
      pose proof (ensure_children_is_Some shardsData (uuid_of w) (generated w)
                    childrenShards tops Hchildren) as Hall.
      rewrite Forall_forall in Hall. apply (Hall c). by eapply list_elem_of_lookup_2. }
    destruct (Hrecords _ _ Hv) as [r ->].
    eexists. split; [|split].
    + apply (seed_records_child (uuid_of w) (S g) childrenShards edited r i c); [|done..].
      unfold childrenShards. destruct (truthy_opt _); [apply childrenOf_NoDup|constructor].
    + rewrite lookup_insert_ne by done. by rewrite lookup_insert_eq.
    + exists (S g + i)%nat. rewrite lookup_insert_eq. split; [done|].
      rewrite Hg. apply lookup_lt_Some in Hi. lia.
  - intros Hcheckpoint. split.
    + unfold childrenShards in Hlen. rewrite Hcheckpoint in Hlen. by destruct sent.
    + intros k Hne. unfold edited, ensured, childrenShards.
      rewrite Hcheckpoint. simpl. by rewrite edit_record_lookup, decide_False.
Qed.

(** ** [markShardAsDepleted] of a standalone consumer *)

(** C2 holds with automatic shard assignment and fails for a standalone
    consumer.  Its shard records are kept under its own record, where the update
    of [markShardAsDepleted] would write; yet the parent is looked up in the
    top-level [shards] map (where [getOwnedShards] and
    [getShardAndStreamState] choose the map by [isStandalone]).  When the
    parent is missing there, the call throws after the read: no update is
    sent and the document stays as it was, the record of the parent under
    the consumer included. *)
Theorem markShardAsDepleted_standalone (self : StateStore)
    (shardsData : gmap string ShardData) (parentShardId : string) (w : World)
    (doc tops : gmap string value) (record : value) :
  isStandalone self = true →
  fault_of w (length (requests w)) = None →
  item w = Some (VMap doc) →
  doc !! "shards" = Some (VMap tops) →
  tops !! parentShardId = None →
  get_path (slot self parentShardId) (VMap doc) = Some record →
  let run := markShardAsDepleted self shardsData parentShardId w in
  run.1 = inl (TypeError "Cannot read properties of undefined") ∧
  requests run.2 = requests w ++ [ReqGet] ∧
  item run.2 = item w ∧
  get_path (slot self parentShardId) (item_or_empty (item run.2)) = Some record.
Proof.
  intros _ Hfault Hitem Hshards Hparent Hrecord run.
  assert (Hrun : run = (inl (TypeError "Cannot read properties of undefined"),
                        log_request ReqGet w)).
  { unfold run, markShardAsDepleted, getStreamState.
    unfold bind at 1, client_get. rewrite Hfault, Hitem.
    unfold bind at 1, prop at 1, ret at 1. rewrite Hshards.
    unfold bind at 1, prop at 1, ret at 1. rewrite Hparent.
    by unfold bind at 1, prop at 1, throw at 1. }
  rewrite Hrun. simpl. by rewrite Hitem.
Qed.

(** ** [getStreamShards] *)

Lemma Object_fromEntries_snoc {A} (l : list (string * A)) (k : string) (v : A) :
  Object_fromEntries (l ++ [(k, v)]) = <[k := v]> (Object_fromEntries l).
Proof. unfold Object_fromEntries. by rewrite foldl_snoc. Qed.

Lemma Object_fromEntries_is_Some {A} (l : list (string * A)) (k : string) :
  is_Some (Object_fromEntries l !! k) ↔ k ∈ map fst l.
Proof.
  induction l as [|[j v] l IH] using rev_ind.
  - unfold Object_fromEntries. simpl. rewrite lookup_empty, elem_of_nil.
    split; [by intros [? ?]|done].
  - rewrite Object_fromEntries_snoc, map_app, elem_of_app. simpl.
    rewrite list_elem_of_singleton, lookup_insert_is_Some, IH.
    destruct (decide (j = k)) as [->|Hne]; [split; auto|].
    split; [intros [?|[_ ?]]; [done|by left]|].
    intros [?|?]; [right; by split|congruence].
Qed.

Lemma Object_fromEntries_lookup {A} (l : list (string * A)) (k : string) (v : A) :
  NoDup (map fst l) → (k, v) ∈ l → Object_fromEntries l !! k = Some v.
Proof.
  induction l as [|[j u] l IH] using rev_ind; intros Hnd Hin.
  - by apply elem_of_nil in Hin.
  - rewrite Object_fromEntries_snoc. rewrite map_app in Hnd. simpl in Hnd.
    apply NoDup_app in Hnd as (Hnd & Hdisj & _).
    apply elem_of_app in Hin as [Hin|Hin].
    + rewrite lookup_insert_ne; [by apply IH|].
      intros ->. apply (Hdisj k); [|by left].
      apply list_elem_of_fmap. by exists (k, v).
    + apply list_elem_of_singleton in Hin. simplify_eq. apply lookup_insert_eq.
Qed.

Lemma promote_orphan_lookup (shards : gmap string ShardData) (id k : string) :
  promote_orphan shards id !! k =
  if decide (k = id) then promoted shards <$> shards !! k else shards !! k.
Proof.
  unfold promote_orphan, promoted. destruct (decide (k = id)) as [Hk|Hk].
  - subst k. destruct (shards !! id) as [shard|] eqn:Hid; simpl; [|by rewrite Hid].
    destruct (parent shard) as [p|]; [|by rewrite Hid].
    destruct (negb (String.eqb p "") && negb (has_member shards p));
      [by rewrite lookup_insert_eq|by rewrite Hid].
  - destruct (shards !! id) as [shard|] eqn:Hid; simpl; [|done].
    destruct (parent shard) as [p|]; [|done].
    destruct (negb (String.eqb p "") && negb (has_member shards p));
      [by rewrite lookup_insert_ne|done].
Qed.

Lemma promote_orphan_is_Some (shards : gmap string ShardData) (id k : string) :
  is_Some (promote_orphan shards id !! k) ↔ is_Some (shards !! k).
Proof.
  rewrite promote_orphan_lookup. case_decide; [|done]. by rewrite fmap_is_Some.
Qed.

Lemma promoted_ext (shards shards' : gmap string ShardData) (shard : ShardData) :
  (∀ k, is_Some (shards !! k) ↔ is_Some (shards' !! k)) →
  promoted shards shard = promoted shards' shard.
Proof.
  intros Hdom. unfold promoted, has_member. destruct (parent shard) as [p|]; [|done].
  by rewrite (bool_decide_ext _ _ (Hdom p)).
Qed.

Lemma forEach_promote_lookup (shards0 acc : gmap string ShardData) (keys : list string)
    (k : string) :
  NoDup keys →
  (∀ j, is_Some (acc !! j) ↔ is_Some (shards0 !! j)) →
  foldl promote_orphan acc keys !! k =
  if decide (k ∈ keys) then promoted shards0 <$> acc !! k else acc !! k.
Proof.
  revert acc. induction keys as [|id keys IH]; intros acc Hnd Hdom.
  - simpl. destruct (decide (k ∈ [])) as [Hin|Hin]; [by apply elem_of_nil in Hin|done].
  - apply NoDup_cons in Hnd as [Hid Hnd]. simpl. rewrite IH; [|done|].
    2:{ intros j. by rewrite promote_orphan_is_Some. }
    rewrite promote_orphan_lookup.
    destruct (decide (k = id)) as [->|Hne].
    + rewrite decide_False by done. rewrite decide_True by (by left).
      destruct (acc !! id); simpl; [|done]. f_equal. by apply promoted_ext.
    + destruct (decide (k ∈ keys)) as [Hin|Hnin].
      * rewrite decide_True by (by right). done.
      * rewrite decide_False; [done|]. intros Hin. by apply elem_of_cons in Hin as [?|?].
Qed.

Lemma getStreamShards_lookup (Shards : list Shard) (k : string) :
  let shards0 :=
    Object_fromEntries
      (map (λ sh, (ShardId sh,
                   {| parent := or_null (ParentShardId sh);
                      startingSequenceNumber :=
                        StartingSequenceNumber (SequenceNumberRange_ sh) |}))
           Shards) in
  getStreamShards (Some Shards) !! k = promoted shards0 <$> shards0 !! k.
Proof.
  intros shards0. unfold getStreamShards. simpl. fold shards0.
  assert (NoDup (map fst (map_to_list shards0))) as Hnd by apply NoDup_fst_map_to_list.
  rewrite (forEach_promote_lookup shards0 shards0 _ k Hnd);
    [|done].
  destruct (decide (k ∈ _)) as [Hin|Hin]; [done|].
  destruct (shards0 !! k) as [x|] eqn:Hk; [|done].
  destruct Hin. change (k ∈ (map_to_list shards0).*1).
  apply list_elem_of_fmap. exists (k, x). split; [done|].
  by apply elem_of_map_to_list.
Qed.

Lemma getStreamShards_is_Some (Shards : list Shard) (k : string) :
  is_Some (getStreamShards (Some Shards) !! k) ↔ ∃ sh, sh ∈ Shards ∧ ShardId sh = k.
Proof.
  rewrite getStreamShards_lookup, fmap_is_Some, Object_fromEntries_is_Some.
  rewrite map_map. simpl. change (k ∈ map ShardId Shards) with (k ∈ ShardId <$> Shards).
  rewrite list_elem_of_fmap. split; intros (sh & ? & ?); by exists sh.
Qed.

(** C9, amended.  In the map that [getStreamShards] builds from a
    listing (shard ids distinct and not empty, as the service gives them), the
    keys are the ids of the listing, and the entry of every listed shard
    carries its starting sequence number and has for parent the advertised
    parent id when [shards[parent]] is truthy, and null otherwise.  That
    lookup is truthy when the id is a key of the map, and also when it is the
    name of a member that the map inherits from [Object.prototype], key or
    not. *)
Theorem getStreamShards_lineage (Shards : list Shard) (sh : Shard) :
  NoDup (map ShardId Shards) →
  Forall (λ x, ShardId x ≠ "") Shards →
  sh ∈ Shards →
  let shards := getStreamShards (Some Shards) in
  (∀ k, is_Some (shards !! k) ↔ ∃ x, x ∈ Shards ∧ ShardId x = k) ∧
  ∃ entry,
    shards !! ShardId sh = Some entry ∧
    startingSequenceNumber entry = StartingSequenceNumber (SequenceNumberRange_ sh) ∧
    parent entry =
      match ParentShardId sh with
      | Some p =>
          if bool_decide (is_Some (shards !! p)) || inherited p then Some p else None
      | None => None
      end.
Proof.
  intros Hnd Hne Hsh shards. split; [intros k; apply getStreamShards_is_Some|].
  set (entries := map (λ sh, (ShardId sh,
                   {| parent := or_null (ParentShardId sh);
                      startingSequenceNumber :=
                        StartingSequenceNumber (SequenceNumberRange_ sh) |})) Shards).
  assert (Object_fromEntries entries !! ShardId sh =
          Some {| parent := or_null (ParentShardId sh);
                  startingSequenceNumber :=
                    StartingSequenceNumber (SequenceNumberRange_ sh) |}) as Hentry.
  { apply Object_fromEntries_lookup.
    - subst entries. by rewrite map_map.
    - subst entries. change (map ?f Shards) with (f <$> Shards).
      apply list_elem_of_fmap. by exists sh. }
  assert (∀ p, is_Some (shards !! p) ↔ is_Some (Object_fromEntries entries !! p)) as Hdom.
  { intros p. subst shards. by rewrite getStreamShards_lookup, fmap_is_Some. }
  eexists. split.
  { subst shards. rewrite getStreamShards_lookup. fold entries. by rewrite Hentry. }
  split; [unfold promoted; simpl; by repeat case_match|].
  unfold promoted, has_member. simpl.
  destruct (ParentShardId sh) as [p|]; simpl; [|done].
  destruct (String.eqb p "") eqn:Hp; simpl.
  - apply String.eqb_eq in Hp as ->.
    rewrite bool_decide_eq_false_2; [done|].
    unfold shards. rewrite getStreamShards_is_Some. intros (x & Hx & Hid).
    by apply (proj1 (Forall_forall _ _) Hne x Hx).
  - rewrite (bool_decide_ext _ _ (Hdom p)), ?Hp. simpl.
    by destruct (bool_decide (is_Some (Object_fromEntries entries !! p)) || inherited p).
Qed.

(** ** The polling consumer *)

Module PollingConsumerFacts.
Import PollingConsumer PollingConsumerVocabulary.

Lemma inspect_eq {A} (a b : A) (H : a = b) : inspect a = exist _ b H.
Proof. by destruct H. Qed.

Lemma getShardIterator_initial (streamName shardId initialPositionInStream : string)
    (sequenceNumber : option string) (env : Env) (c : Consumer) :
  truthy_str sequenceNumber = false →
  getShardIterator streamName shardId initialPositionInStream sequenceNumber env c =
  let initial :=
    {| ShardId := shardId; ShardIteratorType := initialPositionInStream;
       StreamName := streamName; StartingSequenceNumber := None |} in
  (iterator_answer (client_getShardIterator env (trace c) initial),
   emit (EvGetShardIterator initial (client_getShardIterator env (trace c) initial)) c).
Proof.
  intros Hseq. rewrite getShardIterator_equation_1, (inspect_eq _ _ Hseq).
  simpl. unfold ask. simpl. by destruct (client_getShardIterator _ _ _).
Qed.

Lemma getShardIterator_after (streamName shardId initialPositionInStream : string)
    (sequenceNumber : option string) (env : Env) (c : Consumer) :
  truthy_str sequenceNumber = true →
  getShardIterator streamName shardId initialPositionInStream sequenceNumber env c =
  let after :=
    {| ShardId := shardId; ShardIteratorType := "AFTER_SEQUENCE_NUMBER";
       StreamName := streamName; StartingSequenceNumber := sequenceNumber |} in
  let first := client_getShardIterator env (trace c) after in
  match first with
  | inr it => (inr (default "" it), emit (EvGetShardIterator after first) c)
  | inl err =>
      if is_code "InvalidArgumentException" err
      then getShardIterator streamName shardId initialPositionInStream None env
             (emit (EvGetShardIterator after first) c)
      else (inl err, emit (EvGetShardIterator after first) c)
  end.
Proof.
  intros Hseq. rewrite getShardIterator_equation_1, (inspect_eq _ _ Hseq).
  simpl. unfold ask. simpl. by destruct (client_getShardIterator _ _ _).
Qed.

(** C7. With a sequence number, [getShardIterator] asks for an iterator of
    type AFTER_SEQUENCE_NUMBER at that sequence number; when the answer is an
    InvalidArgumentException it asks once more, now without sequence number
    and for the initial position, and whatever this second request answers is
    the outcome; any other error of the first request is thrown.  Without
    sequence number it asks once for the initial position, and every error,
    InvalidArgumentException included, is thrown. *)
Theorem getShardIterator_spec (streamName shardId initialPositionInStream : string)
    (sequenceNumber : option string) (env : Env) (c : Consumer) :
  let run := getShardIterator streamName shardId initialPositionInStream sequenceNumber env c in
  let after :=
    {| ShardId := shardId; ShardIteratorType := "AFTER_SEQUENCE_NUMBER";
       StreamName := streamName; StartingSequenceNumber := sequenceNumber |} in
  let initial :=
    {| ShardId := shardId; ShardIteratorType := initialPositionInStream;
       StreamName := streamName; StartingSequenceNumber := None |} in
  let first := client_getShardIterator env (trace c) after in
  let second := client_getShardIterator env (trace c ++ [EvGetShardIterator after first]) initial in
  let only := client_getShardIterator env (trace c) initial in
  props run.2 = props c ∧
  (truthy_str sequenceNumber = true →
     (∀ it, first = inr it →
        run.1 = inr (default "" it) ∧ trace run.2 = trace c ++ [EvGetShardIterator after first]) ∧
     (∀ err, first = inl err → is_code "InvalidArgumentException" err = true →
        run.1 = iterator_answer second ∧
        trace run.2 = trace c ++ [EvGetShardIterator after first;
                                  EvGetShardIterator initial second]) ∧
     (∀ err, first = inl err → is_code "InvalidArgumentException" err = false →
        run.1 = inl err ∧ trace run.2 = trace c ++ [EvGetShardIterator after first])) ∧
  (truthy_str sequenceNumber = false →
     run.1 = iterator_answer only ∧
     trace run.2 = trace c ++ [EvGetShardIterator initial only]).
Proof.
  cbv zeta. destruct (truthy_str sequenceNumber) eqn:Hseq.
  - rewrite getShardIterator_after by done. cbv zeta.
    destruct (client_getShardIterator env (trace c) _) as [err|it] eqn:Hfirst.
    + destruct (is_code "InvalidArgumentException" err) eqn:Hcode.
      * rewrite getShardIterator_initial by done. cbv zeta. simpl.
        split; [done|]. split; [|done]. intros _. split; [done|]. split.
        -- intros err' [= <-] _. by rewrite <- app_assoc.
        -- intros err' [= <-] ?. congruence.
      * simpl. split; [done|]. split; [|done]. intros _. split; [done|]. split.
        -- intros err' [= <-] ?. congruence.
        -- by intros err' [= <-] _.
    + simpl. split; [done|]. split; [|done]. intros _. split; [|done].
      by intros it' [= <-].
  - rewrite getShardIterator_initial by done. cbv zeta.
    split; [done|]. split; [done|]. done.
Qed.


Lemma pollForRecords_unfold (fuel : nat) (env : Env) (c : Consumer) :
  pollForRecords fuel env c =
  match pollForRecords_try (props c) env c with
  | (inr _, c') => Some c'
  | (inl err, c') =>
      if is_code "ExpiredIteratorException" err then
        match fuel with
        | S fuel' => pollForRecords fuel' env (update (with_iterator None) c')
        | O => None
        end
      else Some (emit (EvPushToStream (Some err) None) c')
  end.
Proof. by destruct fuel. Qed.

(** What a poll does once the request for records has been answered. *)
Lemma pollForRecords_try_fetched (env : Env) (c c0 c1 : Consumer) (it : option string)
    (data : GetRecordsOutput) :
  lease_expired (props c) (Date_now env (trace c)) = false →
  store_pending (props c) env c = (inr tt, c0) →
  acquire_iterator (props c) env c0 = (inr it, c1) →
  client_getRecords env (trace c1) (limit (props c)) (default "" it) = inr data →
  pollForRecords_try (props c) env c =
  (if Nat.eqb (length (Records data)) 0 then after_no_records (props c) data
   else after_records (props c) data) env
    (update (with_iterator (NextShardIterator data))
       (emit (EvGetRecords (limit (props c)) (default "" it) (inr data)) c1)).
Proof.
  intros Hlease Hstore Hiterator Hrecords.
  unfold pollForRecords_try, pbind at 1, now. rewrite Hlease.
  unfold pbind at 1. rewrite Hstore.
  unfold pbind at 1. rewrite Hiterator.
  unfold pbind at 1, ask at 1. rewrite Hrecords. cbv zeta.
  unfold pbind at 1. by unfold write at 1.
Qed.

(** The delay of the timer after an answer without records. *)
Lemma noRecords_delay_cases (snapshot : PrivateProps) (data : GetRecordsOutput) :
  noRecords_delay snapshot data =
  match MillisBehindLatest data with
  | Some ms => if Z.leb ms 0 then noRecordsPollDelay snapshot else 0
  | None => 0
  end.
Proof.
  unfold noRecords_delay.
  by destruct (MillisBehindLatest data) as [ms|]; [destruct (Z.leb ms 0)|].
Qed.

(** C5, amended.  A poll whose request for records is answered
    with no records.  When [NextShardIterator] is [undefined] the consumer
    lists the shards of the stream and has the state store mark its own shard
    as depleted with the lineage built from that list; when both calls are
    answered it calls [stopConsumer] with its shard id, and when one of them
    is rejected it gives the error to the stream instead and does not stop
    the consumer; in neither case is a timer set.  When [NextShardIterator] is
    [null] or a string it sets a timer for the next poll, after
    [noRecordsPollDelay] when [MillisBehindLatest] is at most 0 and after 0
    milliseconds otherwise. *)
Theorem pollForRecords_no_records (fuel : nat) (env : Env) (c c0 c1 : Consumer)
    (it : option string) (data : GetRecordsOutput) :
  let snapshot := props c in
  lease_expired snapshot (Date_now env (trace c)) = false →
  store_pending snapshot env c = (inr tt, c0) →
  acquire_iterator snapshot env c0 = (inr it, c1) →
  client_getRecords env (trace c1) (limit snapshot) (default "" it) = inr data →
  Records data = [] →
  let fetched :=
    update (with_iterator (NextShardIterator data))
      (emit (EvGetRecords (limit snapshot) (default "" it) (inr data)) c1) in
  match NextShardIterator data with
  | Undefined =>
      let listing := client_listShards env (trace fetched) (streamName snapshot) in
      let listed := emit (EvListShards (streamName snapshot) listing) fetched in
      match listing with
      | inr Shards =>
          let answer :=
            stateStore_markShardAsDepleted env (trace listed) (getStreamShards Shards)
              (shardId snapshot) in
          let marked :=
            emit (EvMarkShardAsDepleted (getStreamShards Shards) (shardId snapshot) answer)
              listed in
          match answer with
          | inr _ =>
              pollForRecords fuel env c =
              Some (emit (EvStopConsumer (shardId snapshot)) marked)
          | inl err =>
              is_code "ExpiredIteratorException" err = false →
              pollForRecords fuel env c =
              Some (emit (EvPushToStream (Some err) None) marked)
          end
      | inl err =>
          is_code "ExpiredIteratorException" err = false →
          pollForRecords fuel env c = Some (emit (EvPushToStream (Some err) None) listed)
      end
  | Null | Str _ =>
      let delay :=
        match MillisBehindLatest data with
        | Some ms => if Z.leb ms 0 then noRecordsPollDelay snapshot else 0
        | None => 0
        end in
      pollForRecords fuel env c =
      Some (update (with_timeoutId (Some delay)) (emit (EvSetTimeout delay) fetched))
  end.
Proof.
  intros snapshot Hlease Hstore Hiterator Hrecords Hnone fetched. subst snapshot.
  assert (Htry : pollForRecords_try (props c) env c =
                 after_no_records (props c) data env fetched).
  { rewrite (pollForRecords_try_fetched env c c0 c1 it data) by done.
    by rewrite Hnone. }
  unfold after_no_records in Htry.
  destruct (NextShardIterator data) eqn:Hnext; cbv zeta.
  - unfold pbind at 1, ask at 1 in Htry. cbv zeta in Htry.
    destruct (client_listShards env (trace fetched) (streamName (props c)))
      as [err|Shards].
    { intros Hcode. by rewrite pollForRecords_unfold, Htry, Hcode. }
    unfold pbind at 1, ask at 1 in Htry. cbv zeta in Htry.
    destruct (stateStore_markShardAsDepleted env _ (getStreamShards Shards) _)
      as [err|[]].
    + intros Hcode. by rewrite pollForRecords_unfold, Htry, Hcode.
    + by rewrite pollForRecords_unfold, Htry.
  - rewrite pollForRecords_unfold, Htry, <- noRecords_delay_cases. done.
  - rewrite pollForRecords_unfold, Htry, <- noRecords_delay_cases. done.
Qed.

(** *** The order of the stored checkpoints *)

Lemma stored_app (tr1 tr2 : list Event) : stored (tr1 ++ tr2) = stored tr1 ++ stored tr2.
Proof. apply bind_app. Qed.

Lemma received_app (env : Env) (d : bool) (tr1 tr2 : list Event) :
  received env d (tr1 ++ tr2) = received env d tr1 ++ received env d tr2.
Proof. apply bind_app. Qed.

Lemma quiet_pret {A} (a : A) : quiet (pret a).
Proof. intros env c. simpl. repeat split. exists []. by rewrite app_nil_r. Qed.

Lemma quiet_pthrow {A} (e : error) : quiet (@pthrow A e).
Proof. intros env c. simpl. repeat split. exists []. by rewrite app_nil_r. Qed.

Lemma quiet_of_result {A} (r : error + A) : quiet (of_result r).
Proof. intros env c. simpl. repeat split. exists []. by rewrite app_nil_r. Qed.

Lemma quiet_read {A} (f : PrivateProps → A) : quiet (read f).
Proof. intros env c. simpl. repeat split. exists []. by rewrite app_nil_r. Qed.

Lemma quiet_now : quiet now.
Proof. intros env c. simpl. repeat split. exists []. by rewrite app_nil_r. Qed.

Lemma quiet_pbind {A B} (m : P A) (k : A → P B) :
  quiet m → (∀ a, quiet (k a)) → quiet (pbind m k).
Proof.
  intros Hm Hk env c. unfold pbind.
  destruct (Hm env c) as (Hs & Hd & Hp & evs & Htr & Hst & Hre).
  destruct (m env c) as [[e|a] c1]; simpl in *.
  - repeat split; try done. by exists evs.
  - destruct (Hk a env c1) as (Hs' & Hd' & Hp' & evs' & Htr' & Hst' & Hre').
    repeat split; try congruence. exists (evs ++ evs'). split; [|split].
    + by rewrite Htr', Htr, <- app_assoc.
    + by rewrite stored_app, Hst, Hst'.
    + intros d. by rewrite received_app, Hre, Hre'.
Qed.

Lemma quiet_notify (e : Event) : other_event e = true → quiet (notify e).
Proof.
  intros He env c. simpl. repeat split. exists [e].
  split; [done|]. by destruct e.
Qed.

Lemma quiet_ask {A} (answer : Env → list Event → error + A) (event : error + A → Event) :
  (∀ r, other_event (event r) = true) → quiet (ask answer event).
Proof.
  intros He env c. unfold ask. simpl. repeat split. eexists [_].
  split; [done|]. specialize (He (answer env (trace c))). by destruct (event _).
Qed.

Lemma quiet_write (f : PrivateProps → PrivateProps) :
  (∀ p, seqNumToCheckpoint (f p) = seqNumToCheckpoint p ∧
        shouldDeaggregate (f p) = shouldDeaggregate p ∧
        usePausedPolling (f p) = usePausedPolling p) →
  quiet (write f).
Proof.
  intros Hf env c. simpl. destruct (Hf (props c)) as (? & ? & ?).
  repeat split; try done. exists []. by rewrite app_nil_r.
Qed.

Lemma quiet_getShardIterator (streamName shardId initialPositionInStream : string)
    (sequenceNumber : option string) :
  quiet (getShardIterator streamName shardId initialPositionInStream sequenceNumber).
Proof.
  assert (Hinitial : ∀ sequenceNumber', truthy_str sequenceNumber' = false →
            quiet (getShardIterator streamName shardId initialPositionInStream
                     sequenceNumber')).
  { intros sequenceNumber' Hseq env c. rewrite getShardIterator_initial by done.
    simpl. repeat split. by eexists [_]. }
  destruct (truthy_str sequenceNumber) eqn:Hseq; [|by apply Hinitial].
  intros env c. rewrite getShardIterator_after by done. cbv zeta.
  destruct (client_getShardIterator env (trace c) _) as [err|it] eqn:Hfirst.
  - destruct (is_code "InvalidArgumentException" err).
    + destruct (Hinitial None eq_refl env
                  (emit (EvGetShardIterator
                    {| ShardId := shardId; ShardIteratorType := "AFTER_SEQUENCE_NUMBER";
                       StreamName := streamName;
                       StartingSequenceNumber := sequenceNumber |} (inl err)) c))
        as (Hs & Hd & Hp & evs & Htr & Hst & Hre).
      repeat split; try done. eexists (_ :: evs). split; [|split].
      * rewrite Htr. simpl. by rewrite <- app_assoc.
      * done.
      * done.
    + simpl. repeat split. by eexists [_].
  - simpl. repeat split. by eexists [_].
Qed.

Lemma quiet_acquire_iterator (snapshot : PrivateProps) : quiet (acquire_iterator snapshot).
Proof.
  unfold acquire_iterator.
  apply quiet_pbind; [apply quiet_read|]. intros it0.
  apply quiet_pbind.
  - destruct (negb (truthy_str it0) && truthy_str (checkpoint snapshot)).
    + apply quiet_pbind; [apply quiet_getShardIterator|]. intros; apply quiet_pret.
    + apply quiet_pret.
  - intros it1. destruct (negb (truthy_str it1)).
    + apply quiet_pbind; [apply quiet_getShardIterator|]. intros; apply quiet_pret.
    + apply quiet_pret.
Qed.

Lemma quiet_after_no_records (snapshot : PrivateProps) (data : GetRecordsOutput) :
  quiet (after_no_records snapshot data).
Proof.
  unfold after_no_records. destruct (NextShardIterator data).
  - apply quiet_pbind; [by apply quiet_ask|]. intros listing. cbv zeta.
    apply quiet_pbind; [by apply quiet_ask|]. intros _. by apply quiet_notify.
  - apply quiet_pbind; [by apply quiet_notify|]. intros _. by apply quiet_write.
  - apply quiet_pbind; [by apply quiet_notify|]. intros _. by apply quiet_write.
Qed.

Lemma quiet_push_and_schedule (snapshot : PrivateProps) (data : GetRecordsOutput)
    (records : list DecodedRecord) :
  quiet (push_and_schedule snapshot data records).
Proof.
  unfold push_and_schedule. apply quiet_pbind; [by apply quiet_notify|]. intros _.
  destruct (negb (usePausedPolling snapshot)); [|apply quiet_pret].
  apply quiet_pbind; [by apply quiet_notify|]. intros _. by apply quiet_write.
Qed.

Lemma extends_refl (env : Env) (c : Consumer) : extends env c c.
Proof. split; [done|]. split; [done|]. split; [|done]. exists []. by rewrite app_nil_r. Qed.

Lemma extends_trans (env : Env) (c1 c2 c3 : Consumer) :
  extends env c1 c2 → extends env c2 c3 → extends env c1 c3.
Proof.
  intros (Hd & Hp & [evs Htr] & H12) (Hd' & Hp' & [evs' Htr'] & H23).
  split; [congruence|]. split; [congruence|]. split.
  - exists (evs ++ evs'). by rewrite Htr', Htr, <- app_assoc.
  - intros Hsorted Hc. apply H23; [done|]. apply H12; [|done].
    rewrite Htr', received_app, Hd' in Hsorted.
    by apply StronglySorted_app_1_l in Hsorted.
Qed.

Lemma quiet_extends {A} (m : P A) (env : Env) (c : Consumer) :
  quiet m → extends env c (m env c).2.
Proof.
  intros Hm. destruct (Hm env c) as (Hs & Hd & Hp & evs & Htr & Hst & Hre).
  split; [done|]. split; [done|]. split; [by exists evs|].
  intros _ (Hsorted & Hsub & Hpaused & Hpending). unfold checkpoints_follow.
  rewrite Hs, Hd, Hp, Htr, stored_app, received_app, Hst, Hre, !app_nil_r.
  done.
Qed.

Lemma setCheckpoint_run (sequenceNumber : string) (env : Env) (c : Consumer) :
  setCheckpoint sequenceNumber env c =
  let answer :=
    stateStore_storeShardCheckpoint env (trace c) (shardId (props c)) sequenceNumber in
  let asked := emit (EvStoreShardCheckpoint (shardId (props c)) sequenceNumber answer) c in
  match answer with
  | inr _ => (inr tt, update (with_checkpoint (Some sequenceNumber)) asked)
  | inl e => (inl e, asked)
  end.
Proof.
  unfold setCheckpoint, pbind, read, ask, write. cbv zeta.
  by destruct (stateStore_storeShardCheckpoint _ _ _ _).
Qed.

Lemma setCheckpoint_shape (sequenceNumber : string) (env : Env) (c : Consumer) :
  let c' := (setCheckpoint sequenceNumber env c).2 in
  seqNumToCheckpoint (props c') = seqNumToCheckpoint (props c) ∧
  shouldDeaggregate (props c') = shouldDeaggregate (props c) ∧
  usePausedPolling (props c') = usePausedPolling (props c) ∧
  ∃ answer, trace c' = trace c ++ [EvStoreShardCheckpoint (shardId (props c))
                                     sequenceNumber answer].
Proof.
  rewrite setCheckpoint_run. cbv zeta.
  destruct (stateStore_storeShardCheckpoint _ _ _ _); simpl; repeat split; by eexists.
Qed.

Lemma setCheckpoint_follow (sequenceNumber : string) (env : Env) (c : Consumer) :
  checkpoints_follow env c →
  sequenceNumber ∈ received env (shouldDeaggregate (props c)) (trace c) →
  Forall (λ x, seq_le x sequenceNumber) (stored (trace c)) →
  (∀ s, seqNumToCheckpoint (props c) = Some s → seq_le sequenceNumber s) →
  checkpoints_follow env (setCheckpoint sequenceNumber env c).2.
Proof.
  intros (Hsorted & Hsub & Hpaused & Hpending) Hin Hle Hstash.
  destruct (setCheckpoint_shape sequenceNumber env c) as (Hs & Hd & Hp & answer & Htr).
  unfold checkpoints_follow. rewrite Hs, Hd, Hp, Htr, stored_app, received_app.
  simpl. rewrite app_nil_r.
  split; [|split; [|split]].
  - apply StronglySorted_app_2; [|done|repeat constructor].
    intros x1 x2 Hx1 ->%list_elem_of_singleton. by eapply Forall_forall in Hle.
  - intros x [Hx| ->%list_elem_of_singleton]%elem_of_app; [by apply Hsub|done].
  - done.
  - intros s Hsome. destruct (Hpending s Hsome) as [Hs_in Hs_le]. split; [done|].
    apply Forall_app. split; [done|]. apply Forall_singleton. by apply Hstash.
Qed.

Lemma seq_le_refl (s : string) : seq_le s s.
Proof. unfold seq_le. lia. Qed.

Lemma store_pending_extends (env : Env) (c : Consumer) :
  extends env c (store_pending (props c) env c).2.
Proof.
  unfold store_pending.
  destruct (seqNumToCheckpoint (props c)) as [s|] eqn:Hstash; simpl;
    [|apply extends_refl].
  destruct (negb (String.eqb s "")); [|apply extends_refl].
  unfold pbind.
  destruct (setCheckpoint_shape s env c) as (Hs & Hd & Hp & answer & Htr).
  assert (Hfollow : checkpoints_follow env c →
                    checkpoints_follow env (setCheckpoint s env c).2).
  { intros Hc. pose proof Hc as (_ & _ & _ & Hpending).
    destruct (Hpending s Hstash) as [Hin Hle].
    apply setCheckpoint_follow; try done.
    intros s' Hs'. rewrite Hstash in Hs'. injection Hs' as <-. apply seq_le_refl. }
  destruct (setCheckpoint s env c) as [[e|[]] c1]; simpl in *.
  - split; [done|]. split; [done|]. split; [by eexists|]. intros _. apply Hfollow.
  - split; [done|]. split; [done|]. split; [by eexists|]. intros _ Hc.
    destruct (Hfollow Hc) as (Hsorted & Hsub & Hpaused & Hpending).
    split; [done|]. split; [done|]. split; [done|]. done.
Qed.

(** The request for records has been answered: the checkpoints follow as
    before, and none of them exceeds a record of the answer. *)
Lemma fetched_follow (env : Env) (c : Consumer) (lim : Z) (it : string)
    (data : GetRecordsOutput) (records : list DecodedRecord) :
  let fetched :=
    update (with_iterator (NextShardIterator data)) (emit (EvGetRecords lim it (inr data)) c) in
  decoded_records env (shouldDeaggregate (props c)) (Records data) = inr records →
  StronglySorted seq_le (received env (shouldDeaggregate (props c)) (trace fetched)) →
  checkpoints_follow env c →
  checkpoints_follow env fetched ∧
  ∀ record, record ∈ records →
    sequenceNumber record ∈ received env (shouldDeaggregate (props c)) (trace fetched) ∧
    Forall (λ x, seq_le x (sequenceNumber record)) (stored (trace fetched)).
Proof.
  intros fetched Hdecoded Hordered (Hsorted & Hsub & Hpaused & Hpending).
  assert (Hreceived : received env (shouldDeaggregate (props c)) (trace fetched) =
                      received env (shouldDeaggregate (props c)) (trace c) ++
                      (sequenceNumber <$> records)).
  { unfold fetched. simpl. rewrite received_app. simpl. by rewrite Hdecoded, app_nil_r. }
  assert (Hstored : stored (trace fetched) = stored (trace c)).
  { unfold fetched. simpl. rewrite stored_app. simpl. by rewrite app_nil_r. }
  rewrite Hreceived in Hordered. split.
  - unfold checkpoints_follow. cbv zeta.
    change (shouldDeaggregate (props fetched)) with (shouldDeaggregate (props c)).
    change (usePausedPolling (props fetched)) with (usePausedPolling (props c)).
    change (seqNumToCheckpoint (props fetched)) with (seqNumToCheckpoint (props c)).
    rewrite Hreceived, Hstored.
    split; [done|]. split; [|split; [done|]].
    + intros x Hx. apply elem_of_app. left. by apply Hsub.
    + intros s Hs. destruct (Hpending s Hs) as [Hin Hle]. split; [|done].
      apply elem_of_app. by left.
  - intros record Hrecord. rewrite Hreceived, Hstored. split.
    + apply elem_of_app. right. by apply list_elem_of_fmap_2.
    + apply Forall_forall. intros x Hx.
      eapply StronglySorted_app_1_elem_of; [done|by apply Hsub|].
      by apply list_elem_of_fmap_2.
Qed.

Lemma after_records_extends (env : Env) (c : Consumer) (snapshot : PrivateProps)
    (lim : Z) (it : string) (data : GetRecordsOutput) :
  shouldDeaggregate snapshot = shouldDeaggregate (props c) →
  usePausedPolling snapshot = usePausedPolling (props c) →
  extends env c
    (after_records snapshot data env
       (update (with_iterator (NextShardIterator data))
          (emit (EvGetRecords lim it (inr data)) c))).2.
Proof.
  intros Hd Hp. set (fetched := update _ _).
  assert (Hfetched : extends env c fetched).
  { split; [done|]. split; [done|]. split; [by eexists|].
    intros Hordered (Hsorted & Hsub & Hpaused & Hpending).
    unfold checkpoints_follow, fetched. simpl. rewrite stored_app, received_app.
    simpl stored at 2 4 6. rewrite !app_nil_r.
    split; [done|]. split; [|split; [done|]].
    - intros x Hx. apply elem_of_app. left. by apply Hsub.
    - intros s Hs. destruct (Hpending s Hs) as [Hin Hle]. split; [|done].
      apply elem_of_app. by left. }
  unfold after_records, pbind at 1, decoded, of_result. rewrite Hd.
  destruct (decoded_records env _ _) as [e|records] eqn:Hdecoded; [done|].
  unfold pbind at 1, auto_checkpoint.
  assert (Hpush : ∀ c', extends env c c' →
            extends env c (push_and_schedule snapshot data records env c').2).
  { intros c' Hc'. eapply extends_trans; [done|].
    apply quiet_extends, quiet_push_and_schedule. }
  destruct (useAutoCheckpoints snapshot); [|by apply Hpush].
  destruct (records !! _) as [record|] eqn:Hrecord; [|done].
  apply list_elem_of_lookup_2 in Hrecord.
  destruct (negb (usePausedPolling snapshot)) eqn:Hpaused.
  - assert (Hstore : extends env c (setCheckpoint (sequenceNumber record) env fetched).2).
    { destruct (setCheckpoint_shape (sequenceNumber record) env fetched)
        as (Hs' & Hd' & Hp' & answer & Htr').
      split; [done|]. split; [done|]. split; [rewrite Htr'; simpl; rewrite <- app_assoc; by eexists|].
      rewrite Hd', Htr', received_app. simpl. rewrite app_nil_r.
      intros Hordered Hc.
      destruct (fetched_follow env c lim it data records Hdecoded Hordered Hc)
        as [Hfollow Hrecords].
      destruct (Hrecords record Hrecord) as [Hin Hle].
      apply setCheckpoint_follow; try done.
      destruct Hfollow as (_ & _ & Hnone & _). intros s Hs.
      assert (seqNumToCheckpoint (props fetched) = None) as Hn; [|congruence].
      apply Hnone. simpl. rewrite <- Hp. by destruct (usePausedPolling snapshot). }
    destruct (setCheckpoint _ env fetched) as [[e|[]] c']; [done|by apply Hpush].
  - apply Hpush. unfold write. simpl.
    split; [done|]. split; [done|]. split; [by eexists|]. simpl.
    intros Hordered Hc.
    destruct (fetched_follow env c lim it data records Hdecoded Hordered Hc)
      as [(Hsorted & Hsub & Hnone & Hpending) Hrecords].
    destruct (Hrecords record Hrecord) as [Hin Hle].
    split; [done|]. split; [done|]. split.
    + simpl. rewrite <- Hp. by destruct (usePausedPolling snapshot).
    + simpl. by intros s [= <-].
Qed.

Lemma update_extends (env : Env) (c : Consumer) (f : PrivateProps → PrivateProps) :
  (∀ p, seqNumToCheckpoint (f p) = seqNumToCheckpoint p ∧
        shouldDeaggregate (f p) = shouldDeaggregate p ∧
        usePausedPolling (f p) = usePausedPolling p) →
  extends env c (update f c).
Proof. intros Hf. by apply (quiet_extends (write f) env c), quiet_write. Qed.

Lemma emit_extends (env : Env) (c : Consumer) (e : Event) :
  other_event e = true → extends env c (emit e c).
Proof. intros He. by apply (quiet_extends (notify e) env c), quiet_notify. Qed.

Lemma rejected_extends (env : Env) (c : Consumer) (lim : Z) (it : string) (e : error) :
  extends env c (emit (EvGetRecords lim it (inl e)) c).
Proof.
  split; [done|]. split; [done|]. split; [by eexists|].
  unfold checkpoints_follow. simpl. rewrite stored_app, received_app. simpl.
  by rewrite !app_nil_r.
Qed.

Lemma fetched_extends (env : Env) (c : Consumer) (lim : Z) (it : string)
    (data : GetRecordsOutput) :
  extends env c
    (update (with_iterator (NextShardIterator data)) (emit (EvGetRecords lim it (inr data)) c)).
Proof.
  split; [done|]. split; [done|]. split; [by eexists|].
  intros Hordered (Hsorted & Hsub & Hpaused & Hpending).
  unfold checkpoints_follow. simpl. rewrite stored_app, received_app.
  simpl stored at 2 4 6. rewrite !app_nil_r.
  split; [done|]. split; [|split; [done|]].
  - intros x Hx. apply elem_of_app. left. by apply Hsub.
  - intros s Hs. destruct (Hpending s Hs) as [Hin Hle]. split; [|done].
    apply elem_of_app. by left.
Qed.

Lemma pollForRecords_try_extends (env : Env) (c : Consumer) :
  extends env c (pollForRecords_try (props c) env c).2.
Proof.
  unfold pollForRecords_try, pbind at 1, now.
  destruct (lease_expired _ _); [by apply emit_extends|].
  unfold pbind at 1. pose proof (store_pending_extends env c) as Hstore.
  destruct (store_pending (props c) env c) as [[e|[]] c0]; [done|]. simpl in Hstore.
  unfold pbind at 1.
  pose proof (quiet_extends _ env c0 (quiet_acquire_iterator (props c))) as Hiterator.
  destruct (acquire_iterator (props c) env c0) as [[e|it] c1]; simpl in Hiterator;
    [by eapply extends_trans|].
  assert (Hc1 : extends env c c1) by by eapply extends_trans.
  unfold pbind at 1, ask at 1. cbv zeta.
  destruct (client_getRecords env (trace c1) _ _) as [e|data].
  { eapply extends_trans; [done|]. apply rejected_extends. }
  unfold pbind at 1, write at 1.
  eapply extends_trans; [done|].
  destruct (Nat.eqb _ 0).
  - eapply extends_trans; [apply fetched_extends|].
    apply quiet_extends, quiet_after_no_records.
  - destruct Hc1 as (Hd & Hp & _). by apply after_records_extends.
Qed.

Lemma pollForRecords_extends (fuel : nat) (env : Env) (c c' : Consumer) :
  pollForRecords fuel env c = Some c' → extends env c c'.
Proof.
  revert c. induction fuel as [|fuel IH]; intros c; rewrite pollForRecords_unfold;
    pose proof (pollForRecords_try_extends env c) as Htry;
    destruct (pollForRecords_try (props c) env c) as [[err|[]] c1]; simpl in Htry.
  - destruct (is_code _ err); [done|]. intros [= <-].
    eapply extends_trans; [done|]. by apply emit_extends.
  - by intros [= <-].
  - destruct (is_code _ err).
    + intros Hrec%IH. eapply extends_trans; [done|].
      eapply extends_trans; [|done]. by apply update_extends.
    + intros [= <-]. eapply extends_trans; [done|]. by apply emit_extends.
  - by intros [= <-].
Qed.

Lemma run_extends (fuel : nat) (env : Env) (calls : list Call) (c c' : Consumer) :
  forallb (λ call, negb (is_manual call)) calls = true →
  run fuel env calls c = Some c' → extends env c c'.
Proof.
  revert c. induction calls as [|call calls IH]; intros c Hcalls; simpl.
  - intros [= <-]. apply extends_refl.
  - simpl in Hcalls. apply andb_prop in Hcalls as [Hcall Hcalls].
    destruct (run_call fuel env call c) as [c1|] eqn:Hrun; [|done].
    intros Hrest. eapply extends_trans; [|by apply IH].
    destruct call; simpl in Hrun.
    + by apply pollForRecords_extends in Hrun.
    + injection Hrun as <-. by apply update_extends.
    + injection Hrun as <-. by apply update_extends.
    + done.
Qed.

Lemma nondecreasing_sorted (l : list string) :
  nondecreasing l = true ↔ StronglySorted seq_le l.
Proof.
  assert (Transitive seq_le) by (intros x y z; unfold seq_le; lia).
  split.
  - intros Hl. apply Sorted_StronglySorted; [done|].
    induction l as [|a [|b rest] IH]; [by constructor|by repeat constructor|].
    simpl in Hl. apply andb_prop in Hl as [Hab Hrest].
    constructor; [by apply IH|]. constructor. by apply N.leb_le.
  - intros Hl%StronglySorted_Sorted.
    induction l as [|a [|b rest] IH]; [done..|].
    inversion Hl as [|?? Hrest Hhd]; subst. inversion Hhd; subst.
    simpl. apply andb_true_intro. split; [by apply N.leb_le|by apply IH].
Qed.

(** C4, amended.  When nothing but polls, [stop()] and lease renewals
    happen to a new instance (no checkpoint is stored by hand), and the
    sequence numbers of the records it receives, after the codecs and in order
    of arrival, never decrease, then the sequence numbers it hands to
    [storeShardCheckpoint] never decrease either. *)
Theorem automatic_checkpoints_nondecreasing (fuel : nat) (env : Env)
    (options : PrivateProps) (calls : list Call) (c' : Consumer) :
  forallb (λ call, negb (is_manual call)) calls = true →
  run fuel env calls (new_PollingConsumer options) = Some c' →
  nondecreasing (received env (shouldDeaggregate options) (trace c')) = true →
  nondecreasing (stored (trace c')) = true.
Proof.
  intros Hcalls Hrun Hreceived.
  destruct (run_extends fuel env calls _ c' Hcalls Hrun) as (Hd & _ & _ & Hfollow).
  simpl in Hd. rewrite Hd in Hfollow.
  apply nondecreasing_sorted in Hreceived.
  destruct (Hfollow Hreceived) as [Hsorted _]; [|by apply nondecreasing_sorted].
  split; [by constructor|]. split; [|done]. by intros x Hx%elem_of_nil.
Qed.

(** *** Paused polling with automatic checkpoints *)

Lemma decode_all_length (decoder : RawRecord → error + DecodedRecord)
    (l : list RawRecord) (records : list DecodedRecord) :
  decode_all decoder l = inr records → length records = length l.
Proof.
  revert records. induction l as [|r l IH]; intros records; simpl.
  - by intros [= <-].
  - destruct (decoder r) as [e|d]; [done|].
    destruct (decode_all decoder l) as [e|ds]; [done|].
    intros [= <-]. simpl. by rewrite (IH ds).
Qed.

(** Without deaggregation the record that [records[recordsCount - 1]] picks
    is the last one. *)
Lemma last_record_picked (env : Env) (Records : list RawRecord)
    (records : list DecodedRecord) :
  decoded_records env false Records = inr records →
  records !! (length Records - 1)%nat = last records.
Proof.
  unfold decoded_records. intros Hlen%decode_all_length.
  by rewrite last_lookup, Hlen, Nat.sub_1_r.
Qed.

(** A batch arrives in paused mode with automatic checkpoints: the sequence
    number of the picked record is kept for later, the batch is pushed, and
    neither a checkpoint is stored nor a timer set. *)
Lemma after_records_paused (snapshot : PrivateProps) (data : GetRecordsOutput)
    (env : Env) (c : Consumer) (records : list DecodedRecord) (record : DecodedRecord) :
  usePausedPolling snapshot = true →
  useAutoCheckpoints snapshot = true →
  decoded_records env (shouldDeaggregate snapshot) (Records data) = inr records →
  records !! (length (Records data) - 1)%nat = Some record →
  after_records snapshot data env c =
  (inr tt,
   emit (EvPushToStream None (Some (propsToPush snapshot data records)))
     (update (with_seqNumToCheckpoint (Some (sequenceNumber record))) c)).
Proof.
  intros Hpaused Hauto Hdecoded Hrecord.
  unfold after_records, pbind at 1, decoded, of_result. rewrite Hdecoded.
  unfold pbind at 1, auto_checkpoint. rewrite Hauto, Hrecord, Hpaused. simpl.
  unfold push_and_schedule, pbind, notify. by rewrite Hpaused.
Qed.

(** A poll that finds a pending sequence number stores it first: a request
    for records comes only after the state store has accepted it. *)
Lemma pending_stored_first (env : Env) (c : Consumer) (s : string) :
  lease_expired (props c) (Date_now env (trace c)) = false →
  seqNumToCheckpoint (props c) = Some s →
  s ≠ "" →
  let answer := stateStore_storeShardCheckpoint env (trace c) (shardId (props c)) s in
  let asked := emit (EvStoreShardCheckpoint (shardId (props c)) s answer) c in
  match answer with
  | inr _ =>
      store_pending (props c) env c =
      (inr tt, update (with_seqNumToCheckpoint None) (update (with_checkpoint (Some s)) asked))
  | inl e => pollForRecords_try (props c) env c = (inl e, asked)
  end.
Proof.
  intros Hlease Hstash Hs. cbv zeta.
  assert (Htruthy : truthy_str (Some s) = true).
  { simpl. by apply negb_true_iff, String.eqb_neq. }
  assert (Hstore : store_pending (props c) env c =
            pbind (setCheckpoint s) (λ _, write (with_seqNumToCheckpoint None)) env c).
  { unfold store_pending. by rewrite Hstash, Htruthy. }
  unfold pbind in Hstore. rewrite setCheckpoint_run in Hstore. cbv zeta in Hstore.
  destruct (stateStore_storeShardCheckpoint _ _ _ _) as [e|[]]; [|done].
  unfold pollForRecords_try, pbind at 1, now. rewrite Hlease.
  unfold pbind at 1. by rewrite Hstore.
Qed.

(** C6, as the code has it.  With paused polling and automatic checkpoints
    a poll that receives records pushes them all, sets no timer and stores no
    checkpoint; it keeps for the next poll the sequence number of the record
    at index [recordsCount - 1] of the decoded records, where [recordsCount]
    is the number of records of the answer.  Without deaggregation that is
    the last record ([last_record_picked]); when deaggregation yields more
    records than the answer had, it is not.  The next poll stores the kept
    sequence number before it asks for records ([pending_stored_first]). *)
Theorem paused_polling_batch (fuel : nat) (env : Env) (c c0 c1 : Consumer)
    (it : option string) (data : GetRecordsOutput) (records : list DecodedRecord)
    (picked : DecodedRecord) :
  let snapshot := props c in
  usePausedPolling snapshot = true →
  useAutoCheckpoints snapshot = true →
  lease_expired snapshot (Date_now env (trace c)) = false →
  store_pending snapshot env c = (inr tt, c0) →
  acquire_iterator snapshot env c0 = (inr it, c1) →
  client_getRecords env (trace c1) (limit snapshot) (default "" it) = inr data →
  Records data ≠ [] →
  decoded_records env (shouldDeaggregate snapshot) (Records data) = inr records →
  records !! (length (Records data) - 1)%nat = Some picked →
  let fetched :=
    update (with_iterator (NextShardIterator data))
      (emit (EvGetRecords (limit snapshot) (default "" it) (inr data)) c1) in
  pollForRecords fuel env c =
  Some (emit (EvPushToStream None (Some (propsToPush snapshot data records)))
          (update (with_seqNumToCheckpoint (Some (sequenceNumber picked))) fetched)).
Proof.
  intros snapshot Hpaused Hauto Hlease Hstore Hiterator Hrecords Hsome Hdecoded Hpicked
    fetched.
  subst snapshot.
  rewrite pollForRecords_unfold,
    (pollForRecords_try_fetched env c c0 c1 it data) by done.
  fold fetched.
  assert (Nat.eqb (length (Records data)) 0 = false) as ->.
  { apply Nat.eqb_neq. by destruct (Records data). }
  by rewrite (after_records_paused (props c) data env fetched records picked).
Qed.

End PollingConsumerFacts.

(** ** Reading the shard records *)

(** The reads of [getState], [getShardAndStreamState] and [getOwnedShards] up
    to the shard map of the mode. *)
Lemma shards_root_get (self : StateStore) (doc : value) (shards : gmap string value) :
  get_path (shards_root self) doc = Some (VMap shards) →
  ∃ m, doc = VMap m ∧
    ∀ w,
      (let* consumers := prop (Some doc) "consumers" in
       let* holder :=
         (if isStandalone self then prop consumers (consumerId self) else ret (Some doc)) in
       prop holder "shards") w = (inr (Some (VMap shards)), w).
Proof.
  unfold shards_root. destruct self as [cid [|]]; simpl; intros Hget.
  - destruct doc as [| | | | |m]; try done. exists m. split; [done|].
    rewrite get_path_cons in Hget.
    destruct (m !! "consumers") as [consumers|] eqn:Hcs; simpl in Hget; [|done].
    destruct consumers as [| | | | |cs]; try done. rewrite get_path_cons in Hget.
    destruct (cs !! cid) as [holder|] eqn:Hrec; simpl in Hget; [|done].
    destruct holder as [| | | | |rec]; try done. rewrite get_path_cons in Hget.
    destruct (rec !! "shards") as [x|] eqn:Hx; simpl in Hget; [|done].
    injection Hget as ->. intros w.
    cbv [bind prop ret]. rewrite ?Hcs. cbv beta iota. rewrite ?Hrec. cbv beta iota.
    by rewrite ?Hx.
  - destruct doc as [| | | | |m]; try done. exists m. split; [done|].
    rewrite get_path_cons in Hget.
    destruct (m !! "shards") as [x|] eqn:Hx; simpl in Hget; [|done].
    injection Hget as ->. intros w.
    cbv [bind prop ret]. by rewrite ?Hx.
Qed.

Lemma getState_run (self : StateStore) (shardId : string) (w : World) (doc : value)
    (shards : gmap string value) :
  fault_of w (length (requests w)) = None →
  item w = Some doc →
  get_path (shards_root self) doc = Some (VMap shards) →
  getState self shardId w =
  (inr (Some doc, own_or_inherited shards shardId), log_request ReqGet w).
Proof.
  intros Hfault Hitem Hget.
  destruct (shards_root_get self doc shards Hget) as (m & -> & Hreads).
  unfold getState, getStreamState. unfold bind at 1, client_get. rewrite Hfault, Hitem.
  specialize (Hreads (log_request ReqGet w)).
  unfold bind at 1 2 in Hreads. unfold bind at 1 2 3.
  destruct (prop (Some (VMap m)) "consumers" (log_request ReqGet w)) as [[e|consumers] w1];
    [done|].
  destruct ((if isStandalone self then prop consumers (consumerId self)
             else ret (Some (VMap m))) w1) as [[e|holder] w2]; [done|].
  rewrite Hreads. by unfold bind, member_of, ret.
Qed.

Lemma ensureShardStateExists_absent (self : StateStore) (shardId : string)
    (shardData : ShardData) (w : World) (doc : value) (shards : gmap string value) :
  fault_of w (length (requests w)) = None →
  item w = Some doc →
  get_path (shards_root self) doc = Some (VMap shards) →
  shards !! shardId = None →
  let record := new_shard_record shardData (uuid_of w (generated w)) in
  ∃ doc' params,
    ensureShardStateExists self shardId shardData w =
      (inr tt, set_item (Some doc') (log_request (ReqUpdate params) (bump_generated w))) ∧
    set_path (slot self shardId) record doc = Some doc' ∧
    get_path (shards_root self) doc' = Some (VMap (<[shardId := record]> shards)).
Proof.
  intros Hfault Hitem Hroot Habsent record.
  destruct (set_path_exists (shards_root self) (VMap (<[shardId := record]> shards)) _ _ Hroot)
    as [doc' Hdoc'].
  assert (Hset : set_path (slot self shardId) record doc = Some doc').
  { unfold slot. by rewrite (set_path_snoc _ _ _ _ _ Hroot). }
  exists doc'. eexists. split; [|split; [done|by eapply get_set_path_eq]].
  unfold ensureShardStateExists, try_catch, bind, generate, client_update.
  cbn [fault_of requests bump_generated item]. rewrite Hfault.
  cbn [ConditionExpression ExpressionAttributeNames ExpressionAttributeValues
       UpdateExpression eval_condition apply_actions apply_action].
  assert (resolve_path (<["#b":=shardId]> (shardsPathNames self)) (shardsPath self ++ ["#b"])
          = Some (slot self shardId)) as -> by (by destruct self as [? [|]]).
  rewrite Hitem. cbn [item_or_empty mbind option_bind].
  assert (get_path (slot self shardId) doc = None) as ->.
  { unfold slot. rewrite get_path_app, Hroot. simpl. by rewrite Habsent. }
  rewrite lookup_singleton_eq. cbn [mbind option_bind]. fold record.
  fold (new_shard_record shardData (uuid_of w (generated w))). fold record.
  rewrite Hset. done.
Qed.

Lemma ensureShardStateExists_present_run (self : StateStore) (shardId : string)
    (shardData : ShardData) (w : World) (x : value) :
  fault_of w (length (requests w)) = None →
  get_path (slot self shardId) (item_or_empty (item w)) = Some x →
  ∃ params,
    ensureShardStateExists self shardId shardData w =
      (inr tt, log_request (ReqUpdate params) (bump_generated w)).
Proof.
  intros Hfault Hslot. eexists.
  unfold ensureShardStateExists, try_catch, bind, generate, client_update.
  cbn [fault_of requests bump_generated item]. rewrite Hfault.
  cbn [ConditionExpression ExpressionAttributeNames ExpressionAttributeValues
       UpdateExpression eval_condition].
  assert (resolve_path (<["#b":=shardId]> (shardsPathNames self)) (shardsPath self ++ ["#b"])
          = Some (slot self shardId)) as -> by (by destruct self as [? [|]]).
  cbn [mbind option_bind]. rewrite Hslot. done.
Qed.

(** X1. [ensureShardStateExists], when the shard map of the mode exists and
    the client answers: afterwards the shard has a record, the one it had or
    else a new one with the given parent, no checkpoint, no lease, not
    depleted and a fresh version; a second call, with whatever shard data,
    changes nothing. *)
Theorem ensureShardStateExists_twice (self : StateStore) (shardId : string)
    (shardData shardData' : ShardData) (w : World) (doc : value)
    (shards : gmap string value) :
  (∀ n, fault_of w n = None) →
  item w = Some doc →
  get_path (shards_root self) doc = Some (VMap shards) →
  let first := ensureShardStateExists self shardId shardData w in
  let second := ensureShardStateExists self shardId shardData' first.2 in
  first.1 = inr tt ∧
  get_path (slot self shardId) (item_or_empty (item first.2)) =
    Some (default (new_shard_record shardData (uuid_of w (generated w)))
            (shards !! shardId)) ∧
  second.1 = inr tt ∧
  item second.2 = item first.2.
Proof.
  intros Hfault Hitem Hroot first second.
  assert (Hfirst : first.1 = inr tt ∧ (∀ n, fault_of first.2 n = None) ∧
            get_path (slot self shardId) (item_or_empty (item first.2)) =
              Some (default (new_shard_record shardData (uuid_of w (generated w)))
                      (shards !! shardId))).
  { unfold first. destruct (shards !! shardId) as [x|] eqn:Hx.
    - assert (Hslot : get_path (slot self shardId) (item_or_empty (item w)) = Some x).
      { rewrite Hitem. cbn [item_or_empty]. unfold slot. rewrite get_path_app, Hroot. simpl. by rewrite Hx. }
      destruct (ensureShardStateExists_present_run self shardId shardData w x (Hfault _)
                  Hslot) as [params ->].
      simpl. split; [done|]. by split.
    - destruct (ensureShardStateExists_absent self shardId shardData w doc shards
                  (Hfault _) Hitem Hroot Hx) as (doc' & params & -> & Hset & Hroot').
      simpl. split; [done|]. split; [done|]. by eapply get_set_path_eq. }
  destruct Hfirst as (Hr & Hfault' & Hslot). split; [done|]. split; [done|].
  unfold second.
  destruct (ensureShardStateExists_present_run self shardId shardData' first.2 _
              (Hfault' _) Hslot) as [params ->].
  done.
Qed.

(** X2. [getShardAndStreamState], when the shard map of the mode exists and
    the client answers.  A shard that has a record is answered from one read,
    and nothing is written.  So is a shard id without record that names a
    member inherited from [Object.prototype] (such as [constructor]): the
    answer is that member, and no record is created.  For any other shard
    without record the record is created, and the answer is a second read:
    the new document and the new record, never an undefined shard state. *)
Theorem getShardAndStreamState_spec (self : StateStore) (shardId : string)
    (shardData : ShardData) (w : World) (doc : value) (shards : gmap string value) :
  (∀ n, fault_of w n = None) →
  item w = Some doc →
  get_path (shards_root self) doc = Some (VMap shards) →
  let run := getShardAndStreamState self shardId shardData w in
  match shards !! shardId with
  | Some shardState =>
      run.1 = inr (Some doc, Some (own shardState)) ∧
      item run.2 = item w ∧
      requests run.2 = requests w ++ [ReqGet]
  | None =>
      if inherited shardId then
        run.1 = inr (Some doc, Some (inherited_member shardId)) ∧
        item run.2 = item w ∧
        requests run.2 = requests w ++ [ReqGet]
      else
        let record := new_shard_record shardData (uuid_of w (generated w)) in
        ∃ doc' params,
          set_path (slot self shardId) record doc = Some doc' ∧
          run.1 = inr (Some doc', Some (own record)) ∧
          item run.2 = Some doc' ∧
          requests run.2 = requests w ++ [ReqGet; ReqUpdate params; ReqGet]
  end.
Proof.
  intros Hfault Hitem Hroot run.
  assert (Hfirst : run =
            (if is_defined (own_or_inherited shards shardId)
             then ret (Some doc, own_or_inherited shards shardId)
             else let* _ := ensureShardStateExists self shardId shardData in
                  getState self shardId) (log_request ReqGet w)).
  { unfold run, getShardAndStreamState. unfold bind at 1.
    by rewrite (getState_run self shardId w doc shards). }
  unfold own_or_inherited in Hfirst.
  destruct (shards !! shardId) as [x|] eqn:Hx; cbn [is_defined] in Hfirst.
  - rewrite Hfirst. done.
  - destruct (inherited shardId) eqn:Hinherited; cbn [is_defined] in Hfirst.
    + rewrite Hfirst. done.
    + intros record. unfold bind at 1 in Hfirst.
      destruct (ensureShardStateExists_absent self shardId shardData (log_request ReqGet w)
                  doc shards (Hfault _) Hitem Hroot Hx)
        as (doc' & params & Hrun & Hset & Hroot').
      rewrite Hrun in Hfirst.
      rewrite (getState_run self shardId _ doc' (<[shardId := record]> shards)) in Hfirst;
        [|apply Hfault|done|done].
      exists doc', params. unfold own_or_inherited in Hfirst.
      rewrite lookup_insert_eq in Hfirst. rewrite Hfirst. simpl.
      split; [done|]. split; [done|]. split; [done|]. by rewrite <- !app_assoc.
Qed.

(** ** The shards a consumer owns *)

Section getOwnedShards_reads.
Variables (cid : string) (shards : gmap string value).
Hypothesis Hshards : ∀ k, shards !! k ≠ Some VNull.

Lemma owner_test (k : string) (v : value) (w : World) :
  shards !! k = Some v →
  (let* shard := prop (Some (VMap shards)) k in
   let* leaseOwner := prop shard "leaseOwner" in
   ret (is_string cid leaseOwner)) w
  = (inr (bool_decide (is_Some (owned_entry cid v))), w).
Proof.
  intros Hk. assert (Hv : v ≠ VNull) by (intros ->; by apply (Hshards k)).
  cbv [bind prop ret]. rewrite Hk.
  destruct v as [| | | | |r]; try done;
    try (by rewrite bool_decide_eq_false_2 by (by intros [? ?])).
  simpl. destruct (is_string cid (r !! "leaseOwner")).
  - by rewrite bool_decide_eq_true_2 by by eexists.
  - by rewrite bool_decide_eq_false_2 by (by intros [? ?]).
Qed.

Lemma owner_filter (l : list string) (w : World) :
  Forall (λ k, is_Some (shards !! k)) l →
  filterM (λ shardId,
      let* shard := prop (Some (VMap shards)) shardId in
      let* leaseOwner := prop shard "leaseOwner" in
      ret (is_string cid leaseOwner)) l w
  = (inr (filter (λ k, is_Some (shards !! k ≫= owned_entry cid)) l), w).
Proof.
  induction l as [|k l IH]; intros Hl; [done|].
  apply Forall_cons in Hl as [[v Hk] Hl]. cbn [filterM].
  unfold bind at 1. rewrite (owner_test k v w Hk).
  unfold bind at 1. rewrite (IH Hl). unfold ret. rewrite filter_cons, Hk. simpl.
  destruct (decide (is_Some (owned_entry cid v))) as [Hv|Hv].
  - by rewrite bool_decide_eq_true_2.
  - by rewrite bool_decide_eq_false_2.
Qed.

Lemma owned_reduce (l : list string) (init : gmap string OwnedShard) (w : World) :
  Forall (λ k, is_Some (shards !! k ≫= owned_entry cid)) l →
  ∃ owned,
    reduceM (λ obj shardId,
      let* shard := prop (Some (VMap shards)) shardId in
      let* checkpoint := prop shard "checkpoint" in
      let* leaseExpiration := prop shard "leaseExpiration" in
      let* version := prop shard "version" in
      ret (<[shardId := {| owned_checkpoint := checkpoint;
                           owned_leaseExpiration := leaseExpiration;
                           owned_version := version |}]> obj)) l init w
    = (inr owned, w) ∧
    ∀ k, owned !! k = if decide (k ∈ l) then shards !! k ≫= owned_entry cid else init !! k.
Proof.
  revert init. induction l as [|k l IH]; intros init Hl.
  { exists init. split; [done|]. intros k. by rewrite decide_False by apply not_elem_of_nil. }
  apply Forall_cons in Hl as [[entry Hk] Hl]. cbn [reduceM].
  destruct (shards !! k) as [v|] eqn:Hv; [|done]. simpl in Hk.
  destruct v as [| | | | |r]; try done. simpl in Hk.
  destruct (is_string cid (r !! "leaseOwner")) eqn:Howner; [|done]. injection Hk as <-.
  unfold bind at 1. unfold bind at 1. unfold prop at 1, ret at 1. rewrite Hv.
  cbv [bind prop ret].
  destruct (IH (<[k := {| owned_checkpoint := r !! "checkpoint";
                          owned_leaseExpiration := r !! "leaseExpiration";
                          owned_version := r !! "version" |}]> init) Hl)
    as (owned & Hrun & Hlookup).
  cbv [bind prop ret] in Hrun. exists owned. split; [exact Hrun|].
  intros j. rewrite Hlookup. destruct (decide (j ∈ l)) as [Hj|Hj].
  - by rewrite decide_True by by right.
  - destruct (decide (j = k)) as [->|Hne].
    + rewrite decide_True by by left. rewrite lookup_insert_eq, Hv. simpl. by rewrite Howner.
    + rewrite lookup_insert_ne by done. rewrite decide_False; [done|].
      by intros [?|?]%elem_of_cons.
Qed.
End getOwnedShards_reads.

Lemma getOwnedShards_reads (self : StateStore) (w : World) (doc : value)
    (shards : gmap string value) :
  fault_of w (length (requests w)) = None →
  item w = Some doc →
  get_path (shards_root self) doc = Some (VMap shards) →
  (∀ k, shards !! k ≠ Some VNull) →
  ∃ owned,
    getOwnedShards self w = (inr owned, log_request ReqGet w) ∧
    ∀ k, owned !! k = shards !! k ≫= owned_entry (consumerId self).
Proof.
  intros Hfault Hitem Hroot Hshards. set (run := getOwnedShards self w).
  destruct (shards_root_get self doc shards Hroot) as (m & -> & Hreads).
  set (keys := map fst (map_to_list shards)).
  assert (Hkeys : Forall (λ k, is_Some (shards !! k)) keys).
  { apply Forall_forall. intros k Hk. unfold keys in Hk.
    change (map fst ?l) with (fst <$> l) in Hk.
    apply list_elem_of_fmap in Hk as ([k' v] & -> & Hin%elem_of_map_to_list). by eexists. }
  set (kept := filter (λ k, is_Some (shards !! k ≫= owned_entry (consumerId self))) keys).
  destruct (owned_reduce (consumerId self) shards kept ∅ (log_request ReqGet w))
    as (owned & Hreduce & Hlookup).
  { apply Forall_forall. by intros k [Hk _]%list_elem_of_filter. }
  assert (Hrun : run = (inr owned, log_request ReqGet w)).
  { unfold run, getOwnedShards, getStreamState.
    unfold bind at 1, client_get. rewrite Hfault, Hitem.
    specialize (Hreads (log_request ReqGet w)).
    unfold bind at 1 2 in Hreads. unfold bind at 1 2 3.
    destruct (prop (Some (VMap m)) "consumers" (log_request ReqGet w))
      as [[e|consumers] w1]; [done|].
    destruct ((if isStandalone self then prop consumers (consumerId self)
               else ret (Some (VMap m))) w1) as [[e|holder] w2]; [done|].
    rewrite Hreads. unfold bind at 1, Object_keys at 1, ret at 1. fold keys.
    unfold bind at 1.
    rewrite (owner_filter (consumerId self) shards Hshards keys _ Hkeys). fold kept.
    exact Hreduce. }
  exists owned. split; [done|].
  intros k. rewrite Hlookup. destruct (decide (k ∈ kept)) as [Hk|Hk]; [done|].
  rewrite lookup_empty. destruct (shards !! k ≫= owned_entry (consumerId self)) eqn:Hentry;
    [|done].
  destruct Hk. apply list_elem_of_filter. split; [by rewrite Hentry|].
  destruct (shards !! k) as [v|] eqn:Hv; [|done].
  unfold keys. change (map fst ?l) with (fst <$> l).
  apply list_elem_of_fmap. exists (k, v). split; [done|]. by apply elem_of_map_to_list.
Qed.

(** X3. [getOwnedShards], when the shard map of the mode exists, none of its
    entries is null and the client answers: the result has an entry exactly
    for the shards whose [leaseOwner] is this consumer, with the checkpoint,
    the lease expiration and the version of the record; the call is one read,
    and nothing is written. *)
Theorem getOwnedShards_spec (self : StateStore) (w : World) (doc : value)
    (shards : gmap string value) :
  fault_of w (length (requests w)) = None →
  item w = Some doc →
  get_path (shards_root self) doc = Some (VMap shards) →
  (∀ k, shards !! k ≠ Some VNull) →
  let run := getOwnedShards self w in
  ∃ owned,
    run.1 = inr owned ∧
    (∀ k, owned !! k = shards !! k ≫= owned_entry (consumerId self)) ∧
    item run.2 = item w ∧
    requests run.2 = requests w ++ [ReqGet].
Proof.
  intros Hfault Hitem Hroot Hshards run.
  destruct (getOwnedShards_reads self w doc shards Hfault Hitem Hroot Hshards)
    as (owned & Hrun & Hlookup).
  exists owned. unfold run. rewrite Hrun. simpl. by repeat split.
Qed.


(** ** Leases and ownership *)

(** A lease update that went through, seen from the shard map of the mode. *)
Lemma lease_update_root (self : StateStore) (shardId : string) (vw vx vy vz : value)
    (w : World) (doc : value) (shards : gmap string value) :
  fault_of w (length (requests w)) = None →
  item w = Some doc →
  get_path (shards_root self) doc = Some (VMap shards) →
  let run := client_update (lease_params self shardId vw vx vy vz) w in
  ∀ u, run.1 = inr u →
    ∃ r doc',
      shards !! shardId = Some (VMap r) ∧
      run.2 = set_item (Some doc')
                (log_request (ReqUpdate (lease_params self shardId vw vx vy vz)) w) ∧
      get_path (shards_root self) doc' =
        Some (VMap (<[shardId := VMap (<["version" := vy]> (<["leaseExpiration" := vx]>
                                        (<["leaseOwner" := vw]> r)))]> shards)).
Proof.
  intros Hfault Hitem Hroot run u Hu.
  destruct (get_path (slot self shardId ++ ["version"]) (item_or_empty (item w)))
    as [y|] eqn:Hstored.
  2:{ unfold run in Hu.
      rewrite (lease_update_fail self shardId vw vx vy vz w Hfault) in Hu; [done|].
      by rewrite Hstored. }
  destruct (value_eqb y vz) eqn:Heq.
  2:{ unfold run in Hu.
      rewrite (lease_update_fail self shardId vw vx vy vz w Hfault) in Hu; [done|].
      by rewrite Hstored. }
  destruct (lease_update_ok self shardId vw vx vy vz y w Hfault Hstored Heq)
    as (doc' & Hset & Hrun).
  rewrite Hitem in Hstored, Hset. cbn [item_or_empty] in Hstored, Hset.
  apply get_path_snoc in Hstored as (r & Hslot & _).
  assert (Hr : shards !! shardId = Some (VMap r)).
  { unfold slot in Hslot. rewrite get_path_app, Hroot in Hslot. simpl in Hslot.
    by destruct (shards !! shardId). }
  exists r, doc'. split; [done|]. split; [by unfold run; rewrite Hrun|].
  rewrite (set_fields_spec _ _ _ r Hslot) in Hset. unfold slot in Hset.
  rewrite (set_path_snoc _ _ _ _ _ Hroot) in Hset.
  by apply get_set_path_eq in Hset.
Qed.

(** X4. A lease that [lockShardLease] has taken shows in [getOwnedShards]:
    when the lock answers [true], the shards the consumer then owns include
    the locked one, with the checkpoint it had, the new lease expiration and
    the new version, and every other shard is owned or not as before. *)
Theorem locked_shard_is_owned (self : StateStore) (shardId : string)
    (leaseTermTimeout : Z) (version : value) (w : World) (doc : value)
    (shards : gmap string value) :
  (∀ n, fault_of w n = None) →
  item w = Some doc →
  get_path (shards_root self) doc = Some (VMap shards) →
  (∀ k, shards !! k ≠ Some VNull) →
  let locked := lockShardLease self shardId leaseTermTimeout version w in
  locked.1 = inr true →
  ∃ owned r,
    (getOwnedShards self locked.2).1 = inr owned ∧
    shards !! shardId = Some (VMap r) ∧
    owned !! shardId =
      Some {| owned_checkpoint := r !! "checkpoint";
              owned_leaseExpiration := Some (VTime (clock w + leaseTermTimeout));
              owned_version := Some (VStr (uuid_of w (generated w))) |} ∧
    ∀ k, k ≠ shardId → owned !! k = shards !! k ≫= owned_entry (consumerId self).
Proof.
  intros Hfault Hitem Hroot Hshards locked Hlocked.
  unfold locked in *. rewrite lockShardLease_unfold in Hlocked |- *.
  destruct (valid_time (clock w + leaseTermTimeout)); [|done].
  pose proof (lease_update_root self shardId (VStr (consumerId self))
                (VTime (clock w + leaseTermTimeout)) (VStr (uuid_of w (generated w)))
                version (bump_generated w) doc shards (Hfault _) Hitem Hroot) as Hupdate.
  cbv zeta in Hupdate.
  destruct (client_update _ (bump_generated w)) as [[e|u] w'] eqn:Hrun.
  { simpl in Hlocked. by destruct (is_conditional_check_failed e). }
  destruct (Hupdate u eq_refl) as (r & doc' & Hr & Hw' & Hroot'). simpl in Hw'.
  assert (Hitem' : item w' = Some doc') by (by rewrite Hw').
  assert (Hfault' : fault_of w' (length (requests w')) = None)
    by (rewrite Hw'; apply Hfault).
  destruct (getOwnedShards_reads self w' doc' _ Hfault' Hitem' Hroot')
    as (owned & Howned & Hlookup).
  { intros k. destruct (decide (k = shardId)) as [->|Hne].
    - by rewrite lookup_insert_eq.
    - rewrite lookup_insert_ne by done. apply Hshards. }
  exists owned, r. split; [simpl; by rewrite Howned|]. split; [done|]. split.
  - rewrite Hlookup, lookup_insert_eq. cbn [mbind option_bind owned_entry].
    repeat (rewrite lookup_insert_eq || rewrite lookup_insert_ne by done).
    simpl. by rewrite String.eqb_refl.
  - intros k Hne. by rewrite Hlookup, lookup_insert_ne.
Qed.

(** X5. A lease that [releaseShardLease] has given back is gone from
    [getOwnedShards]: when the release answers with a version, the shard is
    not among those the consumer then owns, and every other shard is owned
    or not as before. *)
Theorem released_shard_is_not_owned (self : StateStore) (shardId : string)
    (version : value) (w : World) (doc : value) (shards : gmap string value)
    (released : string) :
  (∀ n, fault_of w n = None) →
  item w = Some doc →
  get_path (shards_root self) doc = Some (VMap shards) →
  (∀ k, shards !! k ≠ Some VNull) →
  let release := releaseShardLease self shardId version w in
  release.1 = inr (Some released) →
  ∃ owned,
    (getOwnedShards self release.2).1 = inr owned ∧
    owned !! shardId = None ∧
    ∀ k, k ≠ shardId → owned !! k = shards !! k ≫= owned_entry (consumerId self).
Proof.
  intros Hfault Hitem Hroot Hshards release Hreleased.
  unfold release in *. rewrite releaseShardLease_unfold in Hreleased |- *.
  pose proof (lease_update_root self shardId VNull VNull (VStr (uuid_of w (generated w)))
                version (bump_generated w) doc shards (Hfault _) Hitem Hroot) as Hupdate.
  cbv zeta in Hupdate.
  destruct (client_update _ (bump_generated w)) as [[e|u] w'] eqn:Hrun.
  { simpl in Hreleased. by destruct (is_conditional_check_failed e). }
  destruct (Hupdate u eq_refl) as (r & doc' & Hr & Hw' & Hroot'). simpl in Hw'.
  assert (Hitem' : item w' = Some doc') by (by rewrite Hw').
  assert (Hfault' : fault_of w' (length (requests w')) = None)
    by (rewrite Hw'; apply Hfault).
  destruct (getOwnedShards_reads self w' doc' _ Hfault' Hitem' Hroot')
    as (owned & Howned & Hlookup).
  { intros k. destruct (decide (k = shardId)) as [->|Hne].
    - by rewrite lookup_insert_eq.
    - rewrite lookup_insert_ne by done. apply Hshards. }
  exists owned. split; [simpl; by rewrite Howned|]. split.
  - rewrite Hlookup, lookup_insert_eq. cbn [mbind option_bind owned_entry].
    by repeat (rewrite lookup_insert_eq || rewrite lookup_insert_ne by done).
  - intros k Hne. by rewrite Hlookup, lookup_insert_ne.
Qed.

(** ** Checkpoints *)

Lemma set_path_snoc_None (r : list string) (k : string) (x d : value) :
  (∀ m, get_path r d ≠ Some (VMap m)) → set_path (r ++ [k]) x d = None.
Proof.
  revert d. induction r as [|j r IH]; intros d Hget.
  - destruct d as [| | | | |m]; try done. by destruct (Hget m).
  - destruct d as [| | | | |m]; try done. rewrite get_path_cons in Hget.
    assert (Hcons : set_path ((j :: r) ++ [k]) x (VMap m) =
                    m !! j ≫= λ c, set_path (r ++ [k]) x c ≫= λ c', Some (VMap (<[j:=c']> m))).
    { by destruct r. }
    rewrite Hcons. destruct (m !! j) as [c|]; simpl in *; [|done].
    by rewrite IH.
Qed.

(** X6. [storeShardCheckpoint], when the shard map of the mode exists and the
    client answers.  For a shard with a record, the checkpoint is what
    [getShardAndStreamState] reads next, the version is fresh and the other
    attributes of the record are as they were.  For a shard without a record
    the call fails with a validation error and the document stays as it was:
    a checkpoint never creates a shard record. *)
Theorem storeShardCheckpoint_round_trip (self : StateStore) (shardId : string)
    (checkpoint : value) (shardData : ShardData) (w : World) (doc : value)
    (shards : gmap string value) :
  (∀ n, fault_of w n = None) →
  item w = Some doc →
  get_path (shards_root self) doc = Some (VMap shards) →
  let store := storeShardCheckpoint self shardId checkpoint w in
  match shards !! shardId with
  | Some (VMap r) =>
      store.1 = inr tt ∧
      ∃ doc',
        item store.2 = Some doc' ∧
        (getShardAndStreamState self shardId shardData store.2).1 =
          inr (Some doc',
               Some (own (VMap (<["version" := VStr (uuid_of w (generated w))]>
                                  (<["checkpoint" := checkpoint]> r)))))
  | _ => store.1 = inl (AwsError ValidationException) ∧ item store.2 = item w
  end.
Proof.
  intros Hfault Hitem Hroot store.
  set (y := uuid_of w (generated w)).
  assert (Hstore : store =
    match set_fields (slot self shardId)
            [("checkpoint", checkpoint); ("version", VStr y)] doc with
    | Some doc' =>
        (inr tt, set_item (Some doc')
                   (log_request (ReqUpdate {|
                      UpdateExpression :=
                        [ SET (shardsPath self ++ ["#b"; "#c"]) ":x";
                          SET (shardsPath self ++ ["#b"; "#d"]) ":y" ];
                      ConditionExpression := None;
                      ExpressionAttributeNames :=
                        <["#d" := "version"]> (<["#c" := "checkpoint"]>
                          (<["#b" := shardId]> (shardsPathNames self)));
                      ExpressionAttributeValues := <[":y" := VStr y]> {[":x" := checkpoint]}
                    |}) (bump_generated w)))
    | None =>
        (inl (AwsError ValidationException),
         log_request (ReqUpdate {|
            UpdateExpression :=
              [ SET (shardsPath self ++ ["#b"; "#c"]) ":x";
                SET (shardsPath self ++ ["#b"; "#d"]) ":y" ];
            ConditionExpression := None;
            ExpressionAttributeNames :=
              <["#d" := "version"]> (<["#c" := "checkpoint"]>
                (<["#b" := shardId]> (shardsPathNames self)));
            ExpressionAttributeValues := <[":y" := VStr y]> {[":x" := checkpoint]}
          |}) (bump_generated w))
    end).
  { unfold store, storeShardCheckpoint, bind, generate, client_update.
    cbn [fault_of requests bump_generated item ConditionExpression
         ExpressionAttributeNames ExpressionAttributeValues UpdateExpression].
    rewrite Hfault, Hitem. cbn [item_or_empty]. fold y.
    assert (apply_actions
              (<["#d" := "version"]> (<["#c" := "checkpoint"]>
                 (<["#b" := shardId]> (shardsPathNames self))))
              (<[":y" := VStr y]> {[":x" := checkpoint]})
              [ SET (shardsPath self ++ ["#b"; "#c"]) ":x";
                SET (shardsPath self ++ ["#b"; "#d"]) ":y" ] doc
            = set_fields (slot self shardId)
                [("checkpoint", checkpoint); ("version", VStr y)] doc) as ->
      by (by destruct self as [cid [|]]).
    by destruct (set_fields _ _ doc). }
  destruct (shards !! shardId) as [x|] eqn:Hx.
  2:{ rewrite Hstore. cbn [set_fields]. rewrite set_path_snoc_None; [by rewrite Hitem|].
      intros m. unfold slot. rewrite get_path_app, Hroot. simpl. by rewrite Hx. }
  assert (Hslot : get_path (slot self shardId) doc = Some x).
  { unfold slot. rewrite get_path_app, Hroot. simpl. by rewrite Hx. }
  destruct x as [| | | | |r];
    try (rewrite Hstore; cbn [set_fields];
         rewrite set_path_snoc_None; [by rewrite Hitem|]; intros m; by rewrite Hslot).
  rewrite (set_fields_spec _ _ _ r Hslot) in Hstore. unfold slot in Hstore.
  rewrite (set_path_snoc _ _ _ _ _ Hroot) in Hstore.
  destruct (set_path_exists (shards_root self)
              (VMap (<[shardId := VMap (insert_fields
                        [("checkpoint", checkpoint); ("version", VStr y)] r)]> shards))
              _ _ Hroot) as [doc' Hdoc'].
  rewrite Hdoc' in Hstore. rewrite Hstore. split; [done|]. exists doc'. split; [done|].
  unfold getShardAndStreamState, bind.
  erewrite getState_run; [| apply Hfault | done | by eapply get_set_path_eq].
  unfold own_or_inherited. by rewrite lookup_insert_eq.
Qed.

(** ** Registering a consumer *)

(** X7. [registerConsumer], when the document has a [consumers] map and the
    first update is answered.  A consumer without record gets one, with its
    heartbeat and, if standalone, an empty shard map.  For a consumer that has
    a record the call never throws and changes at most its heartbeat: the
    start time and the shard records of a standalone consumer under it stay;
    when the second update fails, nothing changes at all. *)
Theorem registerConsumer_spec (proc : Process) (self : StateStore) (w : World)
    (doc consumers : gmap string value) :
  fault_of w (length (requests w)) = None →
  item w = Some (VMap doc) →
  doc !! "consumers" = Some (VMap consumers) →
  let run := registerConsumer proc self w in
  let registered (record : gmap string value) :=
    Some (VMap (<["consumers" := VMap (<[consumerId self := VMap record]> consumers)]> doc)) in
  run.1 = inr tt ∧
  match consumers !! consumerId self with
  | None =>
      ∃ record,
        item run.2 = registered record ∧
        record !! "heartbeat" = Some (VTime (clock w)) ∧
        record !! "isStandalone" = Some (VBool (isStandalone self)) ∧
        record !! "shards" = (if isStandalone self then Some (VMap ∅) else None)
  | Some (VMap record) =>
      match fault_of w (S (length (requests w))) with
      | None => item run.2 = registered (<["heartbeat" := VTime (clock w)]> record)
      | Some _ => item run.2 = item w
      end
  | Some _ => item run.2 = item w
  end.
Proof.
  intros Hfault Hitem Hconsumers run registered.
  assert (Hget : get_path ["consumers"; consumerId self] (VMap doc)
                 = consumers !! consumerId self).
  { rewrite get_path_cons, Hconsumers. simpl. by destruct (consumers !! consumerId self). }
  unfold run. clear run. destruct (registerConsumer proc self w) as [res w'] eqn:Hrun.
  cbn [fst snd].
  unfold registerConsumer, bind, Date_now, try_catch, client_update in Hrun.
  cbn [fault_of requests item log_request ConditionExpression ExpressionAttributeNames
       ExpressionAttributeValues UpdateExpression eval_condition apply_actions apply_action]
    in Hrun.
  rewrite Hfault, Hitem in Hrun. cbn [item_or_empty] in Hrun.
  assert (Hnames : resolve_path (<["#b" := consumerId self]> {["#a" := "consumers"]})
                     ["#a"; "#b"] = Some ["consumers"; consumerId self]) by done.
  rewrite Hnames in Hrun. cbn [mbind option_bind] in Hrun. rewrite Hget in Hrun.
  destruct (consumers !! consumerId self) as [x|] eqn:Hx.
  - change (is_conditional_check_failed (AwsError ConditionalCheckFailedException))
      with true in Hrun.
    cbv beta iota in Hrun.
    cbn [fault_of requests item log_request ConditionExpression ExpressionAttributeNames
         ExpressionAttributeValues UpdateExpression apply_actions apply_action] in Hrun.
    assert (Hnames' : resolve_path
                        (<["#c" := "heartbeat"]> (<["#b" := consumerId self]>
                           {["#a" := "consumers"]}))
                        ["#a"; "#b"; "#c"] = Some ["consumers"; consumerId self; "heartbeat"])
      by done.
    rewrite length_app in Hrun. cbn [length] in Hrun. rewrite Nat.add_1_r in Hrun.
    destruct (fault_of w (S (length (requests w)))) as [e|] eqn:Hfault2.
    { simpl in Hrun. injection Hrun as <- <-. split; [done|]. by destruct x. }
    rewrite Hnames' in Hrun. rewrite lookup_singleton_eq in Hrun.
    cbn [mbind option_bind] in Hrun.
    change ["consumers"; consumerId self; "heartbeat"]
      with (["consumers"; consumerId self] ++ ["heartbeat"]) in Hrun.
    rewrite Hitem in Hrun. cbn [item_or_empty] in Hrun.
    destruct x as [| | | | |record].
    1-5: assert (Hnm : ∀ m, get_path ["consumers"; consumerId self] (VMap doc)
                            ≠ Some (VMap m)) by (intros m; by rewrite Hget).
    1-5: rewrite (set_path_snoc_None _ _ _ _ Hnm) in Hrun.
    1-5: simpl in Hrun; injection Hrun as <- <-; by split.
    rewrite (set_path_snoc _ _ _ _ record) in Hrun by by rewrite Hget.
    change ["consumers"; consumerId self] with (["consumers"] ++ [consumerId self]) in Hrun.
    rewrite (set_path_snoc _ _ _ _ consumers) in Hrun by (simpl; by rewrite Hconsumers).
    simpl in Hrun. injection Hrun as <- <-. done.
  - rewrite lookup_singleton_eq in Hrun. cbn [mbind option_bind] in Hrun.
    change ["consumers"; consumerId self] with (["consumers"] ++ [consumerId self]) in Hrun.
    rewrite (set_path_snoc _ _ _ _ consumers) in Hrun by (simpl; by rewrite Hconsumers).
    simpl in Hrun. injection Hrun as <- <-. split; [done|]. eexists. split; [done|].
    destruct (isStandalone self); simpl;
      repeat (rewrite lookup_insert_eq || rewrite lookup_insert_ne by done); done.
Qed.

(** ** Clearing the consumers that stopped their heartbeat *)

Lemma old_consumers_exact (cs : gmap string value) (timeout : Z) (ids acc : list string)
    (w : World) :
  (∀ id, id ∈ ids → ∃ rec, cs !! id = Some rec ∧ rec ≠ VNull) →
  reduceM (old_consumer_step (Some (VMap cs)) timeout) ids acc w
  = (inr (acc ++ filter (λ id, from_option (is_stale (clock w) timeout) false (cs !! id) = true)
                   ids), w).
Proof.
  revert acc. induction ids as [|id ids IH]; intros acc Hids.
  - simpl. by rewrite app_nil_r.
  - destruct (Hids id) as (rec & Hrec & Hnull); [by left|].
    simpl. unfold bind at 1. unfold old_consumer_step at 1.
    unfold bind, prop at 1, ret, Date_now. rewrite Hrec.
    assert (prop (Some rec) "heartbeat" w = (inr (get_path ["heartbeat"] rec), w)) as ->.
    { destruct rec; simpl; unfold ret, throw; try done.
      by destruct (_ !! "heartbeat"). }
    rewrite IH by (intros i Hi; apply Hids; by right).
    rewrite filter_cons, Hrec. simpl. unfold is_stale.
    destruct (getTime (get_path ["heartbeat"] rec)) as [t|].
    + destruct (Z.ltb timeout (clock w - t)).
      * rewrite decide_True by done. by rewrite <- app_assoc.
      * by rewrite decide_False by done.
    + by rewrite decide_False by done.
Qed.

Lemma remove_consumers (names : gmap string string) (vals : gmap string value)
    (doc : gmap string value) (old : list string) (cs : gmap string value) :
  names !! "#a" = Some "consumers" →
  (∀ i id, old !! i = Some id → names !! name_ref i = Some id) →
  apply_actions names vals (imap (λ index _, REMOVE ["#a"; name_ref index]) old)
    (VMap (<["consumers" := VMap cs]> doc))
  = Some (VMap (<["consumers" := VMap (foldl (λ m id, delete id m) cs old)]> doc)).
Proof.
  intros Ha. induction old as [|id old IH] using rev_ind; intros Hold; [done|].
  rewrite imap_app, apply_actions_app, IH
    by (intros i x Hi; apply Hold; by apply lookup_app_l_Some).
  simpl. unfold resolve_path. simpl. rewrite Ha. simpl.
  rewrite Nat.add_0_r, (Hold (length old) id) by (by rewrite list_lookup_middle).
  simpl. rewrite lookup_insert_eq. simpl. rewrite insert_insert_eq.
  by rewrite foldl_app.
Qed.

Lemma lookup_foldl_delete (cs : gmap string value) (old : list string) (k : string) :
  foldl (λ m id, delete id m) cs old !! k = if decide (k ∈ old) then None else cs !! k.
Proof.
  revert cs. induction old as [|id old IH]; intros cs; simpl; [done|].
  rewrite IH. destruct (decide (k ∈ old)) as [Hin|Hout].
  - rewrite decide_True; [done|by right].
  - destruct (decide (k = id)) as [->|Hne].
    + rewrite lookup_delete_eq. rewrite decide_True; [done|by left].
    + rewrite lookup_delete_ne by done. rewrite decide_False; [done|].
      intros [?|?]%elem_of_cons; done.
Qed.

(** X8.  When at least one consumer of the document has a heartbeat older than
    the timeout, and no fault occurs, [clearOldConsumers] leaves exactly the
    consumers whose heartbeat is not older (or is no date) and gives the
    document a freshly generated version; everything else is kept. *)
Theorem clearOldConsumers_removes (self : StateStore) (heartbeatFailureTimeout : Z)
    (w : World) (doc consumers : gmap string value) (version id : string) (rec : value) :
  fault_of w (length (requests w)) = None →
  fault_of w (S (length (requests w))) = None →
  item w = Some (VMap doc) →
  doc !! "consumers" = Some (VMap consumers) →
  doc !! "version" = Some (VStr version) →
  (∀ k, consumers !! k ≠ Some VNull) →
  consumers !! id = Some rec →
  is_stale (clock w) heartbeatFailureTimeout rec = true →
  let run := clearOldConsumers self heartbeatFailureTimeout w in
  run.1 = inr tt ∧
  item run.2 = Some (VMap (
    <["version" := VStr (uuid_of w (generated w))]>
      (<["consumers" :=
           VMap (filter (λ kv, is_stale (clock w) heartbeatFailureTimeout kv.2 = false)
                   consumers)]> doc))).
Proof.
  intros Hfault Hfault' Hitem Hcs Hversion Hnull Hid Hstale.
  destruct (clearOldConsumers self heartbeatFailureTimeout w) as [res w'] eqn:Hrun.
  unfold clearOldConsumers, getStreamState, client_get in Hrun. unfold bind at 1 in Hrun.
  rewrite Hfault, Hitem in Hrun.
  set (w1 := log_request ReqGet w) in Hrun.
  unfold bind at 1 in Hrun. unfold prop at 1, ret at 1 in Hrun.
  unfold bind at 1 in Hrun. unfold prop at 1, ret at 1 in Hrun.
  unfold bind at 1 in Hrun. rewrite Hcs, Hversion in Hrun.
  unfold Object_keys, ret at 1 in Hrun. unfold bind at 1 in Hrun.
  change (reduceM _ (map fst (map_to_list consumers)) [] w1)
    with (reduceM (old_consumer_step (Some (VMap consumers)) heartbeatFailureTimeout)
            (map fst (map_to_list consumers)) [] w1) in Hrun.
  rewrite old_consumers_exact in Hrun.
  2:{ intros k Hk. apply list_elem_of_fmap in Hk as ([k' v] & -> & Hkv).
      apply elem_of_map_to_list in Hkv. exists v. split; [done|].
      intros ->. by apply (Hnull k'). }
  cbn [app] in Hrun. change (clock w1) with (clock w) in Hrun.
  set (old := filter _ (map fst (map_to_list consumers))) in Hrun.
  assert (Hold : ∀ k, k ∈ old ↔
            from_option (is_stale (clock w) heartbeatFailureTimeout) false (consumers !! k)
            = true).
  { intros k. unfold old. rewrite list_elem_of_filter. split; [by intros [? _]|].
    intros Hk. split; [done|]. destruct (consumers !! k) as [v|] eqn:Hv; [|done].
    apply list_elem_of_fmap. exists (k, v). split; [done|].
    by apply elem_of_map_to_list. }
  assert (id ∈ old) as Hin by (apply Hold; by rewrite Hid).
  destruct old as [|o old'] eqn:Hlist; [by apply elem_of_nil in Hin|].
  rewrite <- Hlist in *. 
  replace (Nat.eqb (length old) 0) with false in Hrun by (by rewrite Hlist).
  unfold try_catch, bind at 1, generate in Hrun.
  unfold client_update in Hrun.
  change (fault_of (bump_generated w1) (length (requests (bump_generated w1))))
    with (fault_of w (length (requests w ++ [ReqGet]))) in Hrun.
  rewrite last_length, Hfault' in Hrun.
  cbn [ConditionExpression ExpressionAttributeNames ExpressionAttributeValues
       UpdateExpression] in Hrun.
  change (item (bump_generated w1)) with (item w) in Hrun. rewrite Hitem in Hrun.
  cbn [item_or_empty] in Hrun.
  set (names := _ ∪ _) in Hrun.
  assert (Ha : names !! "#a" = Some "consumers").
  { unfold names. rewrite lookup_union_r
      by (apply (indexed_names_letter (λ x, x)); letter). done. }
  assert (Hb : names !! "#b" = Some "version").
  { unfold names. rewrite lookup_union_r
      by (apply (indexed_names_letter (λ x, x)); letter). done. }
  assert (Hnames : ∀ i k, old !! i = Some k → names !! name_ref i = Some k).
  { intros i k Hi. unfold names. apply lookup_union_Some_l.
    by apply (indexed_names_lookup (λ x, x)). }
  unfold eval_condition, resolve_path in Hrun. simpl mapM in Hrun.
  rewrite Hb in Hrun. simpl in Hrun. rewrite Hversion in Hrun. simpl in Hrun.
  rewrite lookup_insert_eq in Hrun. simpl in Hrun. rewrite String.eqb_refl in Hrun.
  rewrite apply_actions_app in Hrun.
  rewrite <- (insert_id doc "consumers" (VMap consumers)) in Hrun at 1 by done.
  rewrite remove_consumers in Hrun by done.
  simpl in Hrun. unfold resolve_path in Hrun. simpl in Hrun. rewrite Hb in Hrun.
  simpl in Hrun. rewrite lookup_insert_ne, lookup_singleton_eq in Hrun by done.
  simpl in Hrun. injection Hrun as <- <-. split; [done|]. simpl. do 3 f_equal.
  f_equal. f_equal. apply map_eq. intros k.
  rewrite lookup_foldl_delete, map_lookup_filter.
  destruct (decide (k ∈ old)) as [Hk|Hk]; rewrite Hold in Hk.
  - destruct (consumers !! k) as [v|]; [|done]. simpl in *.
    rewrite option_guard_False; [done|by rewrite Hk].
  - destruct (consumers !! k) as [v|]; [|done]. simpl in *.
    rewrite option_guard_True; [done|]. by destruct (is_stale _ _ v).
Qed.

(** ** More about the polling consumer *)

Module PollingConsumerMore.
Import PollingConsumer PollingConsumerVocabulary PollingConsumerFacts.

(** *** Computations that only add to the trace *)

Lemma growing_quiet {A} (m : P A) : quiet m → growing m.
Proof. intros Hm env c. destruct (Hm env c) as (_ & _ & _ & evs & Htr & _). by exists evs. Qed.

Lemma growing_pret {A} (a : A) : growing (pret a).
Proof. apply growing_quiet, quiet_pret. Qed.

Lemma growing_pbind {A B} (m : P A) (k : A → P B) :
  growing m → (∀ a, growing (k a)) → growing (pbind m k).
Proof.
  intros Hm Hk env c. unfold pbind. destruct (Hm env c) as [evs Htr].
  destruct (m env c) as [[e|a] c1]; simpl in *; [by exists evs|].
  destruct (Hk a env c1) as [evs' Htr']. exists (evs ++ evs').
  by rewrite Htr', Htr, <- app_assoc.
Qed.

Lemma growing_ask {A} (answer : Env → list Event → error + A) (event : error + A → Event) :
  growing (ask answer event).
Proof. intros env c. by eexists [_]. Qed.

Lemma growing_notify (e : Event) : growing (notify e).
Proof. intros env c. by exists [e]. Qed.

Lemma growing_write (f : PrivateProps → PrivateProps) : growing (write f).
Proof. intros env c. exists []. by rewrite app_nil_r. Qed.

Lemma growing_setCheckpoint (sequenceNumber : string) : growing (setCheckpoint sequenceNumber).
Proof.
  intros env c. rewrite setCheckpoint_run. cbv zeta.
  destruct (stateStore_storeShardCheckpoint _ _ _ _); by eexists [_].
Qed.

Lemma growing_store_pending (snapshot : PrivateProps) : growing (store_pending snapshot).
Proof.
  unfold store_pending. destruct (truthy_str _); [|apply growing_pret].
  apply growing_pbind; [apply growing_setCheckpoint|]. intros _. apply growing_write.
Qed.

Lemma growing_auto_checkpoint (snapshot : PrivateProps) (data : GetRecordsOutput)
    (records : list DecodedRecord) :
  growing (auto_checkpoint snapshot data records).
Proof.
  unfold auto_checkpoint. destruct (useAutoCheckpoints snapshot); [|apply growing_pret].
  destruct (records !! _); [|apply growing_quiet, quiet_pthrow].
  destruct (negb _); [apply growing_setCheckpoint|apply growing_write].
Qed.

Lemma growing_decoded (snapshot : PrivateProps) (data : GetRecordsOutput) :
  growing (decoded snapshot data).
Proof. intros env c. exists []. by rewrite app_nil_r. Qed.

(** *** How a poll ends *)

Lemma handing_over_pbind {A B} (m : P A) (k : A → P B) :
  growing m → (∀ a, handing_over (k a)) → handing_over (pbind m k).
Proof.
  intros Hm Hk env c b c' Hrun. unfold pbind in Hrun. destruct (Hm env c) as [evs Htr].
  destruct (m env c) as [[e|a] c1]; [done|]. simpl in Htr.
  destruct (Hk a env c1 b c' Hrun) as (evs' & e & Htr' & He).
  exists (evs ++ evs'), e. by rewrite Htr', Htr, <- !app_assoc.
Qed.

Lemma handing_over_notify (e : Event) : hands_over e = true → handing_over (notify e).
Proof. intros He env c [] c' [= <-]. by exists [], e. Qed.

Lemma handing_over_schedule (delay : Z) (f : PrivateProps → PrivateProps) :
  handing_over (do! _ := notify (EvSetTimeout delay) in write f).
Proof. intros env c [] c' [= <-]. by exists [], (EvSetTimeout delay). Qed.

Lemma handing_over_after_no_records (snapshot : PrivateProps) (data : GetRecordsOutput) :
  handing_over (after_no_records snapshot data).
Proof.
  unfold after_no_records. destruct (NextShardIterator data).
  - apply handing_over_pbind; [apply growing_ask|]. intros listing. cbv zeta.
    apply handing_over_pbind; [apply growing_ask|]. intros _.
    by apply handing_over_notify.
  - apply handing_over_schedule.
  - apply handing_over_schedule.
Qed.

Lemma handing_over_push_and_schedule (snapshot : PrivateProps) (data : GetRecordsOutput)
    (records : list DecodedRecord) :
  handing_over (push_and_schedule snapshot data records).
Proof.
  unfold push_and_schedule. destruct (usePausedPolling snapshot) eqn:Hpaused; simpl.
  - intros env c [] c' [= <-]. eexists [], _. split; [done|]. simpl. by rewrite Hpaused.
  - apply handing_over_pbind; [apply growing_notify|]. intros _.
    apply handing_over_schedule.
Qed.

Lemma handing_over_try (snapshot : PrivateProps) : handing_over (pollForRecords_try snapshot).
Proof.
  unfold pollForRecords_try.
  apply handing_over_pbind; [apply growing_quiet, quiet_now|]. intros t.
  destruct (lease_expired snapshot t); [by apply handing_over_notify|].
  apply handing_over_pbind; [apply growing_store_pending|]. intros _.
  apply handing_over_pbind; [apply growing_quiet, quiet_acquire_iterator|]. intros it.
  apply handing_over_pbind; [apply growing_ask|]. intros data.
  apply handing_over_pbind; [apply growing_write|]. intros _.
  destruct (Nat.eqb _ 0); [apply handing_over_after_no_records|].
  unfold after_records.
  apply handing_over_pbind; [apply growing_decoded|]. intros records.
  apply handing_over_pbind; [apply growing_auto_checkpoint|]. intros _.
  apply handing_over_push_and_schedule.
Qed.

(** X9.  A poll that returns has handed over with the last thing it did: it
    set a timer for the next poll, stopped the consumer, gave an error to the
    stream, or gave records to a downstream that continues the polling
    itself.  No path through [pollForRecords] ends silently. *)
Theorem poll_hands_over (fuel : nat) (env : Env) (c c' : Consumer) :
  pollForRecords fuel env c = Some c' →
  ∃ evs e, trace c' = trace c ++ evs ++ [e] ∧ hands_over e = true.
Proof.
  revert c. induction fuel as [|fuel IH]; intros c; rewrite pollForRecords_unfold;
    pose proof (pollForRecords_try_extends env c) as (_ & _ & [evs Htr] & _);
    pose proof (handing_over_try (props c) env c) as Hend;
    destruct (pollForRecords_try (props c) env c) as [[err|[]] c1]; simpl in Htr.
  - destruct (is_code _ err); [done|]. intros [= <-].
    exists evs, (EvPushToStream (Some err) None). simpl. by rewrite Htr, <- app_assoc.
  - intros [= <-]. by apply (Hend tt).
  - destruct (is_code _ err).
    + intros (evs' & e & Htr' & He)%IH. exists (evs ++ evs'), e.
      split; [|done]. rewrite Htr'. simpl. by rewrite Htr, <- !app_assoc.
    + intros [= <-].
      exists evs, (EvPushToStream (Some err) None). simpl. by rewrite Htr, <- app_assoc.
  - intros [= <-]. by apply (Hend tt).
Qed.

(** X10.  When the records of an answer cannot be deaggregated or decoded,
    the poll gives the error to the stream and nothing else: the iterator has
    already moved past the batch, nothing is stored and no timer is set, so
    the batch is never delivered. *)
Theorem undecodable_batch_is_skipped (fuel : nat) (env : Env) (c c0 c1 : Consumer)
    (it : option string) (data : GetRecordsOutput) (e : error) :
  let snapshot := props c in
  lease_expired snapshot (Date_now env (trace c)) = false →
  store_pending snapshot env c = (inr tt, c0) →
  acquire_iterator snapshot env c0 = (inr it, c1) →
  client_getRecords env (trace c1) (limit snapshot) (default "" it) = inr data →
  Records data ≠ [] →
  decoded_records env (shouldDeaggregate snapshot) (Records data) = inl e →
  is_code "ExpiredIteratorException" e = false →
  pollForRecords fuel env c =
  Some (emit (EvPushToStream (Some e) None)
          (update (with_iterator (NextShardIterator data))
             (emit (EvGetRecords (limit snapshot) (default "" it) (inr data)) c1))).
Proof.
  intros snapshot Hlease Hstore Hiterator Hrecords Hsome Hdecoded Hcode. subst snapshot.
  rewrite pollForRecords_unfold,
    (pollForRecords_try_fetched env c c0 c1 it data) by done.
  destruct (Records data) as [|r rs] eqn:HR; [done|]. cbn [length Nat.eqb].
  unfold after_records, pbind at 1, decoded, of_result. rewrite HR, Hdecoded, Hcode.
  done.
Qed.

(** X11.  With automatic checkpoints and without paused polling, a poll that
    receives records hands the sequence number of the record at index
    [recordsCount - 1] to the state store before it pushes the records, and
    then sets the timer of the next poll.  When the store rejects the
    checkpoint the records are not pushed: the error is, and no timer is
    set. *)
Theorem automatic_checkpoint_before_push (fuel : nat) (env : Env) (c c0 c1 : Consumer)
    (it : option string) (data : GetRecordsOutput) (records : list DecodedRecord)
    (picked : DecodedRecord) :
  let snapshot := props c in
  usePausedPolling snapshot = false →
  useAutoCheckpoints snapshot = true →
  lease_expired snapshot (Date_now env (trace c)) = false →
  store_pending snapshot env c = (inr tt, c0) →
  acquire_iterator snapshot env c0 = (inr it, c1) →
  client_getRecords env (trace c1) (limit snapshot) (default "" it) = inr data →
  Records data ≠ [] →
  decoded_records env (shouldDeaggregate snapshot) (Records data) = inr records →
  records !! (length (Records data) - 1)%nat = Some picked →
  let fetched :=
    update (with_iterator (NextShardIterator data))
      (emit (EvGetRecords (limit snapshot) (default "" it) (inr data)) c1) in
  let answer :=
    stateStore_storeShardCheckpoint env (trace fetched) (shardId (props c1))
      (sequenceNumber picked) in
  let asked :=
    emit (EvStoreShardCheckpoint (shardId (props c1)) (sequenceNumber picked) answer)
      fetched in
  match answer with
  | inr _ =>
      pollForRecords fuel env c =
      Some (update (with_timeoutId (Some (pollDelay snapshot)))
              (emit (EvSetTimeout (pollDelay snapshot))
                 (emit (EvPushToStream None (Some (propsToPush snapshot data records)))
                    (update (with_checkpoint (Some (sequenceNumber picked))) asked))))
  | inl e =>
      is_code "ExpiredIteratorException" e = false →
      pollForRecords fuel env c = Some (emit (EvPushToStream (Some e) None) asked)
  end.
Proof.
  intros snapshot Hpaused Hauto Hlease Hstore Hiterator Hrecords Hsome Hdecoded Hpicked
    fetched answer asked. subst snapshot asked answer.
  assert (Hrun : pollForRecords_try (props c) env c =
                 pbind (setCheckpoint (sequenceNumber picked))
                   (λ _, push_and_schedule (props c) data records) env fetched).
  { rewrite (pollForRecords_try_fetched env c c0 c1 it data) by done. fold fetched.
    destruct (Records data) as [|r rs] eqn:HR; [done|]. cbn [length Nat.eqb].
    unfold after_records, pbind at 1, decoded, of_result. rewrite HR, Hdecoded.
    unfold auto_checkpoint. rewrite Hauto, HR, Hpicked, Hpaused. done. }
  destruct (stateStore_storeShardCheckpoint env (trace fetched) (shardId (props c1))
              (sequenceNumber picked)) as [e|[]] eqn:Hanswer;
    [intros Hcode|];
    rewrite pollForRecords_unfold, Hrun; unfold pbind at 1;
    rewrite setCheckpoint_run; cbv zeta;
    change (shardId (props fetched)) with (shardId (props c1)); rewrite Hanswer.
  - by rewrite Hcode.
  - unfold push_and_schedule, pbind, notify, write. by rewrite Hpaused.
Qed.

(** X14.  A poll after the lease has run out calls [stopConsumer] and does
    nothing else: no request for an iterator or for records, no checkpoint
    and no timer, however the collaborators would have answered. *)
Theorem expired_lease_stops (fuel : nat) (env : Env) (c : Consumer) (expiration : Z) :
  leaseExpiration (props c) = Some expiration →
  expiration < Date_now env (trace c) →
  pollForRecords fuel env c = Some (emit (EvStopConsumer (shardId (props c))) c).
Proof.
  intros Hlease Hlate. rewrite pollForRecords_unfold.
  unfold pollForRecords_try, pbind, now, lease_expired. rewrite Hlease.
  by apply Z.ltb_lt in Hlate as ->.
Qed.

(** *** Computations that store nothing *)

Lemma discreet_pret {A} (a : A) : discreet (pret a).
Proof. intros env c. simpl. repeat split. exists []. by rewrite app_nil_r. Qed.

Lemma discreet_pthrow {A} (e : error) : discreet (@pthrow A e).
Proof. intros env c. simpl. repeat split. exists []. by rewrite app_nil_r. Qed.

Lemma discreet_of_result {A} (r : error + A) : discreet (of_result r).
Proof. intros env c. simpl. repeat split. exists []. by rewrite app_nil_r. Qed.

Lemma discreet_read {A} (f : PrivateProps → A) : discreet (read f).
Proof. intros env c. simpl. repeat split. exists []. by rewrite app_nil_r. Qed.

Lemma discreet_now : discreet now.
Proof. intros env c. simpl. repeat split. exists []. by rewrite app_nil_r. Qed.

Lemma discreet_pbind {A B} (m : P A) (k : A → P B) :
  discreet m → (∀ a, discreet (k a)) → discreet (pbind m k).
Proof.
  intros Hm Hk env c. unfold pbind.
  destruct (Hm env c) as (Hs & Hl & Ha & evs & Htr & Hst).
  destruct (m env c) as [[e|a] c1]; simpl in *.
  - repeat split; try done. by exists evs.
  - destruct (Hk a env c1) as (Hs' & Hl' & Ha' & evs' & Htr' & Hst').
    repeat split; try congruence. exists (evs ++ evs'). split.
    + by rewrite Htr', Htr, <- app_assoc.
    + by rewrite stored_app, Hst, Hst'.
Qed.

Lemma discreet_notify (e : Event) : stored [e] = [] → discreet (notify e).
Proof. intros He env c. simpl. repeat split. by exists [e]. Qed.

Lemma discreet_ask {A} (answer : Env → list Event → error + A) (event : error + A → Event) :
  (∀ r, stored [event r] = []) → discreet (ask answer event).
Proof. intros He env c. unfold ask. simpl. repeat split. eexists [_]. split; [done|]. apply He. Qed.

Lemma discreet_write (f : PrivateProps → PrivateProps) :
  (∀ p, seqNumToCheckpoint (f p) = seqNumToCheckpoint p ∧
        leaseExpiration (f p) = leaseExpiration p ∧
        useAutoCheckpoints (f p) = useAutoCheckpoints p) →
  discreet (write f).
Proof.
  intros Hf env c. simpl. destruct (Hf (props c)) as (? & ? & ?).
  repeat split; try done. exists []. by rewrite app_nil_r.
Qed.

Lemma discreet_getShardIterator (streamName shardId initialPositionInStream : string)
    (sequenceNumber : option string) :
  discreet (getShardIterator streamName shardId initialPositionInStream sequenceNumber).
Proof.
  assert (Hinitial : ∀ sequenceNumber', truthy_str sequenceNumber' = false →
            discreet (getShardIterator streamName shardId initialPositionInStream
                        sequenceNumber')).
  { intros sequenceNumber' Hseq env c. rewrite getShardIterator_initial by done.
    simpl. repeat split. by eexists [_]. }
  destruct (truthy_str sequenceNumber) eqn:Hseq; [|by apply Hinitial].
  intros env c. rewrite getShardIterator_after by done. cbv zeta.
  destruct (client_getShardIterator env (trace c) _) as [err|it] eqn:Hfirst.
  - destruct (is_code "InvalidArgumentException" err).
    + destruct (Hinitial None eq_refl env
                  (emit (EvGetShardIterator
                    {| ShardId := shardId; ShardIteratorType := "AFTER_SEQUENCE_NUMBER";
                       StreamName := streamName;
                       StartingSequenceNumber := sequenceNumber |} (inl err)) c))
        as (Hs & Hl & Ha & evs & Htr & Hst).
      repeat split; try done. eexists (_ :: evs). split.
      * rewrite Htr. simpl. by rewrite <- app_assoc.
      * done.
    + simpl. repeat split. by eexists [_].
  - simpl. repeat split. by eexists [_].
Qed.

Lemma discreet_acquire_iterator (snapshot : PrivateProps) :
  discreet (acquire_iterator snapshot).
Proof.
  unfold acquire_iterator.
  apply discreet_pbind; [apply discreet_read|]. intros it0.
  apply discreet_pbind.
  - destruct (negb (truthy_str it0) && truthy_str (checkpoint snapshot)).
    + apply discreet_pbind; [apply discreet_getShardIterator|]. intros; apply discreet_pret.
    + apply discreet_pret.
  - intros it1. destruct (negb (truthy_str it1)).
    + apply discreet_pbind; [apply discreet_getShardIterator|]. intros; apply discreet_pret.
    + apply discreet_pret.
Qed.

Lemma discreet_after_no_records (snapshot : PrivateProps) (data : GetRecordsOutput) :
  discreet (after_no_records snapshot data).
Proof.
  unfold after_no_records. destruct (NextShardIterator data).
  - apply discreet_pbind; [by apply discreet_ask|]. intros listing. cbv zeta.
    apply discreet_pbind; [by apply discreet_ask|]. intros _. by apply discreet_notify.
  - apply discreet_pbind; [by apply discreet_notify|]. intros _. by apply discreet_write.
  - apply discreet_pbind; [by apply discreet_notify|]. intros _. by apply discreet_write.
Qed.

Lemma discreet_push_and_schedule (snapshot : PrivateProps) (data : GetRecordsOutput)
    (records : list DecodedRecord) :
  discreet (push_and_schedule snapshot data records).
Proof.
  unfold push_and_schedule. apply discreet_pbind; [by apply discreet_notify|]. intros _.
  destruct (negb (usePausedPolling snapshot)); [|apply discreet_pret].
  apply discreet_pbind; [by apply discreet_notify|]. intros _. by apply discreet_write.
Qed.

Lemma discreet_try (snapshot : PrivateProps) :
  useAutoCheckpoints snapshot = false →
  seqNumToCheckpoint snapshot = None →
  discreet (pollForRecords_try snapshot).
Proof.
  intros Hauto Hpending. unfold pollForRecords_try.
  apply discreet_pbind; [apply discreet_now|]. intros t.
  destruct (lease_expired snapshot t); [by apply discreet_notify|].
  unfold store_pending. rewrite Hpending. cbn [truthy_str].
  apply discreet_pbind; [apply discreet_pret|]. intros _.
  apply discreet_pbind; [apply discreet_acquire_iterator|]. intros it.
  apply discreet_pbind; [by apply discreet_ask|]. intros data.
  apply discreet_pbind; [by apply discreet_write|]. intros _.
  destruct (Nat.eqb _ 0); [apply discreet_after_no_records|].
  unfold after_records, auto_checkpoint. rewrite Hauto.
  apply discreet_pbind; [intros env; apply discreet_of_result|]. intros records.
  apply discreet_pbind; [apply discreet_pret|]. intros _.
  apply discreet_push_and_schedule.
Qed.

Lemma manual_poll (fuel : nat) (env : Env) (c c' : Consumer) :
  useAutoCheckpoints (props c) = false →
  seqNumToCheckpoint (props c) = None →
  pollForRecords fuel env c = Some c' →
  useAutoCheckpoints (props c') = false ∧ seqNumToCheckpoint (props c') = None ∧
  stored (trace c') = stored (trace c).
Proof.
  revert c. induction fuel as [|fuel IH]; intros c Hauto Hpending;
    rewrite pollForRecords_unfold;
    destruct (discreet_try (props c) Hauto Hpending env c) as (Hs & _ & Ha & evs & Htr & Hst);
    destruct (pollForRecords_try (props c) env c) as [[err|[]] c1]; simpl in *.
  - destruct (is_code _ err); [done|]. intros [= <-]. simpl.
    rewrite Htr, !stored_app, Hst. simpl. rewrite !app_nil_r. by rewrite Ha, Hs.
  - intros [= <-]. rewrite Htr, stored_app, Hst, app_nil_r. by rewrite Ha, Hs.
  - destruct (is_code _ err).
    + intros Hrec. apply IH in Hrec as (? & ? & Hrec); simpl; [|congruence..].
      simpl in Hrec. rewrite Hrec, Htr, stored_app, Hst, app_nil_r. done.
    + intros [= <-]. simpl.
      rewrite Htr, !stored_app, Hst. simpl. rewrite !app_nil_r. by rewrite Ha, Hs.
  - intros [= <-]. rewrite Htr, stored_app, Hst, app_nil_r. by rewrite Ha, Hs.
Qed.

(** X12.  With manual checkpoints (and no sequence number pending), whatever
    the owner and the downstream do with an instance, the sequence numbers
    handed to the state store are exactly the ones the downstream passed to
    [setCheckpoint], in the order of its calls: the polls add none. *)
Theorem manual_mode_stores (fuel : nat) (env : Env) (calls : list Call) (c c' : Consumer) :
  useAutoCheckpoints (props c) = false →
  seqNumToCheckpoint (props c) = None →
  run fuel env calls c = Some c' →
  stored (trace c') = stored (trace c) ++ manual_checkpoints calls.
Proof.
  revert c. induction calls as [|call calls IH]; intros c Hauto Hpending; simpl.
  - intros [= <-]. by rewrite app_nil_r.
  - destruct (run_call fuel env call c) as [c1|] eqn:Hcall; [|done]. intros Hrest.
    assert (useAutoCheckpoints (props c1) = false ∧ seqNumToCheckpoint (props c1) = None ∧
            stored (trace c1) =
            stored (trace c) ++ manual_checkpoints [call]) as (Hauto1 & Hpending1 & Hst).
    { destruct call; simpl in Hcall.
      - apply manual_poll in Hcall as (? & ? & ->); [|done..]. by rewrite app_nil_r.
      - injection Hcall as <-. simpl. by rewrite app_nil_r.
      - injection Hcall as <-. simpl. by rewrite app_nil_r.
      - injection Hcall as <-. rewrite setCheckpoint_run. cbv zeta.
        destruct (stateStore_storeShardCheckpoint _ _ _ _); simpl;
          by rewrite stored_app. }
    rewrite (IH c1 Hauto1 Hpending1 Hrest), Hst.
    rewrite <- app_assoc. f_equal. unfold manual_checkpoints. simpl.
    by rewrite app_nil_r.
Qed.

(** *** An iterator that keeps expiring *)



End PollingConsumerMore.

(** ** More about the shard lineage and the stream management *)

Lemma Object_fromEntries_elem {A} (l : list (string * A)) (k : string) (v : A) :
  Object_fromEntries l !! k = Some v → (k, v) ∈ l.
Proof.
  induction l as [|[j u] l IH] using rev_ind.
  - unfold Object_fromEntries. simpl. by rewrite lookup_empty.
  - rewrite Object_fromEntries_snoc, elem_of_app, list_elem_of_singleton.
    destruct (decide (j = k)) as [->|Hne].
    + rewrite lookup_insert_eq. intros [= ->]. by right.
    + rewrite lookup_insert_ne by done. intros H. left. by apply IH.
Qed.

(** X15.  Whatever the listing (shard ids repeated or empty included), a
    parent that an entry of the map built by [getStreamShards] refers to is
    not empty, and it is a key of the map unless it is the name of a member
    that every object inherits from [Object.prototype]: a dangling reference
    can only be to such a name. *)
Theorem getStreamShards_closed (Shards : option (list Shard)) (k p : string)
    (entry : ShardData) :
  getStreamShards Shards !! k = Some entry →
  parent entry = Some p →
  p ≠ "" ∧ (inherited p = false → is_Some (getStreamShards Shards !! p)).
Proof.
  change (getStreamShards Shards) with (getStreamShards (Some (default [] Shards))).
  rewrite !getStreamShards_lookup. cbv zeta.
  set (shards0 := Object_fromEntries _).
  destruct (shards0 !! k) as [shard|] eqn:Hshard; [|done]. simpl. intros [= <-].
  rewrite fmap_is_Some.
  apply Object_fromEntries_elem in Hshard.
  change (map ?f ?l) with (f <$> l) in Hshard.
  apply list_elem_of_fmap in Hshard as (sh & [= -> ->] & _).
  unfold promoted, has_member. simpl.
  destruct (or_null (ParentShardId sh)) as [q|] eqn:Hq; [|done].
  assert (q ≠ "") as Hne.
  { unfold or_null in Hq. destruct (ParentShardId sh) as [x|]; [|done].
    destruct (String.eqb x "") eqn:Hx; [done|]. injection Hq as <-.
    by apply String.eqb_neq. }
  apply String.eqb_neq in Hne as Heq. rewrite Heq. simpl.
  destruct (bool_decide (is_Some (shards0 !! q))) eqn:Hkey; simpl.
  - intros [= <-]. split; [done|]. intros _. by apply bool_decide_eq_true in Hkey.
  - destruct (inherited q) eqn:Hinherited; simpl; [|done].
    intros [= <-]. split; [done|]. by rewrite Hinherited.
Qed.

Module StreamManagementFacts.
Import PollingConsumer (is_code, truthy_str).
Import StreamManagement.

Lemma kbind_inr {A B} (m : K A) (k : A → K B) (env : Env) (tr tr' : list Event) (b : B) :
  kbind m k env tr = (inr b, tr') →
  ∃ a tr1, m env tr = (inr a, tr1) ∧ k a env tr1 = (inr b, tr').
Proof.
  unfold kbind. destruct (m env tr) as [[e|a] tr1]; [done|]. intros H. by exists a, tr1.
Qed.

(** What [client.describeStreamSummary] answers and leaves behind. *)
Lemma client_describeStreamSummary_run (StreamName : string) (env : Env) (tr : list Event) :
  client_describeStreamSummary StreamName env tr =
  let first := sdk_describeStreamSummary env tr StreamName in
  let tr1 := tr ++ [EvDescribeStreamSummary StreamName first] in
  match first with
  | inl err =>
      if is_code "UnknownOperationException" err
      then (sdk_describeStream env tr1 StreamName,
            tr1 ++ [EvDescribeStream StreamName (sdk_describeStream env tr1 StreamName)])
      else (inl err, tr1)
  | inr summary => (inr summary, tr1)
  end.
Proof.
  unfold client_describeStreamSummary, kcatch, sdk. cbv zeta.
  destruct (sdk_describeStreamSummary env tr StreamName) as [err|summary]; [|done].
  by destruct (is_code "UnknownOperationException" err).
Qed.

(** X16.  [checkIfStreamExists] never rejects with
    [ResourceNotFoundException].  When it answers an ARN, that is the ARN of
    the description it got, whose status was not [DELETING], and either the
    status was [ACTIVE] (or absent) or the wait for the stream to exist was
    the last thing done and succeeded.  When it answers [null], the last
    call failed with [ResourceNotFoundException] or was the successful wait
    for a stream in deletion to be gone. *)
Theorem checkIfStreamExists_outcomes (streamName : string) (env : Env) (tr : list Event) :
  let described := client_describeStreamSummary streamName env tr in
  let run := checkIfStreamExists streamName env tr in
  match run.1 with
  | inl err => is_code "ResourceNotFoundException" err = false
  | inr out =>
      match streamArn out with
      | Some arn =>
          ∃ summary,
            described.1 = inr summary ∧ arn = StreamARN summary ∧
            streamCreatedOn out = Some (toISOString env (StreamCreationTimestamp summary)) ∧
            is_literal "DELETING" (StreamStatus summary) = false ∧
            (if truthy_str (StreamStatus summary) && negb (is_literal "ACTIVE" (StreamStatus summary))
             then ∃ d, run.2 = described.2 ++ [EvWaitFor "streamExists" streamName (inr d)]
             else run.2 = described.2)
      | None =>
          (∃ err, is_code "ResourceNotFoundException" err = true ∧
                  (described = (inl err, run.2) ∨
                   ∃ state, run.2 = described.2 ++ [EvWaitFor state streamName (inl err)])) ∨
          (∃ summary d,
             described.1 = inr summary ∧ is_literal "DELETING" (StreamStatus summary) = true ∧
             run.2 = described.2 ++ [EvWaitFor "streamNotExists" streamName (inr d)])
      end
  end.
Proof.
  cbv zeta. destruct (checkIfStreamExists streamName env tr) as [res tr'] eqn:Hrun.
  unfold checkIfStreamExists, kcatch, kbind at 1 in Hrun.
  destruct (client_describeStreamSummary streamName env tr) as [[err|summary] tr1] eqn:Hd.
  { destruct (is_code "ResourceNotFoundException" err) eqn:Hcode;
      injection Hrun as <- <-; simpl; [|done].
    left. exists err. split; [done|]. by left. }
  cbv zeta in Hrun. destruct (is_literal "DELETING" (StreamStatus summary)) eqn:Hdeleting.
  { unfold kbind, client_waitFor, sdk in Hrun. cbv zeta in Hrun.
    destruct (sdk_waitFor env tr1 "streamNotExists" streamName) as [err|d].
    - destruct (is_code "ResourceNotFoundException" err) eqn:Hcode;
        injection Hrun as <- <-; simpl; [|done].
      left. exists err. split; [done|]. right. by eexists.
    - injection Hrun as <- <-. simpl. right. by exists summary, d. }
  unfold kbind at 1 in Hrun.
  destruct (truthy_str (StreamStatus summary) && negb (is_literal "ACTIVE" (StreamStatus summary)))
    eqn:Hwait.
  - unfold kbind, client_waitFor, sdk in Hrun. cbv zeta in Hrun.
    destruct (sdk_waitFor env tr1 "streamExists" streamName) as [err|d].
    + destruct (is_code "ResourceNotFoundException" err) eqn:Hcode;
        injection Hrun as <- <-; simpl; [|done].
      left. exists err. split; [done|]. right. by eexists.
    + injection Hrun as <- <-. simpl. exists summary. rewrite Hwait.
      repeat split; try done. by exists d.
  - injection Hrun as <- <-. simpl. exists summary. by rewrite Hwait.
Qed.

Lemma checkIfStreamExists_answer (streamName : string) (env : Env) (tr tr' : list Event)
    (out : StreamExistsOutput) :
  checkIfStreamExists streamName env tr = (inr out, tr') →
  out = not_found ∨
  ∃ summary,
    (client_describeStreamSummary streamName env tr).1 = inr summary ∧
    out = {| streamArn := Some (StreamARN summary);
             streamCreatedOn := Some (toISOString env (StreamCreationTimestamp summary)) |}.
Proof.
  unfold checkIfStreamExists, kcatch.
  match goal with |- context [kbind ?m ?k env tr] =>
    destruct (kbind m k env tr) as [[err|found] tr1] eqn:Htry end.
  - destruct (is_code "ResourceNotFoundException" err); [|done].
    intros [= <- <-]. by left.
  - intros [= <- <-]. apply kbind_inr in Htry as (summary & tr2 & Hsummary & Htry).
    cbv zeta in Htry. destruct (is_literal "DELETING" (StreamStatus summary)).
    + apply kbind_inr in Htry as (? & ? & _ & [= <- <-]). by left.
    + apply kbind_inr in Htry as (? & ? & _ & [= <- <-]). right.
      exists summary. by rewrite Hsummary.
Qed.

(** X17.  With [createStreamIfNeeded], a call of [ensureStreamExists] that
    succeeds names a stream with its ARN and its creation date.  Either the
    check found the stream: the answer is that of the check, the ARN and the
    date are those of the description the check got, and nothing was
    created.  Or the check found none: then [createStream] was sent (a
    [ResourceInUseException] of it counts as a success), the waiter for the
    stream to exist was the last call, and the ARN and the date are those of
    the description the waiter answered. *)
Theorem ensureStreamExists_names_a_stream (shardCount : Z) (streamName : string)
    (env : Env) (tr tr' : list Event) (out : StreamExistsOutput) :
  ensureStreamExists true shardCount streamName env tr = (inr out, tr') →
  let checked := checkIfStreamExists streamName env tr in
  ∃ description,
    out = {| streamArn := Some (StreamARN description);
             streamCreatedOn :=
               Some (toISOString env (StreamCreationTimestamp description)) |} ∧
    ((checked = (inr out, tr') ∧
      (client_describeStreamSummary streamName env tr).1 = inr description) ∨
     (checked.1 = inr not_found ∧
      ∃ answer,
        tr' = checked.2 ++ [EvCreateStream streamName shardCount answer;
                            EvWaitFor "streamExists" streamName (inr description)])).
Proof.
  unfold ensureStreamExists. intros (existing & tr1 & Hcheck & Hrest)%kbind_inr.
  cbv zeta. rewrite Hcheck.
  destruct (checkIfStreamExists_answer _ _ _ _ _ Hcheck) as [->|(summary & Hsummary & ->)];
    simpl in Hrest.
  - apply kbind_inr in Hrest as ([] & tr2 & Hcreate & Hrest).
    apply kbind_inr in Hrest as (description & tr3 & Hwait & Hrest).
    injection Hrest as <- <-. exists description. split; [done|]. right.
    split; [done|].
    unfold client_waitFor, sdk in Hwait. cbv zeta in Hwait.
    destruct (sdk_waitFor env tr2 "streamExists" streamName) as [err|d] eqn:Hanswer;
      [done|].
    injection Hwait as -> <-.
    unfold client_createStream, kcatch, sdk in Hcreate. cbv zeta in Hcreate.
    exists (sdk_createStream env tr1 streamName shardCount). simpl.
    destruct (sdk_createStream env tr1 streamName shardCount) as [err|[]].
    + destruct (negb (is_code "ResourceInUseException" err)); [done|].
      injection Hcreate as <-. by rewrite <- app_assoc.
    + injection Hcreate as <-. by rewrite <- app_assoc.
  - injection Hrest as <- <-. exists summary. split; [done|]. by left.
Qed.

(** X18.  [confirmStreamTags] leaves the stream alone exactly when every
    wanted tag is already on it with the wanted value.  Otherwise it sends one
    update whose tags are the wanted ones together with the tags of the stream
    that are not wanted otherwise: no tag of the stream is dropped. *)
Theorem confirmStreamTags_spec (streamName : string) (tags : gmap string string)
    (env : Env) (tr : list Event) (Tags : list Tag) :
  sdk_listTagsForStream env tr streamName = inr (Some Tags) →
  let existingTags := Object_fromEntries (map (λ t, (Key t, Value t)) Tags) in
  let listed := tr ++ [EvListTagsForStream streamName (inr (Some Tags))] in
  (tags ⊆ existingTags → confirmStreamTags streamName tags env tr = (inr tt, listed)) ∧
  (tags ⊈ existingTags →
   ∃ mergedTags,
     confirmStreamTags streamName tags env tr =
     (sdk_addTagsToStream env listed streamName mergedTags,
      listed ++ [EvAddTagsToStream streamName mergedTags
                   (sdk_addTagsToStream env listed streamName mergedTags)]) ∧
     ∀ k, mergedTags !! k = match tags !! k with
                            | Some v => Some v
                            | None => existingTags !! k
                            end).
Proof.
  intros Hlist existingTags listed.
  assert (Hrun : confirmStreamTags streamName tags env tr =
                 (if negb (bool_decide (existingTags = tags ∪ existingTags))
                  then client_addTagsToStream streamName (tags ∪ existingTags)
                  else kret tt) env listed).
  { unfold confirmStreamTags, kbind, client_listTagsForStream, sdk. cbv zeta.
    by rewrite Hlist. }
  split.
  - intros Hsub. rewrite Hrun, bool_decide_eq_true_2; [done|].
    symmetry. by apply map_subseteq_union.
  - intros Hsub. exists (tags ∪ existingTags). split.
    + rewrite Hrun, bool_decide_eq_false_2; [done|].
      intros Heq. apply Hsub. rewrite Heq. apply map_union_subseteq_l.
    + intros k. rewrite lookup_union. by destruct (tags !! k), (existingTags !! k).
Qed.

Lemma shouldWaitForConsumer_false (consumers : gmap string ConsumerInfo) (name : string)
    (info : ConsumerInfo) :
  shouldWaitForConsumer consumers = false →
  consumers !! name = Some info → status info = "ACTIVE".
Proof.
  intros Hwait Hname. destruct (String.eqb (status info) "ACTIVE") eqn:Hstatus;
    [by apply String.eqb_eq|].
  assert (shouldWaitForConsumer consumers = true) as Htrue; [|congruence].
  apply existsb_exists. exists name. split.
  - apply list_elem_of_In. change (map fst ?l) with (fst <$> l).
    apply list_elem_of_fmap. exists (name, info). split; [done|].
    by apply elem_of_map_to_list.
  - by rewrite Hname, Hstatus.
Qed.

(** X19.  What [getEnhancedConsumers] answers is built from the last listing
    it asked for, and every consumer in it is [ACTIVE]. *)
Theorem getEnhancedConsumers_all_active (fuel : nat) (streamArn : string) (env : Env)
    (tr tr' : list Event) (consumers : gmap string ConsumerInfo) :
  getEnhancedConsumers fuel streamArn env tr = Some (inr consumers, tr') →
  (∃ evs Consumers,
     tr' = tr ++ evs ++ [EvListStreamConsumers streamArn (inr Consumers)] ∧
     consumers = consumers_of Consumers) ∧
  ∀ name info, consumers !! name = Some info → status info = "ACTIVE".
Proof.
  revert tr. induction fuel as [|fuel IH]; intros tr; simpl;
    unfold client_listStreamConsumers, sdk; cbv zeta;
    destruct (sdk_listStreamConsumers env tr streamArn) as [err|Consumers] eqn:Hlist;
    try done;
    destruct (shouldWaitForConsumer (consumers_of Consumers)) eqn:Hwait; try done.
  - intros [= <- <-]. split; [by exists [], Consumers|].
    intros name info. by apply shouldWaitForConsumer_false.
  - intros [(evs & Consumers' & -> & ->) Hactive]%IH. split; [|done].
    eexists (_ :: _ :: evs), Consumers'. split; [|done].
    unfold wait. simpl. by rewrite <- !app_assoc.
  - intros [= <- <-]. split; [by exists [], Consumers|].
    intros name info. by apply shouldWaitForConsumer_false.
Qed.

Lemma registerEnhancedConsumer_loop_ends (fuel : nat) (consumerName streamArn : string)
    (env : Env) (tr tr' : list Event) :
  registerEnhancedConsumer_loop fuel consumerName streamArn env tr = Some (inr tt, tr') →
  ∃ evs Consumers consumer,
    tr' = tr ++ evs ++ [EvWait CONSUMER_STATE_CHECK_DELAY;
                        EvListStreamConsumers streamArn (inr Consumers)] ∧
    find (λ i, String.eqb (ConsumerName i) consumerName) (default [] Consumers)
    = Some consumer ∧
    ConsumerStatus consumer = "ACTIVE".
Proof.
  assert (Hlast : ∀ Consumers,
    negb (String.eqb
            match find (λ i, String.eqb (ConsumerName i) consumerName) (default [] Consumers)
            with Some consumer => ConsumerStatus consumer | None => "" end "ACTIVE") = false →
    ∃ consumer,
      find (λ i, String.eqb (ConsumerName i) consumerName) (default [] Consumers)
      = Some consumer ∧ ConsumerStatus consumer = "ACTIVE").
  { intros Consumers Hactive. destruct (find _ _) as [consumer|]; [|done].
    exists consumer. split; [done|]. apply negb_false_iff in Hactive.
    by apply String.eqb_eq. }
  revert tr. induction fuel as [|fuel IH]; intros tr; simpl;
    unfold kbind, wait, client_listStreamConsumers, sdk; cbv zeta;
    match goal with |- context [sdk_listStreamConsumers env ?t streamArn] =>
      destruct (sdk_listStreamConsumers env t streamArn) as [err|Consumers] end;
    try done;
    match goal with |- context [negb ?b] => destruct (negb b) eqn:Hactive end; try done.
  - intros [= <-]. destruct (Hlast Consumers Hactive) as (consumer & ? & ?).
    exists [], Consumers, consumer. simpl. by rewrite <- app_assoc.
  - intros (evs & Consumers' & consumer & -> & ? & ?)%IH.
    eexists (_ :: _ :: evs), Consumers', consumer. split; [|done].
    simpl. by rewrite <- !app_assoc.
  - intros [= <-]. destruct (Hlast Consumers Hactive) as (consumer & ? & ?).
    exists [], Consumers, consumer. simpl. by rewrite <- app_assoc.
Qed.

(** X20.  [registerEnhancedConsumer] returns only after a pause followed by
    a listing in which the first consumer with the given name is [ACTIVE],
    whatever status the registration itself answered: there is always at
    least one pause and one listing. *)
Theorem registerEnhancedConsumer_waits (fuel : nat) (consumerName streamArn : string)
    (env : Env) (tr tr' : list Event) :
  registerEnhancedConsumer fuel consumerName streamArn env tr = Some (inr tt, tr') →
  ∃ registered evs Consumers consumer,
    tr' = tr ++ [EvRegisterStreamConsumer consumerName streamArn (inr registered)] ++ evs ++
          [EvWait CONSUMER_STATE_CHECK_DELAY;
           EvListStreamConsumers streamArn (inr Consumers)] ∧
    find (λ i, String.eqb (ConsumerName i) consumerName) (default [] Consumers)
    = Some consumer ∧
    ConsumerStatus consumer = "ACTIVE".
Proof.
  unfold registerEnhancedConsumer, client_registerStreamConsumer, sdk. cbv zeta.
  destruct (sdk_registerStreamConsumer env tr consumerName streamArn) as [err|registered];
    [done|].
  intros (evs & Consumers & consumer & -> & ? & ?)%registerEnhancedConsumer_loop_ends.
  exists registered, evs, Consumers, consumer. split; [|done]. by rewrite <- !app_assoc.
Qed.

End StreamManagementFacts.

(** ** Writing records *)

Module KinesisClientFacts.
Import PollingConsumer (truthy_str).
Import KinesisClient.

Lemma sort_entries_count (i : nat) (Records : list PutRecordsResultEntry)
    (records nextRecords : list RequestEntry) (results : list PutRecordsResultEntry) :
  let sorted := sort_entries i Records records nextRecords results in
  (length sorted.1 + length sorted.2 = length nextRecords + length results + length Records)%nat.
Proof.
  revert i nextRecords results.
  induction Records as [|entry rest IH]; intros i nextRecords results; simpl; [lia|].
  destruct (truthy_str (ErrorCode entry)); rewrite IH, length_app; simpl; lia.
Qed.

Lemma sort_entries_written (i : nat) (Records : list PutRecordsResultEntry)
    (records nextRecords : list RequestEntry) (results : list PutRecordsResultEntry) :
  Forall (λ entry, truthy_str (ErrorCode entry) = false) results →
  Forall (λ entry, truthy_str (ErrorCode entry) = false)
    (sort_entries i Records records nextRecords results).2.
Proof.
  revert i nextRecords results.
  induction Records as [|entry rest IH]; intros i nextRecords results Hres; simpl; [done|].
  destruct (truthy_str (ErrorCode entry)) eqn:Hentry; apply IH; [done|].
  apply Forall_app. split; [done|]. by apply Forall_singleton.
Qed.

Lemma sort_entries_none_failed (i : nat) (Records : list PutRecordsResultEntry)
    (records nextRecords : list RequestEntry) (results : list PutRecordsResultEntry) :
  Forall (λ entry, truthy_str (ErrorCode entry) = false) Records →
  (sort_entries i Records records nextRecords results).1 = nextRecords.
Proof.
  revert i results.
  induction Records as [|entry rest IH]; intros i results Hall; simpl; [done|].
  apply Forall_cons in Hall as [-> Hall]. by apply IH.
Qed.

Lemma putRecords_attempt_count (fuel : nat) (records : list RequestEntry)
    (results : list PutRecordsResultEntry) (env : Env) (tr tr' : list Event)
    (out : PutRecordsResult) :
  (∀ tr recs payload, sdk_putRecords env tr recs = inr payload → answers_request recs payload) →
  Forall (λ entry, truthy_str (ErrorCode entry) = false) results →
  putRecords_attempt fuel records results env tr = Some (inr out, tr') →
  length (result_Records out) = (length results + length records)%nat ∧
  Forall (λ entry, truthy_str (ErrorCode entry) = false) (result_Records out).
Proof.
  intros Henv.
  assert (Hdone : ∀ records results payload,
            answers_request records payload →
            default 0 (FailedRecordCount payload) = 0 →
            length (sort_entries 0 (Records payload) records [] results).2
            = (length results + length records)%nat).
  { intros records0 results0 payload [Hlen Hzero] Hnone.
    pose proof (sort_entries_count 0 (Records payload) records0 [] results0) as Hcount.
    cbv zeta in Hcount. rewrite (sort_entries_none_failed 0) in Hcount by auto.
    simpl in Hcount. lia. }
  assert (Hnext : ∀ records results payload,
            answers_request records payload →
            (length (sort_entries 0 (Records payload) records [] results).2 +
             length (sort_entries 0 (Records payload) records [] results).1
             = length results + length records)%nat).
  { intros records0 results0 payload [Hlen _].
    pose proof (sort_entries_count 0 (Records payload) records0 [] results0) as Hcount.
    cbv zeta in Hcount. simpl in Hcount. lia. }
  revert records results tr.
  induction fuel as [|fuel IH]; intros records results tr Hres; simpl;
    destruct (sdk_putRecords env tr records) as [err|payload] eqn:Hanswer.
  - by destruct (is_retriable err).
  - destruct (Z.eqb_spec (default 0 (FailedRecordCount payload)) 0) as [Hnone|Hsome];
      [|done].
    intros [= <- <-]. simpl. split; [by eauto|]. by apply sort_entries_written.
  - destruct (is_retriable err); [|done]. by apply IH.
  - destruct (Z.eqb_spec (default 0 (FailedRecordCount payload)) 0) as [Hnone|Hsome].
    + intros [= <- <-]. simpl. split; [by eauto|]. by apply sort_entries_written.
    + intros Hrec. apply IH in Hrec as [Hout ?]; [|by apply sort_entries_written].
      split; [|done]. rewrite Hout. by eauto.
Qed.

(** X21.  Against a service that answers each request with one entry for
    each record, and with a count of failures that is zero only when no entry
    failed, a call of [putRecords] that resolves answers as many entries as
    it was given records, none of them failed: every record was written,
    however many attempts that took. *)
Theorem putRecords_writes_all (fuel : nat) (Records : list RequestEntry) (env : Env)
    (tr tr' : list Event) (out : PutRecordsResult) :
  (∀ tr recs payload, sdk_putRecords env tr recs = inr payload → answers_request recs payload) →
  putRecords fuel Records env tr = Some (inr out, tr') →
  length (result_Records out) = length Records ∧
  Forall (λ entry, truthy_str (ErrorCode entry) = false) (result_Records out).
Proof.
  intros Henv Hrun. unfold putRecords in Hrun.
  by apply putRecords_attempt_count in Hrun.
Qed.

End KinesisClientFacts.

(** ** The claims on sample worlds *)

Lemma lockShardLease_spec_witness :
  let w := sample_world (Some one_shard_document) in
  let first := lockShardLease consumer_A "shardId-000" 300000 (VStr "v1") w in
  let second := lockShardLease consumer_C "shardId-000" 300000 (VStr "v1") first.2 in
  first.1 = inr true ∧
  (lockShardLease consumer_A "shardId-000" 300000 (VStr "stale") w).1 = inr false ∧
  ¬ (first.1 = inr true ∧ second.1 = inr true).
Proof.
  intros w first second.
  destruct (lockShardLease_spec consumer_A consumer_C "shardId-000" 300000 300000 "v1" w)
    as (_ & Hlock & _ & Hone).
  destruct (lockShardLease_spec consumer_A consumer_C "shardId-000" 300000 300000 "stale" w)
    as (_ & Hstale & _ & _).
  split; [|split].
  - apply Hlock; vm_compute; reflexivity.
  - apply Hstale; [vm_compute; reflexivity..|]. vm_compute. discriminate.
  - apply Hone; [vm_compute; reflexivity|]. vm_compute. discriminate.
Defined.

(** C1 as stated fails for a lease term that takes the expiration out of
    the range of dates: the stored version is the expected one, and the call
    rejects with the [RangeError] of [toISOString]; nothing is sent and the
    document stays as it was. *)
Lemma lockShardLease_term_out_of_range :
  let w := sample_world (Some one_shard_document) in
  let run := lockShardLease consumer_A "shardId-000" 8640000000000001 (VStr "v1") w in
  get_path (slot consumer_A "shardId-000" ++ ["version"]) one_shard_document
    = Some (VStr "v1") ∧
  run.1 = inl (RangeError "Invalid time value") ∧
  requests run.2 = [] ∧
  item run.2 = Some one_shard_document.
Proof. vm_compute. by repeat split. Defined.

Lemma releaseShardLease_spec_witness :
  let w := sample_world (Some one_shard_document) in
  (releaseShardLease consumer_A "shardId-000" (VStr "v1") w).1 = inr (Some "uuid-0") ∧
  (releaseShardLease consumer_A "shardId-000" (VStr "stale") w).1 = inr None.
Proof.
  intros w.
  destruct (releaseShardLease_spec consumer_A "shardId-000" "v1" w) as (Hok & _).
  destruct (releaseShardLease_spec consumer_A "shardId-000" "stale" w) as (Hstale & _).
  split.
  - destruct Hok as [Hok _]; [vm_compute; reflexivity|].
    destruct Hok as (fresh & doc' & -> & Hr & _); [vm_compute; reflexivity|]. exact Hr.
  - apply Hstale; [vm_compute; reflexivity|]. vm_compute. discriminate.
Defined.

Lemma clearOldConsumers_no_write_witness :
  let w := at_time 2000 (sample_world (Some one_shard_document)) in
  requests (clearOldConsumers consumer_A 60000 w).2 = [ReqGet] ∧
  item (clearOldConsumers consumer_A 60000 w).2 = item w.
Proof.
  intros w.
  destruct (clearOldConsumers_no_write consumer_A 60000 w) as [Hnone _].
  apply Hnone. intros id (d & rec & t & Hd & Hrec & Ht & Hlt).
  injection Hd as <-.
  destruct (decide (id = "A")) as [->|Hne].
  - vm_compute in Hrec. injection Hrec as <-. vm_compute in Ht. injection Ht as <-.
    vm_compute in Hlt. discriminate.
  - simpl in Hrec. rewrite lookup_insert_ne, lookup_insert_ne, lookup_insert_eq in Hrec by done.
    simpl in Hrec. by rewrite lookup_singleton_ne in Hrec.
Defined.

Lemma depleted_is_kept_witness :
  let w := history standalone_setup (sample_world (Some (initial_document "v0"))) in
  depleted_in consumer_B "shardId-000"
    (item (call consumer_B (StoreShardCheckpoint "shardId-000" (VStr "300")) w)).
Proof.
  intros w. destruct (depleted_is_kept consumer_B "shardId-000") as [Hstep _].
  apply Hstep.
  - eexists. split; [vm_compute; reflexivity|]. vm_compute. reflexivity.
  - intros timeout Hc. discriminate.
Defined.

(** C3 as stated fails for the slots of a standalone consumer: after
    [markShardAsDepleted] has set the flag, [clearOldConsumers] removes the
    silent consumer's record, and when the consumer is back
    [ensureShardStateExists] writes the slot anew with [depleted] false. *)
Lemma depletion_lost_in_standalone_mode :
  let w := history standalone_setup (sample_world (Some (initial_document "v0"))) in
  depleted_in consumer_B "shardId-000" (item w) ∧
  get_path (slot consumer_B "shardId-000" ++ ["depleted"])
    (item_or_empty (item (history standalone_restart w))) = Some (VBool false) ∧
  ¬ depleted_in consumer_B "shardId-000" (item (history standalone_restart w)).
Proof.
  intros w. split; [|split].
  - eexists. split; [vm_compute; reflexivity|]. vm_compute. reflexivity.
  - vm_compute. reflexivity.
  - intros (d & Hd & Hq). vm_compute in Hd. injection Hd as <-.
    vm_compute in Hq. discriminate.
Defined.

Lemma getStreamShards_lineage_witness :
  let Shards :=
    [ {| ShardId := "shardId-001"; ParentShardId := Some "shardId-000";
         SequenceNumberRange_ := {| StartingSequenceNumber := "201" |} |};
      {| ShardId := "shardId-003"; ParentShardId := Some "shardId-001";
         SequenceNumberRange_ := {| StartingSequenceNumber := "301" |} |} ] in
  getStreamShards (Some Shards) !! "shardId-001"
    = Some {| parent := None; startingSequenceNumber := "201" |} ∧
  getStreamShards (Some Shards) !! "shardId-003"
    = Some {| parent := Some "shardId-001"; startingSequenceNumber := "301" |}.
Proof.
  intros Shards.
  assert (NoDup (map ShardId Shards)) as Hnd
    by (apply (bool_decide_unpack _); vm_compute; exact I).
  assert (Forall (λ x, ShardId x ≠ "") Shards) as Hne by (by repeat constructor).
  split.
  - destruct (getStreamShards_lineage Shards _ Hnd Hne (list_elem_of_here _ _))
      as (_ & entry & Hentry & Hssn & Hparent).
    simpl in Hentry, Hssn, Hparent. rewrite Hentry. f_equal.
    destruct entry as [p ssn]. simpl in Hssn, Hparent. subst p ssn.
    vm_compute. reflexivity.
  - destruct (getStreamShards_lineage Shards _ Hnd Hne
                (list_elem_of_further _ _ _ (list_elem_of_here _ _)))
      as (_ & entry & Hentry & Hssn & Hparent).
    simpl in Hentry, Hssn, Hparent. rewrite Hentry. f_equal.
    destruct entry as [p ssn]. simpl in Hssn, Hparent. subst p ssn.
    vm_compute. reflexivity.
Defined.

(** C9 as stated fails for a parent whose id is the name of a member that
    every object inherits: [constructor] is not a key of the map, and the
    shard keeps it as its parent. *)
Lemma inherited_parent_is_kept :
  let Shards :=
    [ {| ShardId := "shardId-001"; ParentShardId := Some "constructor";
         SequenceNumberRange_ := {| StartingSequenceNumber := "201" |} |} ] in
  getStreamShards (Some Shards) !! "constructor" = None ∧
  getStreamShards (Some Shards) !! "shardId-001"
    = Some {| parent := Some "constructor"; startingSequenceNumber := "201" |}.
Proof. vm_compute. by split. Defined.


Lemma markShardAsDepleted_auto_witness :
  let w := sample_world (Some one_shard_document) in
  let run := markShardAsDepleted consumer_A split_lineage "shardId-000" w in
  run.1 = inr tt ∧
  get_path ["shards"; "shardId-000"; "depleted"] (item_or_empty (item run.2))
    = Some (VBool true) ∧
  get_path ["shards"; "shardId-001"; "checkpoint"] (item_or_empty (item run.2))
    = Some (VStr "201").
Proof.
  intros w run.
  set (tops := {["shardId-000" := shard_record (VStr "100") false "v1"]}
               : gmap string value).
  assert (Hrecords : records tops).
  { intros k v Hk. destruct (decide (k = "shardId-000")) as [->|Hne].
    - unfold tops in Hk. rewrite lookup_singleton_eq in Hk. injection Hk as <-. by eexists.
    - unfold tops in Hk. by rewrite lookup_singleton_ne in Hk. }
  destruct (markShardAsDepleted_auto consumer_A split_lineage "shardId-000" w
              (<["version" := VStr "v0"]> (<["shards" := VMap tops]>
                 (<["consumers" := VMap {["A" := VMap {["heartbeat" := VTime 1000]}]}]> ∅)))
              tops _ eq_refl (λ _, eq_refl) eq_refl eq_refl Hrecords eq_refl)
    as (ensured & tops' & sent & params & Hr & Hitem & _ & _ & _ & _ & Hparent & Hchildren & _).
  fold run in Hr, Hitem. split; [done|]. rewrite Hitem. cbn [item_or_empty].
  destruct Hparent as (r & Hr' & Hdepleted & _).
  destruct (Hchildren eq_refl "shardId-001"
              {| parent := Some "shardId-000"; startingSequenceNumber := "201" |}
              eq_refl eq_refl) as (r1 & Hr1 & Hcheckpoint & _).
  split.
  - change ["shards"; "shardId-000"; "depleted"]
      with (["shards"; "shardId-000"] ++ ["depleted"]).
    rewrite get_path_app, with_shards_get_record, Hr'. simpl. by rewrite Hdepleted.
  - change ["shards"; "shardId-001"; "checkpoint"]
      with (["shards"; "shardId-001"] ++ ["checkpoint"]).
    rewrite get_path_app, with_shards_get_record, Hr1. simpl. by rewrite Hcheckpoint.
Defined.

(** The standalone consumer B holds shardId-000, with checkpoint 100, under
    its own record, and the top-level map is empty: the call throws, only the
    get was sent, and the shard is not depleted. *)
Lemma markShardAsDepleted_standalone_witness :
  let w := sample_world (Some standalone_document) in
  let run := markShardAsDepleted consumer_B split_lineage "shardId-000" w in
  get_path (slot consumer_B "shardId-000" ++ ["checkpoint"]) standalone_document
    = Some (VStr "100") ∧
  run.1 = inl (TypeError "Cannot read properties of undefined") ∧
  requests run.2 = [ReqGet] ∧
  get_path (slot consumer_B "shardId-000" ++ ["depleted"]) (item_or_empty (item run.2))
    = Some (VBool false).
Proof.
  intros w run.
  destruct (markShardAsDepleted_standalone consumer_B split_lineage "shardId-000" w
              (<["version" := VStr "v0"]> (<["shards" := VMap ∅]>
                (<["consumers" := VMap {["B" := VMap
                   (<["shards" := VMap {["shardId-000" :=
                                           shard_record (VStr "100") false "v1"]}]>
                      {["heartbeat" := VTime 1000]})]}]> ∅)))
              ∅ (shard_record (VStr "100") false "v1")
              eq_refl eq_refl eq_refl eq_refl eq_refl eq_refl)
    as (Hr & Hrequests & Hitem & Hslot).
  fold run in Hr, Hrequests, Hitem, Hslot.
  split; [vm_compute; reflexivity|]. split; [exact Hr|]. split; [exact Hrequests|].
  rewrite get_path_app, Hslot. vm_compute. reflexivity.
Defined.

(** The same call by a consumer with automatic shard assignment sets the
    flag and seeds the two children. *)
Lemma markShardAsDepleted_sample :
  let w := sample_world (Some one_shard_document) in
  let run := markShardAsDepleted consumer_A split_lineage "shardId-000" w in
  let after := item_or_empty (item run.2) in
  run.1 = inr tt ∧
  get_path (slot consumer_A "shardId-000" ++ ["depleted"]) after = Some (VBool true) ∧
  get_path (slot consumer_A "shardId-001" ++ ["checkpoint"]) after = Some (VStr "201") ∧
  get_path (slot consumer_A "shardId-002" ++ ["checkpoint"]) after = Some (VStr "202") ∧
  length (requests run.2) = 4%nat.
Proof. vm_compute. by repeat split. Qed.

Module PollingConsumerExamples.
Import PollingConsumer PollingConsumerVocabulary PollingConsumerSamples
  PollingConsumerMoreSamples.

Lemma pollForRecords_no_records_witness :
  (∃ c', pollForRecords 0 sample_env finishing_consumer = Some c' ∧
         last (trace c') = Some (EvStopConsumer "shardId-000") ∧
         timeoutId (props c') = None) ∧
  (∃ c', pollForRecords 0 sample_env idle_consumer = Some c' ∧
         last (trace c') = Some (EvSetTimeout 1000)).
Proof.
  split.
  - pose proof (PollingConsumerFacts.pollForRecords_no_records 0 sample_env
                  finishing_consumer finishing_consumer finishing_consumer (Some "it-3")
                  {| MillisBehindLatest := Some 0; NextShardIterator := Undefined;
                     Records := [] |}
                  eq_refl eq_refl eq_refl eq_refl eq_refl) as Hpoll.
    eexists. split; [exact Hpoll|].
    split; vm_compute; reflexivity.
  - pose proof (PollingConsumerFacts.pollForRecords_no_records 0 sample_env
                  idle_consumer idle_consumer idle_consumer (Some "it-2")
                  {| MillisBehindLatest := Some 0; NextShardIterator := Str "it-3";
                     Records := [] |}
                  eq_refl eq_refl eq_refl eq_refl eq_refl) as Hpoll.
    eexists. split; [exact Hpoll|]. vm_compute. reflexivity.
Defined.

(** C5 as stated fails in three ways.  The shard is at its end and the state
    store rejects [markShardAsDepleted], as it always does for a standalone
    consumer: the error is given to the stream, the consumer is not stopped
    and no timer is set.  The same happens when the shards cannot be listed.
    And an answer whose next iterator is [null] is not taken for the end of
    the shard: nothing is marked and a timer is set. *)
Lemma closed_shard_is_not_stopped :
  (∃ c', pollForRecords 0 unmarking_env finishing_consumer = Some c' ∧
         last (trace c') =
           Some (EvPushToStream (Some (TypeError "Cannot read properties of undefined"))
                   None) ∧
         ¬ (EvStopConsumer "shardId-000" ∈ trace c') ∧
         timeoutId (props c') = None) ∧
  (∃ c', pollForRecords 0 unlisting_env finishing_consumer = Some c' ∧
         last (trace c') =
           Some (EvPushToStream (Some (AwsError "LimitExceededException")) None) ∧
         ¬ (EvStopConsumer "shardId-000" ∈ trace c') ∧
         timeoutId (props c') = None) ∧
  (∃ c', pollForRecords 0 null_iterator_env finishing_consumer = Some c' ∧
         trace c' =
           [ EvGetRecords 10000 "it-3"
               (inr {| MillisBehindLatest := Some 0; NextShardIterator := Null;
                       Records := [] |});
             EvSetTimeout 1000 ]).
Proof.
  split; [|split].
  - eexists. split; [vm_compute; reflexivity|]. split; [vm_compute; reflexivity|].
    split; [|vm_compute; reflexivity].
    intros Hin. repeat (apply elem_of_cons in Hin as [Hin|Hin]; [discriminate|]).
    by apply elem_of_nil in Hin.
  - eexists. split; [vm_compute; reflexivity|]. split; [vm_compute; reflexivity|].
    split; [|vm_compute; reflexivity].
    intros Hin. repeat (apply elem_of_cons in Hin as [Hin|Hin]; [discriminate|]).
    by apply elem_of_nil in Hin.
  - eexists. split; vm_compute; reflexivity.
Defined.

Lemma getShardIterator_spec_witness :
  let c := new_PollingConsumer sample_options in
  (getShardIterator "sample-stream" "shardId-000" "TRIM_HORIZON" (Some "15") sample_env c).1
    = inr "it-0" ∧
  (getShardIterator "sample-stream" "shardId-000" "TRIM_HORIZON" (Some "20") sample_env c).1
    = inr "it-1" ∧
  (getShardIterator "sample-stream" "shardId-000" "TRIM_HORIZON" None sample_env c).1
    = inr "it-0".
Proof.
  intros c. split; [|split].
  - destruct (PollingConsumerFacts.getShardIterator_spec "sample-stream" "shardId-000"
                "TRIM_HORIZON" (Some "15") sample_env c) as (_ & Hafter & _).
    destruct (Hafter eq_refl) as (_ & Hretry & _).
    destruct (Hretry (AwsError "InvalidArgumentException") eq_refl eq_refl) as [Hrun _].
    exact Hrun.
  - destruct (PollingConsumerFacts.getShardIterator_spec "sample-stream" "shardId-000"
                "TRIM_HORIZON" (Some "20") sample_env c) as (_ & Hafter & _).
    destruct (Hafter eq_refl) as (Hok & _ & _).
    destruct (Hok (Some "it-1") eq_refl) as [Hrun _]. exact Hrun.
  - destruct (PollingConsumerFacts.getShardIterator_spec "sample-stream" "shardId-000"
                "TRIM_HORIZON" None sample_env c) as (_ & _ & Hinitial).
    destruct (Hinitial eq_refl) as [Hrun _]. exact Hrun.
Defined.

Lemma automatic_checkpoints_nondecreasing_witness :
  ∃ c', run 0 sample_env [Poll; Poll; UpdateLeaseExpiration (Some 600000); Poll]
          (new_PollingConsumer sample_options) = Some c' ∧
        stored (trace c') = ["20"; "30"] ∧
        nondecreasing (stored (trace c')) = true.
Proof.
  eexists. split; [vm_compute; reflexivity|]. split; [vm_compute; reflexivity|].
  apply (PollingConsumerFacts.automatic_checkpoints_nondecreasing 0 sample_env
           sample_options [Poll; Poll; UpdateLeaseExpiration (Some 600000); Poll]).
  - reflexivity.
  - vm_compute. reflexivity.
  - vm_compute. reflexivity.
Defined.

(** C4 as stated fails in two ways.  The checkpoint function handed to the
    downstream stores whatever it is given: the records 10 and 20 arrive in
    order, and the downstream stores 20 and then 10.  And the automatic
    checkpoints are as ordered as the records the service gives: when the
    record 20 arrives before the record 10, the consumer stores 20 and then
    10 by itself. *)
Lemma checkpoints_decrease :
  (∃ c' payload,
     run 0 sample_env [Poll; SetCheckpoint "20"; SetCheckpoint "10"]
       (new_PollingConsumer manual_options) = Some c' ∧
     EvPushToStream None (Some payload) ∈ trace c' ∧
     payload_setCheckpoint payload = true ∧
     received sample_env false (trace c') = ["10"; "20"] ∧
     stored (trace c') = ["20"; "10"] ∧
     nondecreasing (stored (trace c')) = false) ∧
  (∃ c',
     run 0 unordered_env [Poll; Poll] (new_PollingConsumer sample_options) = Some c' ∧
     received unordered_env false (trace c') = ["20"; "10"] ∧
     stored (trace c') = ["20"; "10"] ∧
     nondecreasing (stored (trace c')) = false).
Proof.
  split.
  - do 2 eexists. split; [vm_compute; reflexivity|].
    split; [do 2 apply list_elem_of_further; apply list_elem_of_here|].
    repeat split; vm_compute; reflexivity.
  - eexists. split; [vm_compute; reflexivity|].
    repeat split; vm_compute; reflexivity.
Defined.

(** Two records, 10 and 20, of two user records each arrive: all four are
    pushed, the last one with sequence number 20; the sequence number kept
    for the next poll is 10, and that is what the next poll stores before it
    asks for records. *)
Lemma paused_polling_batch_witness :
  ∃ c1 c2 payload,
    pollForRecords 0 aggregating_env (new_PollingConsumer aggregated_options) = Some c1 ∧
    last (trace c1) = Some (EvPushToStream None (Some payload)) ∧
    sequenceNumber <$> payload_records payload = ["10"; "10"; "20"; "20"] ∧
    timeoutId (props c1) = None ∧
    stored (trace c1) = [] ∧
    seqNumToCheckpoint (props c1) = Some "10" ∧
    pollForRecords 0 aggregating_env c1 = Some c2 ∧
    drop (length (trace c1)) (trace c2) !! 0%nat =
      Some (EvStoreShardCheckpoint "shardId-000" "10" (inr tt)) ∧
    checkpoint (props c2) = Some "10".
Proof.
  pose proof (PollingConsumerFacts.paused_polling_batch 0 aggregating_env
                (new_PollingConsumer aggregated_options)
                (new_PollingConsumer aggregated_options)
                (emit (EvGetShardIterator
                         {| ShardId := "shardId-000"; ShardIteratorType := "TRIM_HORIZON";
                            StreamName := "sample-stream"; StartingSequenceNumber := None |}
                         (inr (Some "it-0")))
                   (new_PollingConsumer aggregated_options))
                (Some "it-0")
                {| MillisBehindLatest := Some 500; NextShardIterator := Str "it-1";
                   Records := [raw "10"; raw "20"] |}
                [ {| sequenceNumber := "10"; data := "first of payload" |};
                  {| sequenceNumber := "10"; data := "second of payload" |};
                  {| sequenceNumber := "20"; data := "first of payload" |};
                  {| sequenceNumber := "20"; data := "second of payload" |} ]
                {| sequenceNumber := "10"; data := "second of payload" |}
                eq_refl eq_refl eq_refl eq_refl) as Hpoll.
  cbv zeta in Hpoll.
  specialize (Hpoll ltac:(vm_compute; reflexivity) eq_refl ltac:(discriminate)
                ltac:(vm_compute; reflexivity) ltac:(vm_compute; reflexivity)).
  eexists _, _, _. split; [exact Hpoll|]. repeat split; vm_compute; reflexivity.
Defined.

End PollingConsumerExamples.

(** ** More of the State Store on sample worlds *)

Lemma singleton_not_null (k0 : string) (v : value) :
  v ≠ VNull → ∀ k, ({[k0 := v]} : gmap string value) !! k ≠ Some VNull.
Proof.
  intros Hv k. destruct (decide (k = k0)) as [->|Hne].
  - rewrite lookup_singleton_eq. by intros [= ->].
  - by rewrite lookup_singleton_ne.
Qed.

(** A second shard gets its record once; asking again, with other shard data,
    changes nothing. *)
Lemma ensureShardStateExists_twice_witness :
  let w := sample_world (Some one_shard_document) in
  let first := ensureShardStateExists consumer_A "shardId-001" root_shard w in
  let second :=
    ensureShardStateExists consumer_A "shardId-001"
      {| parent := Some "shardId-000"; startingSequenceNumber := "31" |} first.2 in
  first.1 = inr tt ∧
  get_path (slot consumer_A "shardId-001") (item_or_empty (item first.2)) =
    Some (new_shard_record root_shard "uuid-0") ∧
  second.1 = inr tt ∧
  item second.2 = item first.2.
Proof.
  intros w first second.
  exact (ensureShardStateExists_twice consumer_A "shardId-001" root_shard
           {| parent := Some "shardId-000"; startingSequenceNumber := "31" |} w
           one_shard_document {["shardId-000" := shard_record (VStr "100") false "v1"]}
           (λ _, eq_refl) eq_refl eq_refl).
Defined.

(** The shard that has a record is read; the one that has none is created
    and read again; for the shard id [constructor] the inherited member is
    answered and nothing is created. *)
Lemma getShardAndStreamState_spec_witness :
  let w := sample_world (Some one_shard_document) in
  (getShardAndStreamState consumer_A "shardId-000" root_shard w).1 =
    inr (Some one_shard_document, Some (own (shard_record (VStr "100") false "v1"))) ∧
  (∃ doc',
    (getShardAndStreamState consumer_A "shardId-001" root_shard w).1 =
      inr (Some doc', Some (own (new_shard_record root_shard "uuid-0"))) ∧
    length (requests (getShardAndStreamState consumer_A "shardId-001" root_shard w).2)
      = 3%nat) ∧
  (getShardAndStreamState consumer_A "constructor" root_shard w).1 =
    inr (Some one_shard_document, Some (inherited_member "constructor")) ∧
  requests (getShardAndStreamState consumer_A "constructor" root_shard w).2 = [ReqGet].
Proof.
  intros w. split; [|split].
  - pose proof (getShardAndStreamState_spec consumer_A "shardId-000" root_shard w
                  one_shard_document {["shardId-000" := shard_record (VStr "100") false "v1"]}
                  (λ _, eq_refl) eq_refl eq_refl) as H.
    cbv zeta in H. rewrite lookup_singleton_eq in H. by destruct H as [H _].
  - pose proof (getShardAndStreamState_spec consumer_A "shardId-001" root_shard w
                  one_shard_document {["shardId-000" := shard_record (VStr "100") false "v1"]}
                  (λ _, eq_refl) eq_refl eq_refl) as H.
    cbv zeta in H. rewrite lookup_singleton_ne in H by done.
    change (inherited "shardId-001") with false in H. cbv iota in H.
    destruct H as (doc' & params & _ & Hrun & _ & Hrequests).
    exists doc'. split; [exact Hrun|]. by rewrite Hrequests.
  - pose proof (getShardAndStreamState_spec consumer_A "constructor" root_shard w
                  one_shard_document {["shardId-000" := shard_record (VStr "100") false "v1"]}
                  (λ _, eq_refl) eq_refl eq_refl) as H.
    cbv zeta in H. rewrite lookup_singleton_ne in H by done.
    change (inherited "constructor") with true in H. cbv iota in H.
    destruct H as (Hrun & _ & Hrequests). split; [exact Hrun|exact Hrequests].
Defined.

(** Consumer A owns the leased shard; consumer C owns nothing. *)
Lemma getOwnedShards_spec_witness :
  let w := sample_world (Some leased_document) in
  (∃ owned, (getOwnedShards consumer_A w).1 = inr owned ∧
            owned !! "shardId-000" =
              Some {| owned_checkpoint := Some (VStr "100");
                      owned_leaseExpiration := Some (VTime 300000);
                      owned_version := Some (VStr "v2") |}) ∧
  (∃ owned, (getOwnedShards consumer_C w).1 = inr owned ∧ owned !! "shardId-000" = None).
Proof.
  intros w. split.
  - destruct (getOwnedShards_spec consumer_A w leased_document
                {["shardId-000" := leased_record]} eq_refl eq_refl eq_refl
                (singleton_not_null "shardId-000" leased_record
                   ltac:(unfold leased_record; discriminate)))
      as (owned & Hrun & Hlookup & _).
    exists owned. split; [exact Hrun|]. rewrite Hlookup, lookup_singleton_eq.
    vm_compute. reflexivity.
  - destruct (getOwnedShards_spec consumer_C w leased_document
                {["shardId-000" := leased_record]} eq_refl eq_refl eq_refl
                (singleton_not_null "shardId-000" leased_record
                   ltac:(unfold leased_record; discriminate)))
      as (owned & Hrun & Hlookup & _).
    exists owned. split; [exact Hrun|]. rewrite Hlookup, lookup_singleton_eq.
    vm_compute. reflexivity.
Defined.

Lemma locked_shard_is_owned_witness :
  let w := sample_world (Some one_shard_document) in
  let locked := lockShardLease consumer_A "shardId-000" 300000 (VStr "v1") w in
  ∃ owned,
    (getOwnedShards consumer_A locked.2).1 = inr owned ∧
    owned !! "shardId-000" =
      Some {| owned_checkpoint := Some (VStr "100");
              owned_leaseExpiration := Some (VTime 300000);
              owned_version := Some (VStr "uuid-0") |}.
Proof.
  intros w locked.
  destruct (locked_shard_is_owned consumer_A "shardId-000" 300000 (VStr "v1") w
              one_shard_document {["shardId-000" := shard_record (VStr "100") false "v1"]}
              (λ _, eq_refl) eq_refl eq_refl
              (singleton_not_null "shardId-000" (shard_record (VStr "100") false "v1")
                 ltac:(unfold shard_record; discriminate))
              ltac:(vm_compute; reflexivity))
    as (owned & r & Hrun & Hr & Howned & _).
  exists owned. split; [exact Hrun|]. rewrite Howned.
  rewrite lookup_singleton_eq in Hr. injection Hr as <-. vm_compute. reflexivity.
Defined.

Lemma released_shard_is_not_owned_witness :
  let w := sample_world (Some leased_document) in
  let release := releaseShardLease consumer_A "shardId-000" (VStr "v2") w in
  ∃ owned, (getOwnedShards consumer_A release.2).1 = inr owned ∧ owned !! "shardId-000" = None.
Proof.
  intros w release.
  destruct (released_shard_is_not_owned consumer_A "shardId-000" (VStr "v2") w
              leased_document {["shardId-000" := leased_record]} "uuid-0"
              (λ _, eq_refl) eq_refl eq_refl
              (singleton_not_null "shardId-000" leased_record
                 ltac:(unfold leased_record; discriminate))
              ltac:(vm_compute; reflexivity))
    as (owned & Hrun & Hnone & _).
  exists owned. split; [exact Hrun|exact Hnone].
Defined.

(** The checkpoint 200 of the shard is read back; a checkpoint for a shard
    without record is refused. *)
Lemma storeShardCheckpoint_round_trip_witness :
  let w := sample_world (Some one_shard_document) in
  (∃ doc',
     (getShardAndStreamState consumer_A "shardId-000" root_shard
        (storeShardCheckpoint consumer_A "shardId-000" (VStr "200") w).2).1 =
     inr (Some doc', Some (own (shard_record (VStr "200") false "uuid-0")))) ∧
  (storeShardCheckpoint consumer_A "shardId-001" (VStr "200") w).1 =
    inl (AwsError ValidationException).
Proof.
  intros w. split.
  - pose proof (storeShardCheckpoint_round_trip consumer_A "shardId-000" (VStr "200")
                  root_shard w one_shard_document
                  {["shardId-000" := shard_record (VStr "100") false "v1"]}
                  (λ _, eq_refl) eq_refl eq_refl) as H.
    cbv zeta in H. rewrite lookup_singleton_eq in H. unfold shard_record in H.
    destruct H as (_ & doc' & _ & Hread). exists doc'. rewrite Hread.
    vm_compute. reflexivity.
  - pose proof (storeShardCheckpoint_round_trip consumer_A "shardId-001" (VStr "200")
                  root_shard w one_shard_document
                  {["shardId-000" := shard_record (VStr "100") false "v1"]}
                  (λ _, eq_refl) eq_refl eq_refl) as H.
    cbv zeta in H. rewrite lookup_singleton_ne in H by done. by destruct H as [H _].
Defined.

(** Consumer C has no record and gets one; consumer A has one and keeps it,
    with a new heartbeat. *)
Lemma registerConsumer_spec_witness :
  let w := at_time 5000 (sample_world (Some one_shard_document)) in
  get_path ["consumers"; "C"; "heartbeat"]
    (item_or_empty (item (registerConsumer sample_process consumer_C w).2))
    = Some (VTime 5000) ∧
  get_path ["consumers"; "A"]
    (item_or_empty (item (registerConsumer sample_process consumer_A w).2))
    = Some (VMap {["heartbeat" := VTime 5000]}).
Proof.
  intros w. split.
  - pose proof (registerConsumer_spec sample_process consumer_C w
                  (<["version" := VStr "v0"]> (<["shards" :=
                     VMap {["shardId-000" := shard_record (VStr "100") false "v1"]}]>
                     (<["consumers" := VMap {["A" := VMap {["heartbeat" := VTime 1000]}]}]> ∅)))
                  {["A" := VMap {["heartbeat" := VTime 1000]}]}
                  eq_refl eq_refl eq_refl) as H.
    cbv zeta in H. destruct H as [_ H].
    change (consumerId consumer_C) with "C" in H.
    rewrite lookup_singleton_ne in H by done.
    destruct H as (record & -> & Hheartbeat & _).
    simpl. rewrite lookup_insert_eq. simpl. rewrite lookup_insert_eq. simpl.
    by rewrite Hheartbeat.
  - pose proof (registerConsumer_spec sample_process consumer_A w
                  (<["version" := VStr "v0"]> (<["shards" :=
                     VMap {["shardId-000" := shard_record (VStr "100") false "v1"]}]>
                     (<["consumers" := VMap {["A" := VMap {["heartbeat" := VTime 1000]}]}]> ∅)))
                  {["A" := VMap {["heartbeat" := VTime 1000]}]}
                  eq_refl eq_refl eq_refl) as H.
    cbv zeta in H. destruct H as [_ H].
    change (consumerId consumer_A) with "A" in H.
    rewrite lookup_singleton_eq in H. change (fault_of w _) with (@None error) in H.
    cbv iota in H. rewrite H. vm_compute. reflexivity.
Defined.

(** Consumer A has been silent for 99 seconds and is removed. *)
Lemma clearOldConsumers_removes_witness :
  let w := at_time 100000 (sample_world (Some one_shard_document)) in
  let run := clearOldConsumers consumer_C 60000 w in
  run.1 = inr tt ∧
  get_path ["consumers"] (item_or_empty (item run.2)) = Some (VMap ∅) ∧
  get_path ["version"] (item_or_empty (item run.2)) = Some (VStr "uuid-0").
Proof.
  intros w run.
  destruct (clearOldConsumers_removes consumer_C 60000 w
              (<["version" := VStr "v0"]> (<["shards" :=
                 VMap {["shardId-000" := shard_record (VStr "100") false "v1"]}]>
                 (<["consumers" := VMap {["A" := VMap {["heartbeat" := VTime 1000]}]}]> ∅)))
              {["A" := VMap {["heartbeat" := VTime 1000]}]} "v0" "A"
              (VMap {["heartbeat" := VTime 1000]})
              eq_refl eq_refl eq_refl eq_refl eq_refl
              (singleton_not_null "A" (VMap {["heartbeat" := VTime 1000]})
                 ltac:(discriminate))
              ltac:(vm_compute; reflexivity) ltac:(vm_compute; reflexivity))
    as [Hr Hitem].
  fold run in Hr, Hitem. split; [exact Hr|]. rewrite Hitem.
  split; vm_compute; reflexivity.
Defined.

(** ** More of the polling consumer on sample collaborators *)

Module PollingConsumerMoreExamples.
Import PollingConsumer PollingConsumerVocabulary PollingConsumerSamples
  PollingConsumerMoreSamples.

(** The first poll of a new consumer ends with the timer of the next one. *)
Lemma poll_hands_over_witness :
  ∃ c',
    pollForRecords 0 sample_env (new_PollingConsumer sample_options) = Some c' ∧
    last (trace c') = Some (EvSetTimeout 250) ∧
    ∃ evs e, trace c' = trace (new_PollingConsumer sample_options) ++ evs ++ [e] ∧
             hands_over e = true.
Proof.
  eexists. split; [vm_compute; reflexivity|]. split; [vm_compute; reflexivity|].
  apply (PollingConsumerMore.poll_hands_over 0 sample_env
           (new_PollingConsumer sample_options)).
  vm_compute. reflexivity.
Defined.

(** The batch 10, 20 cannot be decoded: the error is pushed, the iterator is
    already the next one, nothing is stored and no timer is set. *)
Lemma undecodable_batch_is_skipped_witness :
  ∃ c',
    pollForRecords 0 undecodable_env (new_PollingConsumer sample_options) = Some c' ∧
    last (trace c') = Some (EvPushToStream (Some (TypeError "Unexpected token in JSON")) None) ∧
    iterator (props c') = Some "it-1" ∧
    stored (trace c') = [] ∧
    timeoutId (props c') = None.
Proof.
  eexists. split.
  - exact (PollingConsumerMore.undecodable_batch_is_skipped 0 undecodable_env
             (new_PollingConsumer sample_options) (new_PollingConsumer sample_options)
             (emit first_iterator (new_PollingConsumer sample_options))
             (Some "it-0") first_batch (TypeError "Unexpected token in JSON")
             eq_refl eq_refl ltac:(vm_compute; reflexivity) eq_refl ltac:(discriminate)
             eq_refl eq_refl).
  - repeat split; vm_compute; reflexivity.
Defined.

(** The sequence number 20 of the batch 10, 20 is stored, then the batch is
    pushed, then the timer is set. *)
Lemma automatic_checkpoint_before_push_witness :
  ∃ c',
    pollForRecords 0 sample_env (new_PollingConsumer sample_options) = Some c' ∧
    drop 2 (trace c') =
      [ EvStoreShardCheckpoint "shardId-000" "20" (inr tt);
        EvPushToStream None
          (Some (propsToPush sample_options first_batch
                   [ {| sequenceNumber := "10"; data := "payload" |};
                     {| sequenceNumber := "20"; data := "payload" |} ]));
        EvSetTimeout 250 ] ∧
    checkpoint (props c') = Some "20".
Proof.
  pose proof (PollingConsumerMore.automatic_checkpoint_before_push 0 sample_env
                (new_PollingConsumer sample_options) (new_PollingConsumer sample_options)
                (emit first_iterator (new_PollingConsumer sample_options))
                (Some "it-0") first_batch
                [ {| sequenceNumber := "10"; data := "payload" |};
                  {| sequenceNumber := "20"; data := "payload" |} ]
                {| sequenceNumber := "20"; data := "payload" |}
                eq_refl eq_refl eq_refl eq_refl ltac:(vm_compute; reflexivity) eq_refl
                ltac:(discriminate) eq_refl eq_refl) as Hpoll.
  cbv zeta in Hpoll.
  change (stateStore_storeShardCheckpoint sample_env _ _ _) with (@inr error unit tt)
    in Hpoll.
  cbv iota in Hpoll.
  eexists. split; [exact Hpoll|]. split; vm_compute; reflexivity.
Defined.

(** The downstream stores 20 and then 10; the two polls store nothing. *)
Lemma manual_mode_stores_witness :
  ∃ c',
    run 0 sample_env [Poll; SetCheckpoint "20"; SetCheckpoint "10"; Poll]
      (new_PollingConsumer manual_options) = Some c' ∧
    stored (trace c') = ["20"; "10"].
Proof.
  eexists. split; [vm_compute; reflexivity|].
  apply (PollingConsumerMore.manual_mode_stores 0 sample_env
           [Poll; SetCheckpoint "20"; SetCheckpoint "10"; Poll]
           (new_PollingConsumer manual_options)).
  - reflexivity.
  - reflexivity.
  - vm_compute. reflexivity.
Defined.


(** The lease ended at 500 and it is 1000: the consumer is stopped. *)
Lemma expired_lease_stops_witness :
  let c := updateLeaseExpiration (Some 500) (new_PollingConsumer sample_options) in
  pollForRecords 0 sample_env c = Some (emit (EvStopConsumer "shardId-000") c).
Proof.
  intros c.
  apply (PollingConsumerMore.expired_lease_stops 0 sample_env c 500).
  - reflexivity.
  - vm_compute. reflexivity.
Defined.

End PollingConsumerMoreExamples.

(** ** The shard lineage, the stream management and the writes on samples *)

(** The second shard of the sample listing refers to the first, which is a
    key. *)
Lemma getStreamShards_closed_witness :
  is_Some (getStreamShards (Some sample_shards) !! "shardId-000").
Proof.
  destruct (getStreamShards_closed (Some sample_shards) "shardId-001" "shardId-000"
              {| parent := Some "shardId-000"; startingSequenceNumber := "31" |})
    as [_ Hkey].
  - vm_compute. reflexivity.
  - reflexivity.
  - apply Hkey. vm_compute. reflexivity.
Defined.

Module StreamManagementExamples.
Import StreamManagement StreamManagementSamples.

(** The stream is not there: it is created, and the answer names the
    stream that the waiter describes. *)
Lemma ensureStreamExists_names_a_stream_witness :
  ∃ out tr',
    ensureStreamExists true 1 "sample-stream" sample_env [] = (inr out, tr') ∧
    out = {| streamArn := Some (StreamARN sample_description);
             streamCreatedOn := Some "1970-01-01T00:00:00.000Z" |} ∧
    ∃ description,
      out = {| streamArn := Some (StreamARN description);
               streamCreatedOn :=
                 Some (toISOString sample_env (StreamCreationTimestamp description)) |} ∧
      last tr' = Some (EvWaitFor "streamExists" "sample-stream" (inr description)).
Proof.
  eexists _, _. split; [vm_compute; reflexivity|]. split; [reflexivity|].
  destruct (StreamManagementFacts.ensureStreamExists_names_a_stream 1 "sample-stream"
              sample_env [] _ _ ltac:(vm_compute; reflexivity))
    as (description & Hout & [[Hchecked _]|[_ [answer Htr]]]).
  - vm_compute in Hchecked. discriminate.
  - exists description. split; [exact Hout|]. by rewrite Htr, last_app.
Defined.

(** The stream has the tag team=data.  Wanting it changes nothing; wanting
    env=prod as well sends both tags. *)
Lemma confirmStreamTags_spec_witness :
  let listed := [EvListTagsForStream "sample-stream"
                   (inr (Some [ {| Key := "team"; Value := "data" |} ]))] in
  confirmStreamTags "sample-stream" {["team" := "data"]} sample_env [] = (inr tt, listed) ∧
  ∃ mergedTags,
    confirmStreamTags "sample-stream" {["env" := "prod"]} sample_env [] =
      (inr tt, listed ++ [EvAddTagsToStream "sample-stream" mergedTags (inr tt)]) ∧
    mergedTags !! "team" = Some "data" ∧
    mergedTags !! "env" = Some "prod".
Proof.
  intros listed. split.
  - destruct (StreamManagementFacts.confirmStreamTags_spec "sample-stream"
                {["team" := "data"]} sample_env [] [ {| Key := "team"; Value := "data" |} ]
                eq_refl) as [Hsame _].
    apply Hsame.
    replace (Object_fromEntries _) with ({["team" := "data"]} : gmap string string)
      by (vm_compute; reflexivity).
    done.
  - destruct (StreamManagementFacts.confirmStreamTags_spec "sample-stream"
                {["env" := "prod"]} sample_env [] [ {| Key := "team"; Value := "data" |} ]
                eq_refl) as [_ Hupdate].
    destruct Hupdate as (mergedTags & Hrun & Hmerged).
    { intros Hsub.
      pose proof (lookup_weaken _ _ "env" "prod" (lookup_singleton_eq _ _) Hsub) as Henv.
      vm_compute in Henv. discriminate. }
    exists mergedTags. split; [exact Hrun|]. rewrite !Hmerged.
    split; vm_compute; reflexivity.
Defined.

(** The consumer is being created at the first listing and active at the
    second one, after a pause. *)
Lemma getEnhancedConsumers_all_active_witness :
  ∃ consumers tr',
    getEnhancedConsumers 1 (StreamARN sample_description) sample_env [] =
      Some (inr consumers, tr') ∧
    length tr' = 3%nat ∧
    ∀ name info, consumers !! name = Some info → status info = "ACTIVE".
Proof.
  eexists _, _. split; [vm_compute; reflexivity|]. split; [reflexivity|].
  eapply (StreamManagementFacts.getEnhancedConsumers_all_active 1
            (StreamARN sample_description) sample_env []).
  vm_compute. reflexivity.
Defined.

(** The registration answers [CREATING]; the call returns after the pause
    and the listing that shows the consumer active. *)
Lemma registerEnhancedConsumer_waits_witness :
  ∃ tr' registered evs Consumers consumer,
    registerEnhancedConsumer 0 "sample-consumer" (StreamARN sample_description)
      sample_env [] = Some (inr tt, tr') ∧
    tr' = [] ++ [EvRegisterStreamConsumer "sample-consumer" (StreamARN sample_description)
                   (inr registered)] ++ evs ++
          [EvWait CONSUMER_STATE_CHECK_DELAY;
           EvListStreamConsumers (StreamARN sample_description) (inr Consumers)] ∧
    find (λ i, String.eqb (ConsumerName i) "sample-consumer") (default [] Consumers)
    = Some consumer ∧
    ConsumerStatus consumer = "ACTIVE".
Proof.
  eexists. 
  assert (Hrun : registerEnhancedConsumer 0 "sample-consumer" (StreamARN sample_description)
                   sample_env [] = Some (inr tt, _)) by (vm_compute; reflexivity).
  destruct (StreamManagementFacts.registerEnhancedConsumer_waits 0 "sample-consumer"
              (StreamARN sample_description) sample_env [] _ Hrun)
    as (registered & evs & Consumers & consumer & Htr & Hfind & Hstatus).
  exists registered, evs, Consumers, consumer. split; [exact Hrun|]. by split.
Defined.

End StreamManagementExamples.

Module KinesisClientExamples.
Import PollingConsumer (truthy_str).
Import KinesisClient KinesisClientSamples.

Lemma sample_env_answers (tr : list Event) (records : list RequestEntry)
    (payload : PutRecordsOutput) :
  sdk_putRecords sample_env tr records = inr payload → answers_request records payload.
Proof.
  assert (Hall : ∀ l : list RequestEntry,
            Forall (λ entry, truthy_str (ErrorCode entry) = false) (map (λ _, written) l)).
  { intros l. induction l; simpl; by constructor. }
  unfold answers_request. simpl. unfold sample_putRecords.
  destruct tr as [|ev tr], records as [|r rest]; intros [= <-];
    (split; [simpl; by rewrite ?length_map|]); intros Hzero; try done;
    first [apply (Hall []) | apply (Hall (r :: rest))].
Qed.

(** The first of three records is refused at the first attempt and written
    at the second: the call answers three entries. *)
Lemma putRecords_writes_all_witness :
  ∃ out tr',
    putRecords 1 sample_records sample_env [] = Some (inr out, tr') ∧
    length tr' = 2%nat ∧
    length (result_Records out) = 3%nat ∧
    Forall (λ entry, truthy_str (ErrorCode entry) = false) (result_Records out).
Proof.
  eexists _, _. split; [vm_compute; reflexivity|]. split; [reflexivity|].
  eapply (KinesisClientFacts.putRecords_writes_all 1 sample_records sample_env []).
  - apply sample_env_answers.
  - vm_compute. reflexivity.
Defined.

End KinesisClientExamples.
